(** * better-spotify-wrapped: the structured-output extraction loop

    A shallow embedding of [classify_genres.py] (the prompt transcript, the
    extract / validate / retry connector and the batch loop) and of
    [SpotifySongSpan.load_history] from [persistence.py], with the
    properties the specification states about them.

    Python [str] values are modelled as [string] (one [ascii] per
    character; the case mapping below is the ASCII part of [str.lower]).
    Logging and progress printing only write to the logger and to stdout
    and are left out of the embedding. *)

From Stdlib Require Import ZArith Ascii String List Sorting.Sorted Permutation Lia.
From stdpp Require Import base option list sorting strings gmap.

Local Open Scope Z_scope.

(** ** Python string primitives *)

Module PyStr.

Definition dquote : ascii := "034"%char.
Definition squote : ascii := "039"%char.
Definition newline : ascii := "010"%char.
Definition backslash : ascii := "092"%char.

(** [s.startswith(p)] *)
Fixpoint startswith (p s : string) : bool :=
  match p, s with
  | EmptyString, _ => true
  | String a p', String b s' => if Ascii.eqb a b then startswith p' s' else false
  | String _ _, EmptyString => false
  end.

(** [s.endswith(p)] *)
Definition endswith (p s : string) : bool :=
  if decide (String.length p ≤ String.length s)%nat
  then String.eqb (String.substring (String.length s - String.length p)
                                    (String.length p) s) p
  else false.

(** [sub in s] *)
Fixpoint contains (sub s : string) : bool :=
  if startswith sub s then true
  else match s with
       | EmptyString => false
       | String _ s' => contains sub s'
       end.

(** [s.replace(old, new)] for a non-empty [old]: occurrences are replaced
    from left to right and do not overlap. [skip] counts the characters of
    the occurrence just replaced that are still to be passed over. *)
Fixpoint replace_from (old new : string) (skip : nat) (s : string) : string :=
  match s with
  | EmptyString => EmptyString
  | String c s' =>
      match skip with
      | S k => replace_from old new k s'
      | O => if startswith old s
             then new +:+ replace_from old new (String.length old - 1) s'
             else String c (replace_from old new 0 s')
      end
  end.

Definition replace (old new s : string) : string := replace_from old new 0 s.

(** ASCII part of [str.lower]. *)
Definition lower_char (c : ascii) : ascii :=
  let n := nat_of_ascii c in
  if decide (65 ≤ n ≤ 90)%nat then ascii_of_nat (n + 32) else c.

Fixpoint lower (s : string) : string :=
  match s with
  | EmptyString => EmptyString
  | String c s' => String (lower_char c) (lower s')
  end.

(** [repr(s)] for text of printable ASCII: single quotes unless the text
    has a single quote and no double quote; backslash, the chosen quote and
    newline are escaped. *)
Fixpoint repr_body (q : ascii) (s : string) : string :=
  match s with
  | EmptyString => EmptyString
  | String c s' =>
      if Ascii.eqb c backslash then String backslash (String backslash (repr_body q s'))
      else if Ascii.eqb c q then String backslash (String q (repr_body q s'))
      else if Ascii.eqb c newline then String backslash (String "n" (repr_body q s'))
      else String c (repr_body q s')
  end.

Definition repr (s : string) : string :=
  let q := if contains (String squote "") s && negb (contains (String dquote "") s)
           then dquote else squote in
  String q (repr_body q s +:+ String q "").

(** [repr(l)] for a list of [str]. *)
Fixpoint repr_items (l : list string) : string :=
  match l with
  | [] => ""
  | [x] => repr x
  | x :: l' => repr x +:+ ", " +:+ repr_items l'
  end.

Definition repr_list (l : list string) : string := "[" +:+ repr_items l +:+ "]".

(** [c in s] for a single character *)
Fixpoint has_char (c : ascii) (s : string) : bool :=
  match s with
  | EmptyString => false
  | String d s' => Ascii.eqb c d || has_char c s'
  end.

(** two texts differ in letter case only *)
Definition same_modulo_case (a b : string) : Prop := lower a = lower b.

(** [sub] occurs in [s], as a proposition. *)
Definition occurs_in (sub s : string) : Prop :=
  ∃ pre post, s = pre +:+ sub +:+ post.

End PyStr.

(** ** Response normalisation (json_prompt, lines 119-120) *)

(** [while "\&" in resp: resp = resp.replace("\&", "&")].  Every round
    shortens [resp], so [String.length resp] rounds are enough. *)
Fixpoint normalize_loop (fuel : nat) (resp : string) : string :=
  match fuel with
  | O => resp
  | S fuel' =>
      if PyStr.contains "\&" resp
      then normalize_loop fuel' (PyStr.replace "\&" "&" resp)
      else resp
  end.

Definition normalize (resp : string) : string :=
  normalize_loop (String.length resp) resp.

(** The text the loop is meant to leave, read off [resp] in one pass from
    its end: a backslash is dropped when the text that follows it, with its
    own escapes dropped, begins with an ampersand; every other character
    stays where it is.  [normalize] is compared with it below. *)
Fixpoint drop_escapes (resp : string) : string :=
  match resp with
  | EmptyString => EmptyString
  | String c s =>
      let r := drop_escapes s in
      if Ascii.eqb c PyStr.backslash && PyStr.startswith "&" r then r else String c r
  end.

(** The characters of [s] other than [c], in order. *)
Fixpoint without_char (c : ascii) (s : string) : string :=
  match s with
  | EmptyString => EmptyString
  | String d s' => if Ascii.eqb c d then without_char c s' else String d (without_char c s')
  end.

(** ** Candidate span ([re.search("{[^}]*}", resp)], line 123) *)

Module Re.

(** [[^}]*}] anchored at the start of [s]: the star takes every character
    that is not a closing brace, then a closing brace must follow. *)
Fixpoint body (s : string) : option string :=
  match s with
  | EmptyString => None
  | String c s' =>
      if Ascii.eqb c "}" then Some (String c "")
      else String c <$> body s'
  end.

(** the whole pattern anchored at the start of [s] *)
Definition match_here (s : string) : option string :=
  match s with
  | String c s' => if Ascii.eqb c "{" then String c <$> body s' else None
  | EmptyString => None
  end.

(** [re.search]: the match at the leftmost position that has one;
    [.group(0)] is the matched text. *)
Fixpoint search (s : string) : option string :=
  match match_here s with
  | Some m => Some m
  | None => match s with
            | EmptyString => None
            | String _ s' => search s'
            end
  end.

End Re.

(** ** [json.dumps] on the values the program serialises *)

Module Json.

(** a JSON string literal (text of printable ASCII, newline and tab) *)
Fixpoint escape (s : string) : string :=
  match s with
  | EmptyString => EmptyString
  | String c s' =>
      if Ascii.eqb c PyStr.backslash then String PyStr.backslash (String PyStr.backslash (escape s'))
      else if Ascii.eqb c PyStr.dquote then String PyStr.backslash (String PyStr.dquote (escape s'))
      else if Ascii.eqb c PyStr.newline then String PyStr.backslash (String "n" (escape s'))
      else if Ascii.eqb c "009" then String PyStr.backslash (String "t" (escape s'))
      else String c (escape s')
  end.

Definition dumps_str (s : string) : string :=
  String PyStr.dquote (escape s +:+ String PyStr.dquote "").

(** [json.dumps(d)] for a [dict[str, str]], in insertion order *)
Fixpoint dumps_members (d : list (string * string)) : string :=
  match d with
  | [] => ""
  | [(k, v)] => dumps_str k +:+ ": " +:+ dumps_str v
  | (k, v) :: d' => dumps_str k +:+ ": " +:+ dumps_str v +:+ ", " +:+ dumps_members d'
  end.

Definition dumps_dict (d : list (string * string)) : string :=
  "{" +:+ dumps_members d +:+ "}".

(** [json.dumps(l, indent=2)] for a [list[str]] *)
Fixpoint dumps_lines (l : list string) : string :=
  match l with
  | [] => ""
  | [x] => "  " +:+ dumps_str x
  | x :: l' => "  " +:+ dumps_str x +:+ String "," (String PyStr.newline (dumps_lines l'))
  end.

Definition dumps_list_indent2 (l : list string) : string :=
  match l with
  | [] => "[]"
  | _ => String "[" (String PyStr.newline (dumps_lines l))
           +:+ String PyStr.newline "]"
  end.

End Json.

(** ** Data model *)

Inductive Role := system | user | assistant.

(** [ollama.Message] *)
Record Message := { role : Role; content : string }.

(** Exceptions that leave the functions modelled here. *)
Inductive Exn :=
| TransportError (msg : string)   (* raised by [Client.chat] *)
| LoadError (msg : string)        (* raised while reading a history file *)
| TypeError (msg : string).       (* raised by a comparison of [datetime]s *)

(** What a call does: it returns, it raises, or the recursion budget of the
    model ran out before it did either. *)
Inductive Outcome (A : Type) :=
| Returned (a : A)
| Raised (e : Exn)
| OutOfFuel.
Arguments Returned {A} a.
Arguments Raised {A} e.
Arguments OutOfFuel {A}.

(** The result of code run under [try: ... except ValueError as e]: a value,
    or the text [str(e)] of the [ValueError] it raised. *)
Inductive Parsed (A : Type) :=
| Valid (a : A)
| ValueError (msg : string).
Arguments Valid {A} a.
Arguments ValueError {A} msg.

(** [JsonOutputFormat]: a schema states its fields and validates JSON text. *)
Class JsonOutputFormat (T : Type) := {
  fields : list (string * string);
  model_validate_json : string → Parsed T
}.

(** [JsonPrompt] *)
Record JsonPrompt (T : Type) := {
  output_format : T;
  system_prompt : option string;
  msgs : list Message
}.
Arguments output_format {T} _.
Arguments system_prompt {T} _.
Arguments msgs {T} _.

(** One request to the backend, and the backend itself: its reply may depend
    on the requests it has served before. *)
Record Request := { req_model : string; req_messages : list Message }.

Inductive ChatReply :=
| Reply (text : string)
| Unreachable (err : string).

Definition Client := list Request → Request → ChatReply.

(** [LLMConnector] *)
Record LLMConnector := { cli : Client; model : string }.

Section Connector.

Context {T : Type} `{fmt : JsonOutputFormat T}.

(** [JsonPrompt.add_msg] *)
Definition add_msg (self : JsonPrompt T) (msg : Message) : JsonPrompt T :=
  {| output_format := output_format self;
     system_prompt := system_prompt self;
     msgs := msgs self ++ [msg] |}.

(** [JsonPrompt.pop_last]; [list.pop] on an empty list raises [IndexError] *)
Definition pop_last (self : JsonPrompt T) : option (JsonPrompt T) :=
  match msgs self with
  | [] => None
  | _ => Some {| output_format := output_format self;
                 system_prompt := system_prompt self;
                 msgs := removelast (msgs self) |}
  end.

(** [JsonPrompt.pop_add] *)
Definition pop_add (self : JsonPrompt T) (msg : Message) : option (JsonPrompt T) :=
  (λ p, add_msg p msg) <$> pop_last self.

Definition system_msg : string :=
  "Do not output any markdown. Do not make any comments. Do not use escape characters."
  +:+ String PyStr.newline (String PyStr.newline
  ("Output nothing but a JSON in the following format: "
  +:+ Json.dumps_dict fields)).

(** [JsonPrompt.build_prompt]: a new list; [self.msgs] is only read. The
    format is consulted through its class ([output_format.fields()]). *)
Definition build_prompt (self : JsonPrompt T) (output_format : T) : list Message :=
  [ {| role := system; content := system_msg |} ] ++ msgs self.

(** The [try] block of [json_prompt] (lines 117-127). *)
Definition parse_response (resp : string) : Parsed T :=
  let resp := normalize resp in
  match Re.search resp with
  | None => ValueError "No JSON found in response."
  | Some span => model_validate_json span
  end.

Definition correction (e : string) : Message :=
  {| role := user;
     content := "That did not work. Here is the error I get: `" +:+ e
                +:+ "`. Please try again." |}.

(** [LLMConnector.json_prompt].  The prompt object is mutated in place, so
    its final value is returned next to the outcome, with the list of
    requests the backend has served.  [fuel] bounds the recursion depth. *)
Fixpoint json_prompt (fuel : nat) (self : LLMConnector) (prompt : JsonPrompt T)
    (max_tries : Z) (served : list Request)
    : Outcome (option T) * JsonPrompt T * list Request :=
  match fuel with
  | O => (OutOfFuel, prompt, served)
  | S fuel' =>
      if max_tries =? 0 then (Returned None, prompt, served)
      else
        let msgs := build_prompt prompt (output_format prompt) in
        let req := {| req_model := model self; req_messages := msgs |} in
        match cli self served req with
        | Unreachable err => (Raised (TransportError err), prompt, served ++ [req])
        | Reply resp =>
            let prompt := add_msg prompt {| role := assistant; content := resp |} in
            match parse_response resp with
            | ValueError e =>
                let prompt := add_msg prompt (correction e) in
                json_prompt fuel' self prompt (max_tries - 1) (served ++ [req])
            | Valid output_format => (Returned (Some output_format), prompt, served ++ [req])
            end
        end
  end.

(** Recursion depth that [json_prompt] needs for a budget that is not
    negative. *)
Definition depth_for (max_tries : Z) : nat := S (Z.to_nat max_tries).

(** The assistant message that stores a reply, and the two messages one
    rejected attempt appends for the reply [r.1] and the error text [r.2]. *)
Definition reply_msg (resp : string) : Message :=
  {| role := assistant; content := resp |}.

Definition exchange (r : string * string) : list Message :=
  [reply_msg r.1; correction r.2].

(** The request an attempt sends for [prompt]. *)
Definition request (self : LLMConnector) (prompt : JsonPrompt T) : Request :=
  {| req_model := model self;
     req_messages := build_prompt prompt (output_format prompt) |}.

(** [rejected self k p served p' served']: from the prompt [p], with
    [served] already sent, [k] attempts in a row get a reply that the [try]
    block rejects; they leave the prompt [p'] and the requests [served']. *)
Inductive rejected (self : LLMConnector)
  : nat → JsonPrompt T → list Request → JsonPrompt T → list Request → Prop :=
| rejected_none p served : rejected self 0 p served p served
| rejected_more k p served resp e p' served' :
    cli self served (request self p) = Reply resp →
    parse_response resp = ValueError e →
    rejected self k
      (add_msg (add_msg p (reply_msg resp)) (correction e))
      (served ++ [request self p]) p' served' →
    rejected self (S k) p served p' served'.

(** A backend that answers every request. *)
Definition replying (self : LLMConnector) : Prop :=
  ∀ served req, ∃ resp, cli self served req = Reply resp.

(** A backend none of whose replies the [try] block accepts. *)
Definition never_valid (self : LLMConnector) : Prop :=
  ∀ served req, ∃ resp e,
    cli self served req = Reply resp ∧ parse_response resp = ValueError e.

End Connector.

(** ** The genre classifier *)

(** [persistence.Config] *)
Record Config := {
  spotify_data_dir : string;
  db_fp : string;
  ollama_model : string;
  ollama_host : string;
  classified_genres_fp : string;
  fundamental_genres : list string
}.

(** [ClassifyGenreOutput] *)
Record ClassifyGenreOutput := { reason : string; fundamental_genre : string }.

(** [ClassifyGenreOutput.model_construct()]: an instance without validation;
    its attributes are left unset and never read. *)
Definition model_construct : ClassifyGenreOutput :=
  {| reason := ""; fundamental_genre := "" |}.

Definition default_max_tries : Z := 20.

Section Classify.

(** The module-level [cfg], loaded from [config.json]. *)
Variable cfg : Config.

(** pydantic's [BaseModel.model_validate_json] at the two-field schema:
    the record read from the text, or the text of its [ValidationError]
    (a [ValueError]). *)
Variable base_validate_json : string → Parsed ClassifyGenreOutput.

(** Lines 185-188: the domain check on a record the base class accepted. *)
Definition check_genre (s : ClassifyGenreOutput) : Parsed ClassifyGenreOutput :=
  let s := {| reason := reason s; fundamental_genre := PyStr.lower (fundamental_genre s) |} in
  if decide (fundamental_genre s ∈ fundamental_genres cfg)
  then Valid s
  else ValueError ("Invalid fundamental genre: " +:+ fundamental_genre s
                   +:+ ". Choose from " +:+ PyStr.repr_list (fundamental_genres cfg)).

(** The record the check returns, and the error text it raises for the
    lower-cased value [v]. *)
Definition lowered (s : ClassifyGenreOutput) : ClassifyGenreOutput :=
  {| reason := reason s; fundamental_genre := PyStr.lower (fundamental_genre s) |}.

Definition invalid_genre (v : string) : string :=
  "Invalid fundamental genre: " +:+ v +:+ ". Choose from "
  +:+ PyStr.repr_list (fundamental_genres cfg).

(** [ClassifyGenreOutput.model_validate_json] *)
Definition classify_validate_json (json_data : string) : Parsed ClassifyGenreOutput :=
  match base_validate_json json_data with
  | Valid s => check_genre s
  | ValueError e => ValueError e
  end.

#[local] Instance classify_format : JsonOutputFormat ClassifyGenreOutput := {
  fields := [("reason", "str"); ("fundamental_genre", "str")];
  model_validate_json := classify_validate_json
}.

(** The first user message of an item's conversation. *)
Definition task_text (fundamental_genres : list string) (genre : string) : string :=
  let nl := String PyStr.newline "" in
  "You are tasked with classifying sub-genres of music into their respective fundamental genres."
  +:+ nl +:+ nl +:+ "Here is a list of the fundamental genres:" +:+ nl
  +:+ Json.dumps_list_indent2 fundamental_genres +:+ nl +:+ nl
  +:+ "You must first give your reasoning for why the sub-genre belongs to the fundamental genre."
  +:+ nl +:+ nl
  +:+ "Then, you must output the exact fundamental genre that the sub-genre belongs to. "
  +:+ "Do not change case or spelling."
  +:+ nl +:+ nl
  +:+ "Classify the sub-genre: " +:+ String PyStr.dquote genre +:+ String PyStr.dquote "".

Definition new_prompt (fundamental_genres : list string) (genre : string)
    : JsonPrompt ClassifyGenreOutput :=
  {| output_format := model_construct;
     system_prompt := Some "";
     msgs := [ {| role := user; content := task_text fundamental_genres genre |} ] |}.

(** The [for] loop of [classify_genres]: [classifed] is the dict built so
    far, [served] the requests made so far. *)
Fixpoint classify_loop (llm : LLMConnector) (fundamental_genres : list string)
    (items : list string) (classifed : gmap string (option string))
    (served : list Request)
    : Outcome (gmap string (option string)) * list Request :=
  match items with
  | [] => (Returned classifed, served)
  | genre :: rest =>
      let prompt := new_prompt fundamental_genres genre in
      match json_prompt (depth_for default_max_tries) llm prompt default_max_tries served with
      | (Returned None, _, served') =>
          classify_loop llm fundamental_genres rest (<[genre := None]> classifed) served'
      | (Returned (Some output), _, served') =>
          classify_loop llm fundamental_genres rest
            (<[genre := Some (fundamental_genre output)]> classifed) served'
      | (Raised e, _, served') => (Raised e, served')
      | (OutOfFuel, _, served') => (OutOfFuel, served')
      end
  end.

(** [classify_genres] *)
Definition classify_genres (all_genres fundamental_genres : list string)
    (llm : LLMConnector) (served : list Request)
    : Outcome (gmap string (option string)) * list Request :=
  classify_loop llm fundamental_genres all_genres ∅ served.

(** One extraction, as the loop runs it: a prompt of the item's own and the
    default budget. *)
Definition extract_genre (llm : LLMConnector) (fundamental_genres : list string)
    (genre : string) (served : list Request)
    : Outcome (option ClassifyGenreOutput) * JsonPrompt ClassifyGenreOutput * list Request :=
  json_prompt (depth_for default_max_tries) llm
    (new_prompt fundamental_genres genre) default_max_tries served.

(** [extractions llm fgs items served entries served']: the items are
    extracted one after the other, the first with [served] already sent and
    each later one with the requests made up to it; every extraction
    returns; [entries] pairs each item with what its own extraction gave
    ([None], or the label of the record), and [served'] are the requests
    made by the end. *)
Inductive extractions (llm : LLMConnector) (fundamental_genres : list string)
  : list string → list Request → list (string * option string) → list Request → Prop :=
| extractions_nil served : extractions llm fundamental_genres [] served [] served
| extractions_cons genre rest served o p' served1 entries served' :
    extract_genre llm fundamental_genres genre served = (Returned o, p', served1) →
    extractions llm fundamental_genres rest served1 entries served' →
    extractions llm fundamental_genres (genre :: rest) served
      ((genre, fundamental_genre <$> o) :: entries) served'.

(** The dict after the assignments [d[k] = v] for the entries in order; a
    later entry replaces an earlier one with the same key. *)
Definition assign_all (d : gmap string (option string))
    (entries : list (string * option string)) : gmap string (option string) :=
  foldl (λ d e, <[e.1 := e.2]> d) d entries.

(** [own_request llm fgs genre served0 r]: [r] is a request of the
    conversation that the extraction of [genre] holds when it starts with
    [served0] already sent.  It shows the prompt that some number of
    rejected attempts leave from the item's new prompt: the task message of
    [genre], then, for each earlier request of this same conversation, the
    reply the backend gave to it and the correction for the error that
    reply raised. *)
Definition own_request (llm : LLMConnector) (fundamental_genres : list string)
    (genre : string) (served0 : list Request) (r : Request) : Prop :=
  ∃ k p served,
    rejected llm k (new_prompt fundamental_genres genre) served0 p served
    ∧ r = request llm p.

(** [conversations llm fgs items served sent]: the requests [sent] after
    [served] split into one run per item, in the order of the items (the
    run is empty for an item the loop did not reach), and every request of
    a run is a request of that item's own conversation. *)
Inductive conversations (llm : LLMConnector) (fundamental_genres : list string)
  : list string → list Request → list Request → Prop :=
| conversations_nil served : conversations llm fundamental_genres [] served []
| conversations_cons genre rest served run sent :
    Forall (own_request llm fundamental_genres genre served) run →
    conversations llm fundamental_genres rest (served ++ run) sent →
    conversations llm fundamental_genres (genre :: rest) served (run ++ sent).

End Classify.

(** ** Loading the streaming history ([persistence.py]) *)

Module Persistence.

(** [datetime.datetime], as far as comparisons see it.  A value read from
    a timestamp that states its UTC offset is offset-aware, and [instant] is
    its place on the UTC time line, in microseconds; a value read from a
    timestamp without an offset is offset-naive, and [instant] is its wall
    clock time.  Two aware values with the same instant compare equal
    whatever their offsets, and are not told apart here. *)
Record datetime := { instant : Z; aware : bool }.

#[global] Instance datetime_eq_dec : EqDecision datetime.
Proof. solve_decision. Defined.

(** an aware value, and a naive one *)
Definition utc (t : Z) : datetime := {| instant := t; aware := true |}.
Definition naive (t : Z) : datetime := {| instant := t; aware := false |}.

(** [a < b]: between an offset-naive and an offset-aware value the
    comparison raises [TypeError]. *)
Definition datetime_lt (a b : datetime) : option bool :=
  if Bool.eqb (aware a) (aware b) then Some (instant a <? instant b) else None.

(** [a] is not later than [b]. *)
Definition datetime_le (a b : datetime) : Prop := instant a ≤ instant b.

Definition cannot_compare : string :=
  "can't compare offset-naive and offset-aware datetimes".

(** [SpotifySongSpan] *)
Record SpotifySongSpan := {
  ts : datetime;
  platform : string;
  ms_played : Z;
  conn_country : string;
  ip_addr : option string;
  master_metadata_track_name : option string;
  master_metadata_album_artist_name : option string;
  master_metadata_album_album_name : option string;
  spotify_track_uri : option string;
  episode_name : option string;
  episode_show_name : option string;
  spotify_episode_uri : option string;
  reason_start : option string;
  reason_end : option string;
  shuffle : bool;
  skipped : option bool;
  offline : option bool;
  offline_timestamp : option Z;
  incognito_mode : bool
}.

(** What reading one directory entry gives: the records of the file, or
    the error raised by [open], [json.load] or the record constructor. *)
Inductive FileData :=
| Records (data : list SpotifySongSpan)
| Unreadable (err : string).

(** A directory as [os.listdir] returns it: entries in arbitrary order. *)
Record DirEntry := { name : string; data : FileData }.

Section Sort.
Context {A : Type} (key : A → Z).

Fixpoint insert_by (x : A) (l : list A) : list A :=
  match l with
  | [] => [x]
  | y :: l' => if key x <=? key y then x :: l else y :: insert_by x l'
  end.

(** The stable sort of [l] by an integer [key]. *)
Fixpoint sort_by (l : list A) : list A :=
  match l with
  | [] => []
  | x :: l' => insert_by x (sort_by l')
  end.
End Sort.

(** [songs.sort(key=lambda x: x.ts)].  The sort compares keys with [<]
    only and is stable; a comparison that raises ends it, which [None]
    stands for.  [insert_ts x l] places [x], which came before the records
    of [l], in the sorted [l]. *)
Fixpoint insert_ts (x : SpotifySongSpan) (l : list SpotifySongSpan)
    : option (list SpotifySongSpan) :=
  match l with
  | [] => Some [x]
  | y :: l' =>
      match datetime_lt (ts y) (ts x) with
      | None => None
      | Some true => cons y <$> insert_ts x l'
      | Some false => Some (x :: l)
      end
  end.

Fixpoint sort_ts (l : list SpotifySongSpan) : option (list SpotifySongSpan) :=
  match l with
  | [] => Some []
  | x :: l' => sort_ts l' ≫= insert_ts x
  end.

(** The instant of a record, and records whose timestamps can all be
    compared with one another: all aware, or all naive. *)
Definition ts_instant (s : SpotifySongSpan) : Z := instant (ts s).

Definition comparable (songs : list SpotifySongSpan) : Prop :=
  ∀ a b, a ∈ songs → b ∈ songs → aware (ts a) = aware (ts b).

(** The [for] loop of [load_history]. *)
Fixpoint load_files (files : list DirEntry) (songs : list SpotifySongSpan)
    : Outcome (list SpotifySongSpan) :=
  match files with
  | [] => Returned songs
  | f :: rest =>
      match data f with
      | Records d => load_files rest (songs ++ d)
      | Unreadable err => Raised (LoadError err)
      end
  end.

(** The entries [load_history] opens, and the records of an entry. *)
Definition json_files (dir : list DirEntry) : list DirEntry :=
  filter (λ f, PyStr.endswith ".json" (name f) = true) dir.

Definition records (f : DirEntry) : list SpotifySongSpan :=
  match data f with
  | Records d => d
  | Unreadable _ => []
  end.

Definition readable (f : DirEntry) : Prop := ∃ d, data f = Records d.

(** [a] is not later than [b]. *)
Definition ts_le (a b : SpotifySongSpan) : Prop := datetime_le (ts a) (ts b).

(** [SpotifySongSpan.load_history] *)
Definition load_history (dir : list DirEntry) : Outcome (list SpotifySongSpan) :=
  let files := filter (λ f, PyStr.endswith ".json" (name f) = true) dir in
  match load_files files [] with
  | Returned songs =>
      match sort_ts songs with
      | Some songs => Returned songs
      | None => Raised (TypeError cannot_compare)
      end
  | Raised e => Raised e
  | OutOfFuel => OutOfFuel
  end.

End Persistence.

(** ** Sample collaborators, used to run the model on concrete inputs *)

Module Sample.

(** A reader for flat JSON objects whose members are strings, standing for
    pydantic's validation of the two-field schema in the examples. *)
Fixpoint skip_ws (s : string) : string :=
  match s with
  | String c s' => if Ascii.is_space c then skip_ws s' else s
  | EmptyString => s
  end.

(** the text of a string literal whose opening quote has been read, and
    what follows its closing quote *)
Fixpoint read_chars (s : string) : option (string * string) :=
  match s with
  | EmptyString => None
  | String c s' =>
      if Ascii.eqb c PyStr.dquote then Some (EmptyString, s')
      else if Ascii.eqb c PyStr.backslash then
        match s' with
        | String e s'' =>
            (if Ascii.eqb e PyStr.dquote || Ascii.eqb e PyStr.backslash || Ascii.eqb e "/"
             then Some e
             else if Ascii.eqb e "n" then Some PyStr.newline
             else if Ascii.eqb e "t" then Some "009"%char
             else None)
            ≫= λ d, prod_map (String d) id <$> read_chars s''
        | EmptyString => None
        end
      else prod_map (String c) id <$> read_chars s'
  end.

Definition read_string (s : string) : option (string * string) :=
  match skip_ws s with
  | String c s' => if Ascii.eqb c PyStr.dquote then read_chars s' else None
  | EmptyString => None
  end.

Definition expect (c : ascii) (s : string) : option string :=
  match skip_ws s with
  | String d s' => if Ascii.eqb c d then Some s' else None
  | EmptyString => None
  end.

Fixpoint read_members (fuel : nat) (s : string) (acc : list (string * string))
    : option (list (string * string)) :=
  match fuel with
  | O => None
  | S fuel' =>
      '(k, s1) ← read_string s;
      s2 ← expect ":" s1;
      '(v, s3) ← read_string s2;
      match skip_ws s3 with
      | String c s4 =>
          if Ascii.eqb c "," then read_members fuel' s4 (acc ++ [(k, v)])
          else if Ascii.eqb c "}" then
            match skip_ws s4 with
            | EmptyString => Some (acc ++ [(k, v)])
            | _ => None
            end
          else None
      | EmptyString => None
      end
  end.

(** the value of the last member named [k] *)
Definition member (k : string) (ms : list (string * string)) : option string :=
  snd <$> last (filter (λ m, m.1 = k) ms).

Definition validate_json (json_data : string) : Parsed ClassifyGenreOutput :=
  match expect "{" json_data ≫= λ s, read_members (String.length s) s [] with
  | None => ValueError "1 validation error for ClassifyGenreOutput: Invalid JSON"
  | Some ms =>
      match member "reason" ms, member "fundamental_genre" ms with
      | Some r, Some g => Valid {| reason := r; fundamental_genre := g |}
      | _, _ => ValueError "1 validation error for ClassifyGenreOutput: Field required"
      end
  end.

Definition cfg_with (labels : list string) : Config :=
  {| spotify_data_dir := "data"; db_fp := "wrapped.db";
     ollama_model := "llama3"; ollama_host := "http://localhost:11434";
     classified_genres_fp := "classified.json";
     fundamental_genres := labels |}.

Definition cfg : Config := cfg_with ["rock"; "pop"].

Definition format : JsonOutputFormat ClassifyGenreOutput :=
  classify_format cfg validate_json.

(** A backend that answers the n-th request with the n-th entry of a
    script, and with [fallback] once the script is used up. *)
Definition scripted (script : list ChatReply) (fallback : ChatReply) : Client :=
  λ served _, default fallback (script !! length served).

Definition llm (script : list ChatReply) (fallback : ChatReply) : LLMConnector :=
  {| cli := scripted script fallback; model := ollama_model cfg |}.

(** [{"reason": r, "fundamental_genre": g}] *)
Definition answer (r g : string) : string :=
  Json.dumps_dict [("reason", r); ("fundamental_genre", g)].

Definition span (t : Z) (track : string) : Persistence.SpotifySongSpan :=
  {| Persistence.ts := Persistence.utc t; Persistence.platform := "linux";
     Persistence.ms_played := 1000; Persistence.conn_country := "NZ";
     Persistence.ip_addr := None;
     Persistence.master_metadata_track_name := Some track;
     Persistence.master_metadata_album_artist_name := None;
     Persistence.master_metadata_album_album_name := None;
     Persistence.spotify_track_uri := None;
     Persistence.episode_name := None; Persistence.episode_show_name := None;
     Persistence.spotify_episode_uri := None;
     Persistence.reason_start := None; Persistence.reason_end := None;
     Persistence.shuffle := false; Persistence.skipped := None;
     Persistence.offline := None; Persistence.offline_timestamp := None;
     Persistence.incognito_mode := false |}.

Definition dir : list Persistence.DirEntry :=
  [ {| Persistence.name := "Streaming_History_Audio_2023.json";
       Persistence.data := Persistence.Records [span 30 "c"; span 10 "a"] |};
    {| Persistence.name := "ReadMeFirst.pdf";
       Persistence.data := Persistence.Unreadable "not JSON" |};
    {| Persistence.name := "Streaming_History_Audio_2022.json";
       Persistence.data := Persistence.Records [span 20 "b"; span 10 "d"] |} ].

(** the same record with a timestamp that states no offset *)
Definition span_naive (t : Z) (track : string) : Persistence.SpotifySongSpan :=
  {| Persistence.ts := Persistence.naive t;
     Persistence.platform := Persistence.platform (span t track);
     Persistence.ms_played := Persistence.ms_played (span t track);
     Persistence.conn_country := Persistence.conn_country (span t track);
     Persistence.ip_addr := None;
     Persistence.master_metadata_track_name := Some track;
     Persistence.master_metadata_album_artist_name := None;
     Persistence.master_metadata_album_album_name := None;
     Persistence.spotify_track_uri := None;
     Persistence.episode_name := None; Persistence.episode_show_name := None;
     Persistence.spotify_episode_uri := None;
     Persistence.reason_start := None; Persistence.reason_end := None;
     Persistence.shuffle := false; Persistence.skipped := None;
     Persistence.offline := None; Persistence.offline_timestamp := None;
     Persistence.incognito_mode := false |}.

(** a directory whose two files are readable, one written with offsets and
    one without *)
Definition mixed_dir : list Persistence.DirEntry :=
  [ {| Persistence.name := "Streaming_History_Audio_2023.json";
       Persistence.data := Persistence.Records [span 30 "c"; span 10 "a"] |};
    {| Persistence.name := "Streaming_History_Audio_2022.json";
       Persistence.data := Persistence.Records [span_naive 20 "b"] |} ].

End Sample.

(** ** More Python primitives: [split], [join], [range], slices *)

Module PyText.

(** [s.split(sep)] for a separator of one character: the pieces between the
    occurrences of [sep], empty pieces included; never an empty list. *)
Fixpoint split (sep : ascii) (s : string) : list string :=
  match s with
  | EmptyString => [EmptyString]
  | String c s' =>
      if Ascii.eqb c sep then EmptyString :: split sep s'
      else match split sep s' with
           | piece :: pieces => String c piece :: pieces
           | [] => [String c EmptyString]
           end
  end.

(** [sep.join(l)] *)
Fixpoint join (sep : string) (l : list string) : string :=
  match l with
  | [] => EmptyString
  | [x] => x
  | x :: l' => x +:+ sep +:+ join sep l'
  end.

End PyText.

(** Exceptions of the persistence layer, and the result of a call that may
    raise one. *)
Inductive PyError :=
| AssertionError
| IndexError
| IntegrityError
| StepZero                (* [ValueError: range() arg 3 must not be zero] *)
| OverflowError           (* [Python int too large to convert to SQLite INTEGER] *)
| OperationalError        (* [database or disk is full]: no row id is left *)
| Failed (e : Exn).

Inductive Try (A : Type) :=
| Ok (a : A)
| Err (e : PyError).
Arguments Ok {A} a.
Arguments Err {A} e.

Definition try_bind {A B : Type} (x : Try A) (f : A → Try B) : Try B :=
  match x with
  | Ok a => f a
  | Err e => Err e
  end.

Notation "x ←? y ; z" := (try_bind y (λ x, z))
  (at level 20, y at level 100, z at level 200, only parsing, right associativity).

(** [[f(x) for x in l]] when [f] may raise: the first error ends the loop. *)
Fixpoint try_map {A B : Type} (f : A → Try B) (l : list A) : Try (list B) :=
  match l with
  | [] => Ok []
  | x :: l' => y ←? f x; ys ←? try_map f l'; Ok (y :: ys)
  end.

Module PyList.

(** [l[-1]] *)
Definition index_last {A : Type} (l : list A) : Try A :=
  match last l with
  | Some x => Ok x
  | None => Err IndexError
  end.

(** The position a slice bound [k] stands for in a list of length [len]: a
    negative bound counts from the end, and bounds are clamped. *)
Definition clamp (len k : Z) : Z :=
  if k <? 0 then Z.max 0 (k + len) else Z.min k len.

(** [l[i:j]] *)
Definition slice {A : Type} (l : list A) (i j : Z) : list A :=
  let len := Z.of_nat (length l) in
  take (Z.to_nat (clamp len j - clamp len i)) (drop (Z.to_nat (clamp len i)) l).

(** [range(start, stop, step)] *)
Definition range (start stop step : Z) : Try (list Z) :=
  if step =? 0 then Err StepZero
  else
    let count :=
      if 0 <? step then (stop - start + step - 1) `div` step
      else (start - stop - step - 1) `div` (- step) in
    Ok ((λ k, start + Z.of_nat k * step) <$> seq 0 (Z.to_nat count)).

(** A [dict] in insertion order: assigning to a key that is present keeps
    its position and replaces its value. *)
Fixpoint dict_set {K V : Type} `{EqDecision K} (k : K) (v : V) (d : list (K * V))
    : list (K * V) :=
  match d with
  | [] => [(k, v)]
  | (k', v') :: d' =>
      if decide (k = k') then (k, v) :: d' else (k', v') :: dict_set k v d'
  end.

End PyList.

(** ** Prompt editing ([JsonPrompt.add_to_last]) *)

(** [self.msgs[-1]["content"] += content]; [IndexError] on an empty
    conversation. *)
Definition add_to_last {T : Type} (self : JsonPrompt T) (text : string)
    : option (JsonPrompt T) :=
  match last (msgs self) with
  | None => None
  | Some m =>
      Some {| output_format := output_format self;
              system_prompt := system_prompt self;
              msgs := removelast (msgs self)
                      ++ [ {| role := role m; content := content m +:+ text |} ] |}
  end.

(** A request of the conversation that opened with the user message [task]:
    sent to the connector's model, it shows the system message, then [task],
    then only assistant and user messages. *)
Definition request_for {T : Type} `{fmt : JsonOutputFormat T} (llm : LLMConnector)
    (task : string) (r : Request) : Prop :=
  req_model r = model llm
  ∧ ∃ shown,
      req_messages r
      = {| role := system; content := system_msg |}
        :: {| role := user; content := task |} :: shown
      ∧ Forall (λ m, role m = assistant ∨ role m = user) shown.

(** ** The database ([persistence.py]) *)

Module Store.
Import Persistence.

(** [SpotifySongSpan.valid_span]; [ts] and [ms_played] are never [None]. *)
Definition valid_span (self : SpotifySongSpan) : bool :=
  bool_decide (is_Some (spotify_track_uri self))
  && bool_decide (is_Some (master_metadata_track_name self))
  && bool_decide (is_Some (master_metadata_album_artist_name self))
  && bool_decide (is_Some (master_metadata_album_album_name self))
  && true && true.

Record DBSong := {
  track_id : string;
  track_name : string;
  album_artist_name : string;
  album_name : string
}.

Record DBPlay := {
  play_id : option Z;
  play_ts : datetime;
  play_track_id : string;
  play_ms_played : Z
}.

Record DBInfo := { hash_id : Z; last_dir_hash : string }.

(** [DBSong.from_spotify_song_span] *)
Definition DBSong_from_spotify_song_span (s : SpotifySongSpan) : Try DBSong :=
  match spotify_track_uri s, master_metadata_track_name s,
        master_metadata_album_artist_name s, master_metadata_album_album_name s with
  | Some uri, Some name, Some artist, Some album =>
      id ←? PyList.index_last (PyText.split ":" uri);
      Ok {| track_id := id; track_name := name;
            album_artist_name := artist; album_name := album |}
  | _, _, _, _ => Err AssertionError
  end.

(** [DBPlay.from_spotify_song_span] *)
Definition DBPlay_from_spotify_song_span (s : SpotifySongSpan) : Try DBPlay :=
  match spotify_track_uri s with
  | Some uri =>
      id ←? PyList.index_last (PyText.split ":" uri);
      Ok {| play_id := None; play_ts := ts s;
            play_track_id := id; play_ms_played := ms_played s |}
  | None => Err AssertionError
  end.

Record DBSpotipySong := {
  sp_track_id : string;
  sp_track_name : string;
  explicit : bool;
  duration_ms : Z;
  album_id : string;
  artist_ids_csv : string
}.

(** [DBSpotipySong.get_all_artist_ids], on the rows of [spotipy_songs];
    [list(set(...))] gives the distinct ids in no particular order. *)
Definition get_all_artist_ids (rows : list DBSpotipySong) : list string :=
  let artist_csvs := artist_ids_csv <$> rows in
  elements (list_to_set (C := gset string)
              (csv ← artist_csvs; PyText.split "," csv)).

Record DBSpotipyAlbum := {
  al_album_id : string;
  al_album_name : string;
  release_date : string;
  total_tracks : Z
}.

Record DBSpotipyArtist := {
  ar_artist_id : string;
  ar_artist_name : string;
  genres_csv : string;
  popularity : Z;
  followers : Z
}.

(** [INSERT INTO t (...) VALUES (...) ON CONFLICT(key) DO NOTHING], row by
    row: a row whose key is already in the table is skipped. *)
Fixpoint insert_or_ignore {R : Type} (key : R → string) (rows table : list R) : list R :=
  match rows with
  | [] => table
  | r :: rows' =>
      if decide (key r ∈ key <$> table) then insert_or_ignore key rows' table
      else insert_or_ignore key rows' (table ++ [r])
  end.


Definition DBSpotipyAlbum_insert_many (table rows : list DBSpotipyAlbum) :=
  insert_or_ignore al_album_id rows table.

Definition DBSpotipyArtist_insert_many (table rows : list DBSpotipyArtist) :=
  insert_or_ignore ar_artist_id rows table.

(** The committed content of the tables the history sync touches, rows in
    insertion order, with the [AUTOINCREMENT] counters of [plays] and [info]
    (a counter is not reset when rows are deleted).  [other] stands for the
    [spotipy_*] tables. *)
Record DB (O : Type) := {
  songs : list DBSong;
  plays : list DBPlay;
  plays_seq : Z;
  info : list DBInfo;
  info_seq : Z;
  other : O
}.
Arguments songs {O} _.
Arguments plays {O} _.
Arguments plays_seq {O} _.
Arguments info {O} _.
Arguments info_seq {O} _.
Arguments other {O} _.

Section Tables.
Context {O : Type}.

(** [INSERT INTO songs]: [track_id] is the primary key, a second row with
    the same key raises [IntegrityError]. *)
Fixpoint insert_song_rows (rows table : list DBSong) : Try (list DBSong) :=
  match rows with
  | [] => Ok table
  | r :: rows' =>
      if decide (track_id r ∈ track_id <$> table) then Err IntegrityError
      else insert_song_rows rows' (table ++ [r])
  end.

(** [DBSong.insert_many] *)
Definition DBSong_insert_many (db : DB O) (rows : list DBSong) : Try (DB O) :=
  table ←? insert_song_rows rows (songs db);
  Ok {| songs := table; plays := plays db; plays_seq := plays_seq db;
        info := info db; info_seq := info_seq db; other := other db |}.

(** SQLite's [INTEGER] is a signed 64-bit number: binding a Python [int]
    outside its range raises [OverflowError], and an [AUTOINCREMENT] key
    whose counter has reached the largest value has no id left, which fails
    the insert with [OperationalError]. *)
Definition int64_min : Z := - 2 ^ 63.
Definition int64_max : Z := 2 ^ 63 - 1.

Definition fits_int64 (z : Z) : bool := (int64_min <=? z) && (z <=? int64_max).

(** [INSERT INTO plays (ts, track_id, ms_played)], row by row: the values
    are bound, then the row gets the next [play_id]. *)
Fixpoint insert_play_rows (rows table : list DBPlay) (seq : Z)
    : Try (list DBPlay * Z) :=
  match rows with
  | [] => Ok (table, seq)
  | r :: rows' =>
      if negb (fits_int64 (play_ms_played r)) then Err OverflowError
      else if int64_max <=? seq then Err OperationalError
      else
        insert_play_rows rows'
          (table ++ [ {| play_id := Some (seq + 1); play_ts := play_ts r;
                         play_track_id := play_track_id r;
                         play_ms_played := play_ms_played r |} ])
          (seq + 1)
  end.

(** The rows that [insert_play_rows] appends: the given ones, numbered on
    from the counter. *)
Fixpoint numbered (rows : list DBPlay) (ctr : Z) : list DBPlay :=
  match rows with
  | [] => []
  | r :: rows' =>
      {| play_id := Some (ctr + 1); play_ts := play_ts r;
         play_track_id := play_track_id r; play_ms_played := play_ms_played r |}
      :: numbered rows' (ctr + 1)
  end.

(** [DBPlay.insert_many]; nothing is committed when [executemany] raises. *)
Definition DBPlay_insert_many (db : DB O) (rows : list DBPlay) : Try (DB O) :=
  inserted ←? insert_play_rows rows (plays db) (plays_seq db);
  Ok {| songs := songs db; plays := inserted.1; plays_seq := inserted.2;
        info := info db; info_seq := info_seq db; other := other db |}.

(** [SELECT * FROM info ORDER BY hash_id DESC LIMIT 1] *)
Fixpoint latest_info (table : list DBInfo) : option DBInfo :=
  match table with
  | [] => None
  | r :: table' =>
      match latest_info table' with
      | Some r' => if hash_id r' <? hash_id r then Some r else Some r'
      | None => Some r
      end
  end.

(** [DBInfo.get] *)
Definition DBInfo_get (db : DB O) : option DBInfo := latest_info (info db).

(** [DBInfo.insert] *)
Definition DBInfo_insert (db : DB O) (dir_hash : string) : Try (DBInfo * DB O) :=
  if int64_max <=? info_seq db then Err OperationalError
  else
    let row := {| hash_id := info_seq db + 1; last_dir_hash := dir_hash |} in
    Ok (row,
        {| songs := songs db; plays := plays db; plays_seq := plays_seq db;
           info := info db ++ [row]; info_seq := info_seq db + 1; other := other db |}).

(** [db_clear_user_data] *)
Definition db_clear_user_data (db : DB O) : DB O :=
  {| songs := []; plays := []; plays_seq := plays_seq db;
     info := info db; info_seq := info_seq db; other := other db |}.

(** The counters are at least the ids in use, as [AUTOINCREMENT] keeps them. *)
Definition counters_ok (db : DB O) : Prop :=
  Forall (λ r, hash_id r ≤ info_seq db) (info db).

End Tables.

End Store.

(** ** Synchronising the history ([load_data.py]) *)

Module LoadData.
Import Persistence Store.

(** [batch_iter] of [sync_song_artist_album_data], as the list of the
    batches it yields. *)
Definition batch_iter {A : Type} (iterable : list A) (batch_size : Z) : Try (list (list A)) :=
  starts ←? PyList.range 0 (Z.of_nat (length iterable)) batch_size;
  Ok ((λ i, PyList.slice iterable i (i + batch_size)) <$> starts).

Definition BATCH_SIZE : Z := 50.

(** [list(set(known) - set(existing))]: the ids to fetch, in no particular
    order. *)
Definition new_ids (known existing : list string) : list string :=
  elements (list_to_set (C := gset string) known ∖ list_to_set existing).

(** The id lists that the fetch loops pass to [sp.tracks] and [sp.artists],
    call by call. *)
Definition request_batches (known existing : list string) : Try (list (list string)) :=
  batch_iter (new_ids known existing) BATCH_SIZE.

(** What the code reads of a track that [sp.tracks] returns. *)
Record Track := {
  id : string;
  name : string;
  track_explicit : bool;
  track_duration_ms : Z;
  track_album_id : string;
  artists : list string       (* the ['id'] of every entry of ['artists'] *)
}.

(** The [DBSpotipySong] built for a track in [fetch_spotipy_songs_data]. *)
Definition song_of_track (track : Track) : DBSpotipySong :=
  {| sp_track_id := id track;
     sp_track_name := name track;
     explicit := track_explicit track;
     duration_ms := track_duration_ms track;
     album_id := track_album_id track;
     artist_ids_csv := PyText.join "," (artists track) |}.

(** [{s.spotify_track_uri: DBSong.from_spotify_song_span(s) for s in spans}] *)
Fixpoint songs_dict (spans : list SpotifySongSpan) (d : list (option string * DBSong))
    : Try (list (option string * DBSong)) :=
  match spans with
  | [] => Ok d
  | s :: spans' =>
      song ←? DBSong_from_spotify_song_span s;
      songs_dict spans' (PyList.dict_set (spotify_track_uri s) song d)
  end.

(** What the dict comprehension has built once the spans [seen] are done. *)
Definition dict_of (seen : list SpotifySongSpan) (d : list (option string * DBSong)) : Prop :=
  NoDup d.*1
  ∧ (∀ k song, (k, song) ∈ d →
       ∃ s, s ∈ seen ∧ spotify_track_uri s = k
            ∧ DBSong_from_spotify_song_span s = Ok song)
  ∧ (∀ s, s ∈ seen → spotify_track_uri s ∈ d.*1).

(** [db_hash is not None and curr_hash == db_hash.last_dir_hash] *)
Definition unchanged (db_hash : option DBInfo) (curr_hash : string) : bool :=
  match db_hash with
  | Some h => bool_decide (curr_hash = last_dir_hash h)
  | None => false
  end.

(** [sync_spotify_data_to_db] after its early return: the tables are cleared
    and filled again from the history.  The clearing and each of the three
    inserts commit on their own, so a call that raises leaves the database
    as the last commit before the exception left it.  ([load_history] has
    no recursion budget; its third outcome does not occur.) *)
Definition resync {O : Type} (db : DB O) (curr_hash : string)
    (data_dir : list DirEntry) : option PyError * DB O :=
  let db := db_clear_user_data db in
  match load_history data_dir with
  | Raised e => (Some (Failed e), db)
  | OutOfFuel => (Some (Failed (LoadError "")), db)
  | Returned spans =>
      let filtered_spans := filter (λ s, valid_span s = true) spans in
      match songs_dict filtered_spans [] with
      | Err e => (Some e, db)
      | Ok songs =>
          match try_map DBPlay_from_spotify_song_span filtered_spans with
          | Err e => (Some e, db)
          | Ok plays =>
              match DBSong_insert_many db (songs.*2) with
              | Err e => (Some e, db)
              | Ok db =>
                  match DBPlay_insert_many db plays with
                  | Err e => (Some e, db)
                  | Ok db =>
                      match DBInfo_insert db curr_hash with
                      | Err e => (Some e, db)
                      | Ok inserted => (None, inserted.2)
                      end
                  end
              end
          end
      end
  end.

(** The database after the songs [rows] were committed to cleared tables,
    and after the plays [plays0] were committed as well. *)
Definition with_songs {O : Type} (db : DB O) (rows : list DBSong) : DB O :=
  {| songs := rows; plays := []; plays_seq := plays_seq db;
     info := info db; info_seq := info_seq db; other := other db |}.

Definition with_plays {O : Type} (db : DB O) (rows : list DBSong)
    (plays0 : list DBPlay) : DB O :=
  {| songs := rows;
     plays := numbered plays0 (plays_seq db);
     plays_seq := plays_seq db + Z.of_nat (length plays0);
     info := info db; info_seq := info_seq db; other := other db |}.

(** Every value to bind fits, and the counter has an id for every row. *)
Definition plays_fit (v : list SpotifySongSpan) : Prop :=
  Forall (λ s, fits_int64 (ms_played s) = true) v.

Definition ids_left (ctr : Z) (n : nat) : Prop :=
  n ≠ 0%nat → ctr + Z.of_nat n ≤ int64_max.

(** The database a completed resync leaves: the songs [rows], the plays
    [plays0] numbered on from the counter, and one more row of [info]. *)
Definition synced {O : Type} (db : DB O) (curr_hash : string)
    (rows : list DBSong) (plays0 : list DBPlay) : DB O :=
  {| songs := rows;
     plays := numbered plays0 (plays_seq db);
     plays_seq := plays_seq db + Z.of_nat (length plays0);
     info := info db ++ [ {| hash_id := info_seq db + 1; last_dir_hash := curr_hash |} ];
     info_seq := info_seq db + 1;
     other := other db |}.

(** Two track URIs with the same last segment are the same URI, among the
    spans [v]. *)
Definition ids_distinct (v : list SpotifySongSpan) : Prop :=
  ∀ s1 s2 u1 u2,
    s1 ∈ v → s2 ∈ v →
    spotify_track_uri s1 = Some u1 → spotify_track_uri s2 = Some u2 →
    PyList.index_last (PyText.split ":" u1) = PyList.index_last (PyText.split ":" u2) →
    u1 = u2.

(** [sync_spotify_data_to_db]; [hashed] is what the call
    [md5_dir(data_dir)] does (the hash it returns or the exception it
    raises), [data_dir] the directory as [load_history] reads it.  The
    result is the committed database the call leaves, with the exception
    that ended it if there was one. *)
Definition sync_spotify_data_to_db {O : Type} (db : DB O) (hashed : Try string)
    (data_dir : list DirEntry) : option PyError * DB O :=
  match hashed with
  | Err e => (Some e, db)
  | Ok curr_hash =>
      let db_hash := DBInfo_get db in
      if unchanged db_hash curr_hash then (None, db)
      else resync db curr_hash data_dir
  end.

End LoadData.

(** ** Hashing the data directory ([persistence.py]) *)

Module Md5.

(** What is below a directory: files with their bytes, directories with
    their entries, and entries that are neither (a broken link, a socket). *)
#[local] Unset Elimination Schemes.
Inductive Node :=
| File (name : string) (content : list ascii)
| Dir (name : string) (entries : list Node)
| Other (name : string).
#[local] Set Elimination Schemes.

Definition node_name (n : Node) : string :=
  match n with
  | File name _ => name
  | Dir name _ => name
  | Other name => name
  end.

(** [name.encode()], for a name of ASCII characters *)
Definition encode (name : string) : list ascii := list_ascii_of_string name.

(** A hash object is described by the bytes it has been fed: successive
    [update] calls amount to one call with the concatenation.

    [for chunk in iter(lambda: f.read(4096), b""): hash.update(chunk)];
    [rest] is what is left to read. *)
Definition chunk_size : nat := 4096.

Fixpoint read_chunks (fuel : nat) (rest hash : list ascii) : list ascii :=
  match fuel with
  | O => hash
  | S fuel' =>
      match take chunk_size rest with
      | [] => hash
      | chunk => read_chunks fuel' (drop chunk_size rest) (hash ++ chunk)
      end
  end.

(** [md5_update_from_file], on the content of the file *)
Definition md5_update_from_file (content hash : list ascii) : list ascii :=
  read_chunks (S (length content)) content hash.

(** [sorted(l, key=key)] for a key that is a [str] *)
Fixpoint insert_by_key {A : Type} (key : A → string) (x : A) (l : list A) : list A :=
  match l with
  | [] => [x]
  | y :: l' => if String.leb (key x) (key y) then x :: l else y :: insert_by_key key x l'
  end.

Fixpoint sorted_by_key {A : Type} (key : A → string) (l : list A) : list A :=
  match l with
  | [] => []
  | x :: l' => insert_by_key key x (sorted_by_key key l')
  end.

(** The path of the entry [name] of [directory], as [str(path)]. *)
Definition child_path (directory name : string) : string :=
  directory +:+ "/" +:+ name.

(** The bytes that one round of the loop of [md5_update_from_dir] feeds for
    the entry [n] of [directory]: its name, then its content if it is a file,
    or what its own entries feed, in the order of their lower-cased paths, if
    it is a directory. *)
Fixpoint fed (directory : string) (n : Node) : list ascii :=
  encode (node_name n)
  ++ match n with
     | File _ content => md5_update_from_file content []
     | Dir name entries =>
         let path := child_path directory name in
         concat (snd <$> sorted_by_key fst
                   ((λ e, (PyStr.lower (child_path path (node_name e)), fed path e))
                      <$> entries))
     | Other _ => []
     end.

(** [md5_update_from_dir], on the entries of [directory] as [iterdir]
    lists them *)
Definition md5_update_from_dir (directory : string) (entries : list Node)
    (hash : list ascii) : list ascii :=
  hash ++ concat (snd <$> sorted_by_key fst
                    ((λ e, (PyStr.lower (child_path directory (node_name e)),
                            fed directory e)) <$> entries)).

(** [md5_dir]; [hexdigest] is MD5 itself. *)
Definition md5_dir (hexdigest : list ascii → string) (directory : string)
    (entries : list Node) : string :=
  hexdigest (md5_update_from_dir directory entries []).

End Md5.

(** ** More sample data *)

Module Fixtures.

(** a span of a played track *)
Definition played (t : Z) (uri track : string) : Persistence.SpotifySongSpan :=
  {| Persistence.ts := Persistence.utc t; Persistence.platform := "linux";
     Persistence.ms_played := 1000; Persistence.conn_country := "NZ";
     Persistence.ip_addr := None;
     Persistence.master_metadata_track_name := Some track;
     Persistence.master_metadata_album_artist_name := Some "artist";
     Persistence.master_metadata_album_album_name := Some "album";
     Persistence.spotify_track_uri := Some uri;
     Persistence.episode_name := None; Persistence.episode_show_name := None;
     Persistence.spotify_episode_uri := None;
     Persistence.reason_start := None; Persistence.reason_end := None;
     Persistence.shuffle := false; Persistence.skipped := None;
     Persistence.offline := None; Persistence.offline_timestamp := None;
     Persistence.incognito_mode := false |}.

Definition history : list Persistence.DirEntry :=
  [ {| Persistence.name := "Streaming_History_Audio_2023.json";
       Persistence.data := Persistence.Records
         [played 30 "spotify:track:c3" "c"; Sample.span 25 "podcast";
          played 10 "spotify:track:a1" "a"] |};
    {| Persistence.name := "Streaming_History_Audio_2022.json";
       Persistence.data := Persistence.Records
         [played 20 "spotify:track:a1" "a again"] |} ].

(** two URIs that end in the same segment *)
Definition clashing : list Persistence.DirEntry :=
  [ {| Persistence.name := "Streaming_History_Audio_2023.json";
       Persistence.data := Persistence.Records
         [played 10 "spotify:track:a1" "a"; played 20 "spotify:local:a1" "b"] |} ].

Definition empty_db : Store.DB unit :=
  {| Store.songs := []; Store.plays := []; Store.plays_seq := 0;
     Store.info := []; Store.info_seq := 0; Store.other := () |}.

(** a span whose [ms_played] does not fit in 64 bits *)
Definition long_play (t : Z) (uri track : string) : Persistence.SpotifySongSpan :=
  {| Persistence.ts := Persistence.utc t;
     Persistence.platform := Persistence.platform (played t uri track);
     Persistence.ms_played := 2 ^ 63;
     Persistence.conn_country := Persistence.conn_country (played t uri track);
     Persistence.ip_addr := None;
     Persistence.master_metadata_track_name := Some track;
     Persistence.master_metadata_album_artist_name := Some "artist";
     Persistence.master_metadata_album_album_name := Some "album";
     Persistence.spotify_track_uri := Some uri;
     Persistence.episode_name := None; Persistence.episode_show_name := None;
     Persistence.spotify_episode_uri := None;
     Persistence.reason_start := None; Persistence.reason_end := None;
     Persistence.shuffle := false; Persistence.skipped := None;
     Persistence.offline := None; Persistence.offline_timestamp := None;
     Persistence.incognito_mode := false |}.

Definition oversized : list Persistence.DirEntry :=
  [ {| Persistence.name := "Streaming_History_Audio_2024.json";
       Persistence.data := Persistence.Records
         [long_play 10 "spotify:track:a1" "a"] |} ].

(** the database after a first sync recorded the hash [9f3c] *)
Definition synced_db : Store.DB unit :=
  {| Store.songs := []; Store.plays := []; Store.plays_seq := 3;
     Store.info := [ {| Store.hash_id := 1; Store.last_dir_hash := "9f3c" |} ];
     Store.info_seq := 1; Store.other := () |}.


Definition track (i : string) (ids : list string) : LoadData.Track :=
  {| LoadData.id := i; LoadData.name := "t"; LoadData.track_explicit := false;
     LoadData.track_duration_ms := 1; LoadData.track_album_id := "al";
     LoadData.artists := ids |}.

End Fixtures.

(** * Properties *)

Example normalize_ex2 : normalize "R\\&B" = "R&B".
Proof. reflexivity. Qed.

Example search_ex : Re.search "a}b{c{d}e}" = Some "{c{d}".
Proof. reflexivity. Qed.

Example repr_ex : PyStr.repr_list ["rock"; "r&b"] = "['rock', 'r&b']".
Proof. reflexivity. Qed.

Example answer_ex :
  Sample.validate_json (Sample.answer "x" "ROCK")
  = Valid {| reason := "x"; fundamental_genre := "ROCK" |}.
Proof. reflexivity. Qed.


(** ** Strings *)

Section StringFacts.

Lemma app_nil_s (b : string) : "" +:+ b = b.
Proof. reflexivity. Qed.

Lemma app_cons_s (x : ascii) (a b : string) : String x a +:+ b = String x (a +:+ b).
Proof. reflexivity. Qed.

Lemma app_assoc_s (a b c : string) : (a +:+ b) +:+ c = a +:+ b +:+ c.
Proof.
  induction a as [|x a IH]; [done |]. by rewrite !app_cons_s, IH.
Qed.

Lemma app_empty_r (a : string) : a +:+ "" = a.
Proof. induction a as [|x a IH]; [done |]. by rewrite app_cons_s, IH. Qed.

Lemma app_length_s (a b : string) :
  String.length (a +:+ b) = (String.length a + String.length b)%nat.
Proof.
  induction a as [|x a IH]; [done |]. rewrite app_cons_s. simpl. by rewrite IH.
Qed.

Lemma startswith_spec (p s : string) :
  PyStr.startswith p s = true ↔ ∃ post, s = p +:+ post.
Proof.
  revert s. induction p as [|a p IH]; intros s; simpl.
  - split; [eauto | done].
  - destruct s as [|b s].
    + split; [done | intros [post H]; discriminate].
    + destruct (Ascii.eqb_spec a b) as [->|Hne].
      * rewrite IH. split; intros [post H]; exists post.
        -- by rewrite H.
        -- rewrite app_cons_s in H. by injection H.
      * split; [done |]. intros [post H]. rewrite app_cons_s in H.
        injection H. congruence.
Qed.

Lemma contains_spec (sub s : string) :
  PyStr.contains sub s = true ↔ PyStr.occurs_in sub s.
Proof.
  unfold PyStr.occurs_in. induction s as [|c s IH]; simpl.
  - destruct (PyStr.startswith sub "") eqn:E.
    + split; [intros _ | done]. apply startswith_spec in E as [post E].
      by exists "", post.
    + split; [done |]. intros (pre & post & H).
      destruct pre; [|discriminate]. rewrite app_nil_s in H.
      assert (PyStr.startswith sub "" = true) by (apply startswith_spec; eauto).
      congruence.
  - destruct (PyStr.startswith sub (String c s)) eqn:E.
    + split; [intros _ | done]. apply startswith_spec in E as [post E].
      by exists "", post.
    + rewrite IH. split.
      * intros (pre & post & ->). by exists (String c pre), post.
      * intros (pre & post & H). destruct pre as [|d pre].
        -- rewrite app_nil_s in H.
           assert (PyStr.startswith sub (String c s) = true)
             by (apply startswith_spec; eauto). congruence.
        -- rewrite app_cons_s in H. injection H as -> ->. eauto.
Qed.

Lemma occurs_in_app (sub a b c : string) :
  PyStr.occurs_in sub b → PyStr.occurs_in sub (a +:+ b +:+ c).
Proof.
  intros (pre & post & ->). exists (a +:+ pre), (post +:+ c).
  by rewrite !app_assoc_s.
Qed.

Lemma occurs_in_refl (s : string) : PyStr.occurs_in s s.
Proof. exists "", "". by rewrite app_nil_s, app_empty_r. Qed.

End StringFacts.

(** ** Normalisation *)

Section Normalize.

Local Abbreviation esc := "\&".

(** The two equations of [replace] at the pattern [\&]. *)
Lemma replace_hit (s : string) :
  PyStr.replace esc "&" (String PyStr.backslash (String "&" s))
  = String "&" (PyStr.replace esc "&" s).
Proof. reflexivity. Qed.

Lemma replace_miss (c : ascii) (s : string) :
  PyStr.startswith esc (String c s) = false →
  PyStr.replace esc "&" (String c s) = String c (PyStr.replace esc "&" s).
Proof.
  intros H. unfold PyStr.replace. cbn [PyStr.replace_from]. by rewrite H.
Qed.

Lemma startswith_esc (s : string) :
  PyStr.startswith esc s = true → ∃ s', s = String PyStr.backslash (String "&" s').
Proof. intros [post ->]%startswith_spec. by exists post. Qed.

Lemma replace_length (n : nat) (s : string) :
  (String.length s < n)%nat →
  (String.length (PyStr.replace esc "&" s) ≤ String.length s)%nat
  ∧ (PyStr.contains esc s = true →
     (String.length (PyStr.replace esc "&" s) < String.length s)%nat).
Proof.
  revert s. induction n as [|n IH]; intros s Hn; [lia |].
  destruct s as [|c s]; [by split |].
  destruct (PyStr.startswith esc (String c s)) eqn:E.
  - destruct (startswith_esc _ E) as [s' Hs]. rewrite Hs in *.
    rewrite replace_hit. simpl in *.
    destruct (IH s' ltac:(lia)) as [Hle _]. lia.
  - rewrite (replace_miss _ _ E).
    change (PyStr.contains esc (String c s))
      with (if PyStr.startswith esc (String c s) then true else PyStr.contains esc s).
    rewrite E. simpl String.length.
    destruct (IH s ltac:(simpl in Hn; lia)) as [Hle Hlt].
    split; [lia |]. intros H. specialize (Hlt H). lia.
Qed.

Lemma normalize_loop_clean (fuel : nat) (s : string) :
  (String.length s ≤ fuel)%nat →
  PyStr.contains esc (normalize_loop fuel s) = false.
Proof.
  revert s. induction fuel as [|fuel IH]; intros s Hlen.
  - destruct s; [done | simpl in Hlen; lia].
  - cbn [normalize_loop]. destruct (PyStr.contains esc s) eqn:E; [|exact E].
    apply IH. destruct (replace_length (S (String.length s)) s ltac:(lia)) as [_ Hlt].
    specialize (Hlt E). lia.
Qed.

Lemma normalize_loop_id (fuel : nat) (s : string) :
  PyStr.contains esc s = false → normalize_loop fuel s = s.
Proof. intros H. destruct fuel; [done |]. cbn [normalize_loop]. by rewrite H. Qed.

(** One round of [replace] drops escapes only. *)
Lemma drop_escapes_replace (n : nat) (s : string) :
  (String.length s < n)%nat →
  drop_escapes (PyStr.replace esc "&" s) = drop_escapes s.
Proof.
  revert s. induction n as [|n IH]; intros s Hn; [lia |].
  destruct s as [|c s]; [done |].
  destruct (PyStr.startswith esc (String c s)) eqn:E.
  - destruct (startswith_esc _ E) as [s' Hs]. injection Hs as -> ->.
    rewrite replace_hit.
    change (drop_escapes (String "&" (PyStr.replace esc "&" s')))
      with (String "&" (drop_escapes (PyStr.replace esc "&" s'))).
    rewrite IH by (simpl in Hn; lia). reflexivity.
  - rewrite (replace_miss _ _ E). cbn [drop_escapes].
    by rewrite IH by (simpl in Hn; lia).
Qed.

Lemma drop_escapes_id (s : string) :
  PyStr.contains esc s = false → drop_escapes s = s.
Proof.
  induction s as [|c s IH]; [done |].
  change (PyStr.contains esc (String c s))
    with (if PyStr.startswith esc (String c s) then true else PyStr.contains esc s).
  destruct (PyStr.startswith esc (String c s)) eqn:E; [done |].
  intros H. cbn [drop_escapes]. rewrite (IH H).
  destruct (Ascii.eqb_spec c PyStr.backslash) as [->|_]; [|done].
  destruct (PyStr.startswith "&" s) eqn:F; [|done].
  apply startswith_spec in F as [post ->].
  assert (PyStr.startswith esc (String PyStr.backslash ("&" +:+ post)) = true)
    by (apply startswith_spec; by exists post).
  congruence.
Qed.

Lemma normalize_loop_drop (fuel : nat) (s : string) :
  drop_escapes (normalize_loop fuel s) = drop_escapes s.
Proof.
  revert s. induction fuel as [|fuel IH]; intros s; [done |].
  cbn [normalize_loop]. destruct (PyStr.contains esc s); [|done].
  rewrite IH. apply (drop_escapes_replace (S (String.length s))). lia.
Qed.

Lemma normalize_drop_escapes (s : string) : normalize s = drop_escapes s.
Proof.
  rewrite <- (drop_escapes_id (normalize s)) by (by apply normalize_loop_clean).
  apply normalize_loop_drop.
Qed.

Lemma drop_escapes_congr (pre a b : string) :
  drop_escapes a = drop_escapes b →
  drop_escapes (pre +:+ a) = drop_escapes (pre +:+ b).
Proof.
  intros H. induction pre as [|c pre IH]; [by rewrite !app_nil_s |].
  rewrite !app_cons_s. cbn [drop_escapes]. by rewrite IH.
Qed.

Lemma startswith_amp (s : string) :
  PyStr.startswith "&" s = true → ∃ s', s = String "&" s'.
Proof. intros [post ->]%startswith_spec. by exists post. Qed.

(** Only backslashes are dropped. *)
Lemma drop_escapes_keeps (s : string) :
  without_char PyStr.backslash (drop_escapes s) = without_char PyStr.backslash s.
Proof.
  induction s as [|c s IH]; [done |]. cbn [drop_escapes].
  destruct (Ascii.eqb_spec c PyStr.backslash) as [->|Hne]; cbn [andb].
  - destruct (PyStr.startswith "&" (drop_escapes s)).
    + rewrite IH. reflexivity.
    + change (without_char PyStr.backslash (String PyStr.backslash ?x))
        with (without_char PyStr.backslash x). done.
  - cbn [without_char]. by rewrite IH.
Qed.

End Normalize.

(** C5. Normalisation replaces backslash-ampersand by a bare ampersand until
    none is left: [\&\&text\&] becomes [&&text&], the normalised text of
    every response has no backslash-ampersand left, a text without one is
    returned unchanged, and normalising twice is normalising once.  The
    output is fixed by the input, character by character: a character that
    is not a backslash stays in place in front of the normalised rest; a
    backslash is dropped when the normalised rest begins with an ampersand
    and stays otherwise; so every backslash-ampersand of the input counts
    as a bare ampersand, nothing but backslashes is ever removed, and the
    loop computes the one-pass function [drop_escapes]. *)
Theorem normalize_spec :
  normalize "\&\&text\&" = "&&text&"
  ∧ (∀ resp, PyStr.contains "\&" (normalize resp) = false)
  ∧ (∀ resp, ¬ PyStr.occurs_in "\&" (normalize resp))
  ∧ (∀ resp, PyStr.contains "\&" resp = false → normalize resp = resp)
  ∧ (∀ resp, normalize (normalize resp) = normalize resp)
  ∧ (∀ resp, normalize resp = drop_escapes resp)
  ∧ normalize "" = ""
  ∧ (∀ c resp, c ≠ PyStr.backslash →
       normalize (String c resp) = String c (normalize resp))
  ∧ (∀ resp, normalize (String PyStr.backslash resp)
             = if PyStr.startswith "&" (normalize resp) then normalize resp
               else String PyStr.backslash (normalize resp))
  ∧ (∀ pre post, normalize (pre +:+ "\&" +:+ post) = normalize (pre +:+ "&" +:+ post))
  ∧ (∀ resp, normalize ("\&" +:+ resp) = "&" +:+ normalize resp)
  ∧ (∀ resp, without_char PyStr.backslash (normalize resp)
             = without_char PyStr.backslash resp).
Proof.
  assert (Hclean : ∀ resp, PyStr.contains "\&" (normalize resp) = false)
    by (intros resp; by apply normalize_loop_clean).
  split_and!; [done | done | | | | | done | | | | |].
  - intros resp H%contains_spec. by rewrite Hclean in H.
  - intros resp H. by apply normalize_loop_id.
  - intros resp. apply normalize_loop_id, Hclean.
  - apply normalize_drop_escapes.
  - intros c resp Hc. rewrite !normalize_drop_escapes. cbn [drop_escapes].
    by destruct (Ascii.eqb_spec c PyStr.backslash).
  - intros resp. rewrite !normalize_drop_escapes. cbn [drop_escapes].
    by rewrite Ascii.eqb_refl.
  - intros pre post. rewrite !normalize_drop_escapes.
    by apply drop_escapes_congr.
  - intros resp. by rewrite !normalize_drop_escapes.
  - intros resp. rewrite normalize_drop_escapes. apply drop_escapes_keeps.
Qed.

Lemma normalize_spec_witness :
  (PyStr.contains "\&" "R&B, soul" = false ∧ normalize "R&B, soul" = "R&B, soul")
  ∧ ("R" ≠ PyStr.backslash
     ∧ normalize (String "R" "\\&B") = String "R" (normalize "\\&B"))%char.
Proof.
  split; (split; [done |]).
  - apply (proj1 (proj2 (proj2 (proj2 normalize_spec))) "R&B, soul"). reflexivity.
  - apply (proj1 (proj2 (proj2 (proj2 (proj2 (proj2 (proj2 (proj2 normalize_spec))))))) "R"%char "\\&B").
    done.
Defined.

(** ** The candidate span *)

Section Search.

Lemma has_char_app (c : ascii) (a b : string) :
  PyStr.has_char c (a +:+ b) = PyStr.has_char c a || PyStr.has_char c b.
Proof.
  induction a as [|x a IH]; [done |].
  rewrite app_cons_s. simpl. rewrite IH. by rewrite orb_assoc.
Qed.

Lemma body_none (s : string) : Re.body s = None ↔ PyStr.has_char "}" s = false.
Proof.
  induction s as [|c s IH]; cbn [Re.body PyStr.has_char]; [done |].
  rewrite (Ascii.eqb_sym "}" c).
  destruct (Ascii.eqb c "}"); cbn [orb]; [done |].
  rewrite <- IH. destruct (Re.body s); cbn; split; congruence.
Qed.

Lemma has_char_cons_false (c d : ascii) (s : string) :
  PyStr.has_char c (String d s) = false ↔ c ≠ d ∧ PyStr.has_char c s = false.
Proof.
  cbn [PyStr.has_char]. destruct (Ascii.eqb_spec c d); cbn [orb]; intuition congruence.
Qed.

Lemma body_some (s m : string) :
  Re.body s = Some m ↔
  ∃ b post, s = b +:+ String "}" post ∧ PyStr.has_char "}" b = false
            ∧ m = b +:+ "}".
Proof.
  revert m. induction s as [|c s IH]; intros m; cbn [Re.body].
  - split; [done |]. intros (b & post & H & _). by destruct b.
  - destruct (Ascii.eqb_spec c "}") as [->|Hne].
    + split.
      * intros [= <-]. by exists "", s.
      * intros (b & post & H & Hb & ->). destruct b as [|d b]; [done |].
        rewrite app_cons_s in H. injection H as <- _.
        apply has_char_cons_false in Hb as [? _]. done.
    + destruct (Re.body s) as [m'|] eqn:E; cbn [fmap option_fmap option_map].
      * destruct (proj1 (IH m') eq_refl) as (b & post & -> & Hb & ->).
        split.
        -- intros [= <-]. exists (String c b), post. split_and!; [done | | done].
           apply has_char_cons_false. split; [congruence | done].
        -- intros (b' & post' & H & Hb' & ->).
           destruct b' as [|d b'].
           { rewrite app_nil_s in H. injection H. congruence. }
           rewrite app_cons_s in H. injection H as <- H.
           apply has_char_cons_false in Hb' as [_ Hb'].
           rewrite !app_cons_s. do 2 f_equal.
           assert (Some (b +:+ "}") = Some (b' +:+ "}")) as [= ->]; [|done].
           apply IH. eauto.
      * split; [done |]. intros (b' & post' & H & Hb' & ->).
        destruct b' as [|d b'].
        { rewrite app_nil_s in H. injection H. congruence. }
        rewrite app_cons_s in H. injection H as <- H.
        apply has_char_cons_false in Hb' as [_ Hb'].
        assert (None = Some (b' +:+ "}")) by (apply IH; eauto). done.
Qed.

(** [search] finds the span from the first opening brace to the closing
    brace that follows it next. *)
Lemma search_some (s m : string) :
  Re.search s = Some m ↔
  ∃ pre b post, s = pre +:+ String "{" (b +:+ String "}" post)
                ∧ PyStr.has_char "{" pre = false
                ∧ PyStr.has_char "}" b = false
                ∧ m = String "{" (b +:+ "}").
Proof.
  revert m. induction s as [|c s IH]; intros m.
  - cbn. split; [done |]. intros (pre & b & post & H & _). by destruct pre.
  - cbn [Re.search Re.match_here].
    destruct (Ascii.eqb_spec c "{") as [->|Hne].
    + destruct (Re.body s) as [m'|] eqn:E; cbn [fmap option_fmap option_map].
      * apply body_some in E as (b & post & -> & Hb & ->). split.
        -- intros [= <-]. by exists "", b, post.
        -- intros (pre & b' & post' & H & Hpre & Hb' & ->).
           destruct pre as [|d pre].
           ++ rewrite app_nil_s in H. injection H as H. f_equal.
              assert (Re.body (b +:+ String "}" post) = Some (b +:+ "}")) as E1
                by (apply body_some; eauto).
              assert (Re.body (b +:+ String "}" post) = Some (b' +:+ "}")) as E2
                by (rewrite H; apply body_some; eauto).
              congruence.
           ++ rewrite app_cons_s in H. injection H as <- _.
              apply has_char_cons_false in Hpre as [? _]. done.
      * rewrite IH. apply body_none in E. split.
        -- intros (pre & b & post & -> & _). exfalso.
           rewrite has_char_app in E. apply orb_false_elim in E as [_ E].
           apply has_char_cons_false in E as [_ E].
           rewrite has_char_app in E. apply orb_false_elim in E as [_ E].
           apply has_char_cons_false in E as [? _]. done.
        -- intros (pre & b & post & H & Hpre & Hb & ->). exfalso.
           destruct pre as [|d pre].
           ++ rewrite app_nil_s in H. injection H as ->.
              rewrite has_char_app in E. apply orb_false_elim in E as [_ E].
              apply has_char_cons_false in E as [? _]. done.
           ++ rewrite app_cons_s in H. injection H as <- _.
              apply has_char_cons_false in Hpre as [? _]. done.
    + rewrite IH. split.
      * intros (pre & b & post & -> & Hpre & Hb & ->).
        exists (String c pre), b, post. split_and!; try done.
        apply has_char_cons_false. split; [congruence | done].
      * intros (pre & b & post & H & Hpre & Hb & ->).
        destruct pre as [|d pre].
        { rewrite app_nil_s in H. injection H. congruence. }
        rewrite app_cons_s in H. injection H as <- ->.
        apply has_char_cons_false in Hpre as [_ Hpre]. eauto 10.
Qed.

(** [search] finds nothing exactly when no opening brace has a closing
    brace somewhere after it. *)
Lemma search_none (s : string) :
  Re.search s = None ↔
  ¬ ∃ pre mid post, s = pre +:+ String "{" (mid +:+ String "}" post).
Proof.
  induction s as [|c s IH].
  - cbn. split; [|done]. intros _ (pre & mid & post & H). by destruct pre.
  - cbn [Re.search Re.match_here].
    destruct (Ascii.eqb_spec c "{") as [->|Hne].
    + destruct (Re.body s) as [m'|] eqn:E; cbn [fmap option_fmap option_map].
      * split; [done |]. intros H. exfalso. apply H.
        apply body_some in E as (b & post & -> & _). by exists "", b, post.
      * rewrite IH. apply body_none in E. split.
        -- intros _ (pre & mid & post & H). destruct pre as [|d pre].
           ++ rewrite app_nil_s in H. injection H as ->.
              rewrite has_char_app in E. apply orb_false_elim in E as [_ E].
              apply has_char_cons_false in E as [? _]. done.
           ++ rewrite app_cons_s in H. injection H as _ ->.
              rewrite has_char_app in E. apply orb_false_elim in E as [_ E].
              apply has_char_cons_false in E as [_ E].
              rewrite has_char_app in E. apply orb_false_elim in E as [_ E].
              apply has_char_cons_false in E as [? _]. done.
        -- intros H (pre & mid & post & ->). apply H.
           by exists (String "{" pre), mid, post.
    + rewrite IH. split.
      * intros H (pre & mid & post & H'). apply H. destruct pre as [|d pre].
        { rewrite app_nil_s in H'. injection H'. congruence. }
        rewrite app_cons_s in H'. injection H' as _ ->. eauto.
      * intros H (pre & mid & post & ->). apply H.
        by exists (String c pre), mid, post.
Qed.

End Search.

(** ** The retry loop *)

Section ConnectorFacts.

Context {T : Type} `{fmt : JsonOutputFormat T}.
Implicit Types (self : LLMConnector) (p : JsonPrompt T) (served : list Request).

Lemma json_prompt_exhausted fuel self p served :
  json_prompt (S fuel) self p 0 served = (Returned None, p, served).
Proof. reflexivity. Qed.

Lemma json_prompt_reject fuel self p n served resp e :
  n ≠ 0 →
  cli self served (request self p) = Reply resp →
  parse_response resp = ValueError e →
  json_prompt (S fuel) self p n served
  = json_prompt fuel self (add_msg (add_msg p (reply_msg resp)) (correction e))
      (n - 1) (served ++ [request self p]).
Proof.
  intros Hn Hc He. cbn [json_prompt].
  destruct (Z.eqb_spec n 0) as [|_]; [done |].
  fold (request self p). by rewrite Hc, He.
Qed.

Lemma json_prompt_accept fuel self p n served resp out :
  n ≠ 0 →
  cli self served (request self p) = Reply resp →
  parse_response resp = Valid out →
  json_prompt (S fuel) self p n served
  = (Returned (Some out), add_msg p (reply_msg resp), served ++ [request self p]).
Proof.
  intros Hn Hc He. cbn [json_prompt].
  destruct (Z.eqb_spec n 0) as [|_]; [done |].
  fold (request self p). by rewrite Hc, He.
Qed.

Lemma json_prompt_down fuel self p n served err :
  n ≠ 0 →
  cli self served (request self p) = Unreachable err →
  json_prompt (S fuel) self p n served
  = (Raised (TransportError err), p, served ++ [request self p]).
Proof.
  intros Hn Hc. cbn [json_prompt].
  destruct (Z.eqb_spec n 0) as [|_]; [done |].
  fold (request self p). by rewrite Hc.
Qed.

(** [k] rejected attempts are [k] unfoldings of the recursion. *)
Lemma json_prompt_rejected k self p served p' served' :
  rejected self k p served p' served' →
  ∀ fuel n, Z.of_nat k ≤ n →
    json_prompt (k + fuel) self p n served
    = json_prompt fuel self p' (n - Z.of_nat k) served'.
Proof.
  induction 1 as [p served | k p served resp e p' served' Hc He _ IH];
    intros fuel n Hk.
  - cbn [Nat.add]. f_equal. lia.
  - cbn [Nat.add]. rewrite (json_prompt_reject _ _ _ _ _ resp e) by (done || lia).
    rewrite IH by lia. f_equal. lia.
Qed.

(** What [k] rejected attempts append, and what they send. *)
Lemma rejected_appends k self p served p' served' :
  rejected self k p served p' served' →
  ∃ rounds sent,
    msgs p' = msgs p ++ concat (exchange <$> rounds) ∧ length rounds = k
    ∧ served' = served ++ sent ∧ length sent = k
    ∧ output_format p' = output_format p ∧ system_prompt p' = system_prompt p.
Proof.
  induction 1 as [p served | k p served resp e p' served' Hc He _ IH].
  - exists [], []. by rewrite !app_nil_r.
  - destruct IH as (rounds & sent & Hm & Hl & Hs & Hls & Ho & Hsp).
    exists ((resp, e) :: rounds), (request self p :: sent).
    split_and!.
    + rewrite Hm. cbn [add_msg msgs fmap list_fmap concat exchange fst snd].
      by rewrite <- !app_assoc.
    + cbn [length]. lia.
    + rewrite Hs. by rewrite <- app_assoc.
    + cbn [length]. lia.
    + by rewrite Ho.
    + by rewrite Hsp.
Qed.

Lemma exchanges_length (rounds : list (string * string)) :
  length (concat (exchange <$> rounds)) = (2 * length rounds)%nat.
Proof.
  induction rounds as [|r rounds IH]; [done |].
  cbn [fmap list_fmap concat exchange length app]. cbn [length] in IH |- *.
  rewrite IH. lia.
Qed.

Lemma exchanges_roles (rounds : list (string * string)) :
  Forall (λ m, role m = assistant ∨ role m = user) (concat (exchange <$> rounds)).
Proof.
  induction rounds as [|r rounds IH]; [constructor |].
  cbn [fmap list_fmap concat exchange app].
  apply Forall_cons; split; [by left |].
  apply Forall_cons; split; [by right | done].
Qed.

Lemma never_valid_rejected self :
  never_valid self → ∀ k p served, ∃ p' served', rejected self k p served p' served'.
Proof.
  intros Hnv k. induction k as [|k IH]; intros p served.
  - exists p, served. constructor.
  - destruct (Hnv served (request self p)) as (resp & e & Hc & He).
    destruct (IH (add_msg (add_msg p (reply_msg resp)) (correction e))
                 (served ++ [request self p])) as (p' & served' & Hr).
    exists p', served'. by econstructor.
Qed.

Lemma correction_quotes (e : string) :
  role (correction e) = user ∧ PyStr.occurs_in e (content (correction e)).
Proof.
  split; [done |]. cbn [correction content].
  apply (occurs_in_app e _ e _), occurs_in_refl.
Qed.

End ConnectorFacts.

(** C1. With budget 0, [json_prompt] returns [None] at once: no request is
    sent and the prompt is untouched.  With a budget [N > 0] and a backend
    none of whose replies validates, exactly [N] requests are sent and then
    [None] is returned. *)
Theorem json_prompt_budget {T : Type} `{fmt : JsonOutputFormat T} (self : LLMConnector) :
  (∀ fuel (p : JsonPrompt T) served,
     json_prompt (S fuel) self p 0 served = (Returned None, p, served))
  ∧ (∀ (N : Z) (p : JsonPrompt T) served fuel,
       0 < N → never_valid self → (depth_for N ≤ fuel)%nat →
       ∃ p' sent,
         json_prompt fuel self p N served = (Returned None, p', served ++ sent)
         ∧ length sent = Z.to_nat N).
Proof.
  split; [done |].
  intros N p served fuel HN Hnv Hfuel.
  destruct (never_valid_rejected self Hnv (Z.to_nat N) p served)
    as (p' & served' & Hr).
  destruct (rejected_appends _ _ _ _ _ _ Hr)
    as (rounds & sent & _ & _ & -> & Hsent & _).
  exists p', sent. split; [|done].
  unfold depth_for in Hfuel.
  replace fuel with (Z.to_nat N + S (fuel - S (Z.to_nat N)))%nat by lia.
  rewrite (json_prompt_rejected _ _ _ _ _ _ Hr) by lia.
  replace (N - Z.of_nat (Z.to_nat N)) with 0 by lia.
  apply json_prompt_exhausted.
Qed.

Lemma json_prompt_budget_witness :
  let self := Sample.llm [] (Reply "I think this is rock.") in
  let p := new_prompt ["rock"; "pop"] "shoegaze" in
  0 < 3 ∧ never_valid (fmt := Sample.format) self ∧ (depth_for 3 ≤ 4)%nat
  ∧ ∃ p' sent,
      json_prompt (fmt := Sample.format) 4 self p 3 [] = (Returned None, p', [] ++ sent)
      ∧ length sent = Z.to_nat 3.
Proof.
  intros self p.
  assert (Hnv : never_valid (fmt := Sample.format) self).
  { intros served req. eexists _, _. split; reflexivity. }
  split_and!; [lia | exact Hnv | unfold depth_for; lia |].
  apply (proj2 (json_prompt_budget (fmt := Sample.format) self) 3 p [] 4%nat);
    [lia | exact Hnv | unfold depth_for; lia].
Defined.

(** C6. The candidate is the text from the first opening brace up to the
    closing brace that follows it next, and it is looked for in the
    normalised reply: the [try] block hands exactly that span to the
    schema's [model_validate_json], whose verdict is the verdict of the
    attempt (the record it accepts is returned, the error it raises is the
    one quoted back on the retry path); nothing before the span and nothing
    after it is validated.  When the normalised reply has no opening brace
    with a closing brace after it, the [try] block fails with a [ValueError]
    and the attempt takes the retry path. *)
Theorem candidate_span {T : Type} `{fmt : JsonOutputFormat T} :
  (∀ text m,
     Re.search text = Some m ↔
     ∃ pre b post, text = pre +:+ String "{" (b +:+ String "}" post)
                   ∧ PyStr.has_char "{" pre = false
                   ∧ PyStr.has_char "}" b = false
                   ∧ m = String "{" (b +:+ "}"))
  ∧ (∀ resp,
       (¬ ∃ pre mid post, normalize resp = pre +:+ String "{" (mid +:+ String "}" post)) →
       parse_response (T := T) resp = ValueError "No JSON found in response.")
  ∧ (∀ fuel self (p : JsonPrompt T) n served resp,
       n ≠ 0 →
       cli self served (request self p) = Reply resp →
       (¬ ∃ pre mid post, normalize resp = pre +:+ String "{" (mid +:+ String "}" post)) →
       json_prompt (S fuel) self p n served
       = json_prompt fuel self
           (add_msg (add_msg p (reply_msg resp)) (correction "No JSON found in response."))
           (n - 1) (served ++ [request self p]))
  ∧ (∀ resp pre b post,
       normalize resp = pre +:+ String "{" (b +:+ String "}" post) →
       PyStr.has_char "{" pre = false →
       PyStr.has_char "}" b = false →
       parse_response (T := T) resp = model_validate_json (String "{" (b +:+ "}")))
  ∧ (∀ resp span,
       Re.search (normalize resp) = Some span →
       parse_response (T := T) resp = model_validate_json span)
  ∧ (∀ fuel self (p : JsonPrompt T) n served resp pre b post out,
       n ≠ 0 →
       cli self served (request self p) = Reply resp →
       normalize resp = pre +:+ String "{" (b +:+ String "}" post) →
       PyStr.has_char "{" pre = false →
       PyStr.has_char "}" b = false →
       model_validate_json (String "{" (b +:+ "}")) = Valid out →
       json_prompt (S fuel) self p n served
       = (Returned (Some out), add_msg p (reply_msg resp), served ++ [request self p]))
  ∧ (∀ fuel self (p : JsonPrompt T) n served resp pre b post e,
       n ≠ 0 →
       cli self served (request self p) = Reply resp →
       normalize resp = pre +:+ String "{" (b +:+ String "}" post) →
       PyStr.has_char "{" pre = false →
       PyStr.has_char "}" b = false →
       model_validate_json (T := T) (String "{" (b +:+ "}")) = ValueError e →
       json_prompt (S fuel) self p n served
       = json_prompt fuel self (add_msg (add_msg p (reply_msg resp)) (correction e))
           (n - 1) (served ++ [request self p])).
Proof.
  assert (Hnone : ∀ resp,
    (¬ ∃ pre mid post, normalize resp = pre +:+ String "{" (mid +:+ String "}" post)) →
    parse_response (T := T) resp = ValueError "No JSON found in response.").
  { intros resp H%search_none. unfold parse_response. by rewrite H. }
  assert (Hsome : ∀ resp pre b post,
    normalize resp = pre +:+ String "{" (b +:+ String "}" post) →
    PyStr.has_char "{" pre = false →
    PyStr.has_char "}" b = false →
    parse_response (T := T) resp = model_validate_json (String "{" (b +:+ "}"))).
  { intros resp pre b post Hr Hpre Hb. unfold parse_response.
    assert (Re.search (normalize resp) = Some (String "{" (b +:+ "}"))) as ->; [|done].
    apply search_some. by exists pre, b, post. }
  split_and!; [apply search_some | exact Hnone | | exact Hsome | | |].
  - intros fuel self p n served resp Hn Hc Hspan.
    by apply json_prompt_reject; [| | apply Hnone].
  - intros resp span H. unfold parse_response. by rewrite H.
  - intros fuel self p n served resp pre b post out Hn Hc Hr Hpre Hb Hv.
    apply (json_prompt_accept _ _ _ _ _ resp); [done | done |].
    by rewrite (Hsome _ _ _ _ Hr Hpre Hb).
  - intros fuel self p n served resp pre b post e Hn Hc Hr Hpre Hb Hv.
    apply json_prompt_reject; [done | done |].
    by rewrite (Hsome _ _ _ _ Hr Hpre Hb).
Qed.

Lemma candidate_span_witness :
  let self := Sample.llm [] (Reply "} it is rock {") in
  let p := new_prompt ["rock"; "pop"] "shoegaze" in
  let resp := "Sure} R\\&B: " +:+ Sample.answer "x{y" "ROCK" +:+ " {or} pop" in
  (parse_response (fmt := Sample.format) "} it is rock {"
   = ValueError "No JSON found in response."
   ∧ json_prompt (fmt := Sample.format) 3 self p 2 []
     = json_prompt (fmt := Sample.format) 2 self
         (add_msg (add_msg p (reply_msg "} it is rock {"))
                  (correction "No JSON found in response."))
         (2 - 1) ([] ++ [request (fmt := Sample.format) self p]))
  ∧ parse_response (fmt := Sample.format) resp
    = Valid {| reason := "x{y"; fundamental_genre := "rock" |}.
Proof.
  intros self p resp.
  assert (Hspan : ¬ ∃ pre mid post,
    normalize "} it is rock {" = pre +:+ String "{" (mid +:+ String "}" post)).
  { apply search_none. reflexivity. }
  split_and!.
  - apply (proj1 (proj2 (candidate_span (fmt := Sample.format)))). exact Hspan.
  - apply (proj1 (proj2 (proj2 (candidate_span (fmt := Sample.format))))
             2%nat self p 2 [] "} it is rock {");
      [lia | reflexivity | exact Hspan].
  - rewrite (proj1 (proj2 (proj2 (proj2 (candidate_span (fmt := Sample.format)))))
               resp "Sure} R&B: "
               (String.substring 1 (String.length (Sample.answer "x{y" "ROCK") - 2)
                  (Sample.answer "x{y" "ROCK"))
               " {or} pop");
      [reflexivity | reflexivity | reflexivity | reflexivity].
Defined.

(** ** The domain check *)

Section GenreCheck.

Variable cfg : Config.

Lemma lower_char_idemp (c : ascii) :
  PyStr.lower_char (PyStr.lower_char c) = PyStr.lower_char c.
Proof. destruct c as [[] [] [] [] [] [] [] []]; reflexivity. Qed.

Lemma lower_idemp (s : string) : PyStr.lower (PyStr.lower s) = PyStr.lower s.
Proof.
  induction s as [|c s IH]; [done |].
  cbn [PyStr.lower]. by rewrite lower_char_idemp, IH.
Qed.

Lemma check_genre_valid (s : ClassifyGenreOutput) :
  PyStr.lower (fundamental_genre s) ∈ fundamental_genres cfg →
  check_genre cfg s = Valid (lowered s).
Proof.
  intros H. unfold check_genre. cbn [fundamental_genre]. by rewrite decide_True.
Qed.

Lemma check_genre_invalid (s : ClassifyGenreOutput) :
  PyStr.lower (fundamental_genre s) ∉ fundamental_genres cfg →
  check_genre cfg s = ValueError (invalid_genre cfg (PyStr.lower (fundamental_genre s))).
Proof.
  intros H. unfold check_genre. cbn [fundamental_genre]. by rewrite decide_False.
Qed.

Lemma check_genre_cases (s : ClassifyGenreOutput) :
  (PyStr.lower (fundamental_genre s) ∈ fundamental_genres cfg
   ∧ check_genre cfg s = Valid (lowered s))
  ∨ ((PyStr.lower (fundamental_genre s) ∉ fundamental_genres cfg)
     ∧ (check_genre cfg s
        = ValueError (invalid_genre cfg (PyStr.lower (fundamental_genre s))))).
Proof.
  destruct (decide (PyStr.lower (fundamental_genre s) ∈ fundamental_genres cfg)).
  - left. split; [done | by apply check_genre_valid].
  - right. split; [done | by apply check_genre_invalid].
Qed.

Lemma invalid_genre_quotes (v : string) : PyStr.occurs_in v (invalid_genre cfg v).
Proof. apply (occurs_in_app v _ v _), occurs_in_refl. Qed.

Lemma occurs_in_trans (a b c : string) :
  PyStr.occurs_in a b → PyStr.occurs_in b c → PyStr.occurs_in a c.
Proof. intros Hab (pre & post & ->). by apply occurs_in_app. Qed.

End GenreCheck.

(** C4 (as the code has it). The check lower-cases the extracted value
    and looks it up in the permitted labels as they are written: it succeeds
    exactly when the lower-cased value is a permitted label, and then returns
    the record with the lower-cased value.  A value that passes differs from
    some permitted label in letter case only; when every permitted label is
    written in lower case the converse holds too.  [ROCK] passes and yields
    [rock] whenever [rock] is permitted. *)
Theorem genre_check_lowercases (cfg : Config)
    (base_validate_json : string → Parsed ClassifyGenreOutput) :
  (∀ s, (∃ s', check_genre cfg s = Valid s')
        ↔ PyStr.lower (fundamental_genre s) ∈ fundamental_genres cfg)
  ∧ (∀ s s', check_genre cfg s = Valid s' →
       s' = {| reason := reason s;
               fundamental_genre := PyStr.lower (fundamental_genre s) |})
  ∧ (∀ json_data s, base_validate_json json_data = Valid s →
       ((∃ s', classify_validate_json cfg base_validate_json json_data = Valid s')
        ↔ PyStr.lower (fundamental_genre s) ∈ fundamental_genres cfg))
  ∧ (∀ s, (∃ s', check_genre cfg s = Valid s') →
       ∃ l, l ∈ fundamental_genres cfg ∧ PyStr.same_modulo_case (fundamental_genre s) l)
  ∧ ((∀ l, l ∈ fundamental_genres cfg → PyStr.lower l = l) →
     ∀ s, (∃ s', check_genre cfg s = Valid s')
          ↔ ∃ l, l ∈ fundamental_genres cfg
                 ∧ PyStr.same_modulo_case (fundamental_genre s) l)
  ∧ ("rock" ∈ fundamental_genres cfg →
     ∀ r, check_genre cfg {| reason := r; fundamental_genre := "ROCK" |}
          = Valid {| reason := r; fundamental_genre := "rock" |}).
Proof.
  assert (Hiff : ∀ s, (∃ s', check_genre cfg s = Valid s')
                      ↔ PyStr.lower (fundamental_genre s) ∈ fundamental_genres cfg).
  { intros s. destruct (check_genre_cases cfg s) as [[Hin ->] | [Hout ->]].
    - split; eauto.
    - split; [by intros [s' ?] | done]. }
  assert (Hsound : ∀ s, (∃ s', check_genre cfg s = Valid s') →
    ∃ l, l ∈ fundamental_genres cfg ∧ PyStr.same_modulo_case (fundamental_genre s) l).
  { intros s Hs%Hiff. exists (PyStr.lower (fundamental_genre s)).
    split; [done |]. unfold PyStr.same_modulo_case. by rewrite lower_idemp. }
  split_and!; [exact Hiff | | | exact Hsound | |].
  - intros s s' H. destruct (check_genre_cases cfg s) as [[_ E] | [_ E]];
      rewrite E in H; [by injection H as <- | done].
  - intros json_data s Hb. unfold classify_validate_json. rewrite Hb. apply Hiff.
  - intros Hlow s. split; [apply Hsound |].
    intros (l & Hl & Hsame). apply Hiff.
    unfold PyStr.same_modulo_case in Hsame. rewrite Hsame, (Hlow l Hl). done.
  - intros Hrock r. by rewrite check_genre_valid.
Qed.

Lemma genre_check_lowercases_witness :
  Sample.validate_json (Sample.answer "x" "Pop")
  = Valid {| reason := "x"; fundamental_genre := "Pop" |}
  ∧ ((∃ s', classify_validate_json Sample.cfg Sample.validate_json
              (Sample.answer "x" "Pop") = Valid s')
     ↔ PyStr.lower "Pop" ∈ fundamental_genres Sample.cfg)
  ∧ check_genre Sample.cfg {| reason := "x"; fundamental_genre := "ROCK" |}
    = Valid {| reason := "x"; fundamental_genre := "rock" |}
  ∧ parse_response (fmt := Sample.format)
      ("blah blah " +:+ Sample.answer "x" "ROCK" +:+ " trailing")
    = Valid {| reason := "x"; fundamental_genre := "rock" |}.
Proof.
  split_and!.
  - reflexivity.
  - apply (proj1 (proj2 (proj2 (genre_check_lowercases Sample.cfg Sample.validate_json)))
             (Sample.answer "x" "Pop") {| reason := "x"; fundamental_genre := "Pop" |}).
    reflexivity.
  - apply (proj2 (proj2 (proj2 (proj2 (proj2
             (genre_check_lowercases Sample.cfg Sample.validate_json)))))).
    apply list_elem_of_In. simpl. by left.
  - reflexivity.
Defined.

(** C4 as stated fails: with the permitted label written [Rock], the value
    [Rock] itself, which differs from it in nothing, is rejected. *)
Lemma genre_check_case_counterexample :
  let cfg := Sample.cfg_with ["Rock"] in
  let s := {| reason := "x"; fundamental_genre := "Rock" |} in
  ¬ ((∃ s', check_genre cfg s = Valid s')
     ↔ ∃ l, l ∈ fundamental_genres cfg ∧ PyStr.same_modulo_case (fundamental_genre s) l).
Proof.
  intros cfg s [_ H].
  destruct H as [s' H]; [|discriminate H].
  exists "Rock". split; [|reflexivity]. apply list_elem_of_In. simpl. by left.
Qed.

(** C7 (as the code has it). A reply that the [try] block rejects with the
    error text [e] makes the attempt append, after the assistant message, one
    user message whose text quotes [e], and go on with the budget lowered by
    one.  When the schema is read but the lower-cased genre is not a permitted
    label, the error text, and so the correction, quotes the value in its
    lower-cased form. *)
Theorem correction_on_failure {T : Type} `{fmt : JsonOutputFormat T} (cfg : Config) :
  (∀ fuel self (p : JsonPrompt T) n served resp e,
     n ≠ 0 →
     cli self served (request self p) = Reply resp →
     parse_response resp = ValueError e →
     ∃ c, json_prompt (S fuel) self p n served
          = json_prompt fuel self
              {| output_format := output_format p;
                 system_prompt := system_prompt p;
                 msgs := msgs p ++ [ {| role := assistant; content := resp |};
                                     {| role := user; content := c |} ] |}
              (n - 1) (served ++ [request self p])
          ∧ PyStr.occurs_in e c)
  ∧ (∀ s, PyStr.lower (fundamental_genre s) ∉ fundamental_genres cfg →
       ∃ e, check_genre cfg s = ValueError e
            ∧ PyStr.occurs_in (PyStr.lower (fundamental_genre s)) e
            ∧ PyStr.occurs_in (PyStr.lower (fundamental_genre s))
                (content (correction e)))
  ∧ (∀ base_validate_json span s,
       base_validate_json span = Valid s →
       PyStr.lower (fundamental_genre s) ∉ fundamental_genres cfg →
       ∃ e, classify_validate_json cfg base_validate_json span = ValueError e
            ∧ PyStr.occurs_in (PyStr.lower (fundamental_genre s))
                (content (correction e))).
Proof.
  assert (Hcheck : ∀ s, PyStr.lower (fundamental_genre s) ∉ fundamental_genres cfg →
    ∃ e, check_genre cfg s = ValueError e
         ∧ PyStr.occurs_in (PyStr.lower (fundamental_genre s)) e
         ∧ PyStr.occurs_in (PyStr.lower (fundamental_genre s)) (content (correction e))).
  { intros s Hs. eexists. split; [by apply check_genre_invalid |].
    split; [apply invalid_genre_quotes |].
    eapply occurs_in_trans; [apply invalid_genre_quotes | apply correction_quotes]. }
  split_and!; [| exact Hcheck |].
  - intros fuel self p n served resp e Hn Hc He.
    exists (content (correction e)). split; [|apply correction_quotes].
    rewrite (json_prompt_reject _ _ _ _ _ resp e) by done.
    unfold add_msg. cbn [msgs output_format system_prompt].
    by rewrite <- app_assoc.
  - intros base span s Hb Hs. destruct (Hcheck s Hs) as (e & He & _ & Hq).
    exists e. split; [|done]. unfold classify_validate_json. by rewrite Hb.
Qed.

Lemma correction_on_failure_witness :
  let s := {| reason := "x"; fundamental_genre := "jazz" |} in
  (PyStr.lower (fundamental_genre s) ∉ fundamental_genres Sample.cfg)
  ∧ Sample.validate_json (Sample.answer "x" "jazz") = Valid s
  ∧ ∃ e, classify_validate_json Sample.cfg Sample.validate_json
           (Sample.answer "x" "jazz") = ValueError e
         ∧ PyStr.occurs_in (PyStr.lower (fundamental_genre s)) (content (correction e)).
Proof.
  intros s.
  assert (Hs : PyStr.lower (fundamental_genre s) ∉ fundamental_genres Sample.cfg).
  { intros H%list_elem_of_In. simpl in H. by destruct H as [H | [H | []]]. }
  split_and!; [exact Hs | reflexivity |].
  apply (proj2 (proj2 (correction_on_failure (fmt := Sample.format) Sample.cfg))
           Sample.validate_json (Sample.answer "x" "jazz") s);
    [reflexivity | exact Hs].
Defined.

(** C7 as stated fails: for the rejected value [JAZZ] the correction quotes
    [jazz]; the text [JAZZ] does not occur in it. *)
Lemma correction_literal_counterexample :
  let s := {| reason := "x"; fundamental_genre := "JAZZ" |} in
  ∃ e, check_genre Sample.cfg s = ValueError e
       ∧ content (correction e)
         = "That did not work. Here is the error I get: `Invalid fundamental genre: jazz. Choose from ['rock', 'pop']`. Please try again."
       ∧ ¬ PyStr.occurs_in (fundamental_genre s) (content (correction e)).
Proof.
  intros s. eexists. split; [reflexivity |]. split; [reflexivity |].
  intros H%contains_spec. discriminate H.
Qed.

(** C8. The conversation only grows by appending: [k] rejected attempts
    append [k] pairs of an assistant message and a user correction, so a
    conversation that started with one message has [1 + 2k] messages after
    them, for every [k] up to the budget [n]; the run then continues from
    that conversation with the budget [n - k]. *)
Theorem conversation_growth {T : Type} `{fmt : JsonOutputFormat T}
    (self : LLMConnector) (k : nat) (p p' : JsonPrompt T) (served served' : list Request) :
  rejected self k p served p' served' →
  (∃ rounds, length rounds = k ∧ msgs p' = msgs p ++ concat (exchange <$> rounds))
  ∧ length (msgs p') = (length (msgs p) + 2 * k)%nat
  ∧ (length (msgs p) = 1%nat → length (msgs p') = (1 + 2 * k)%nat)
  ∧ (∀ fuel n, Z.of_nat k ≤ n →
       json_prompt (k + fuel) self p n served
       = json_prompt fuel self p' (n - Z.of_nat k) served')
  ∧ (∀ fuel, json_prompt (k + S fuel) self p (Z.of_nat k) served
             = (Returned None, p', served')).
Proof.
  intros Hr.
  destruct (rejected_appends _ _ _ _ _ _ Hr) as (rounds & sent & Hm & Hl & _).
  assert (Hlen : length (msgs p') = (length (msgs p) + 2 * k)%nat).
  { rewrite Hm, length_app, exchanges_length, Hl. done. }
  split_and!; [by exists rounds | exact Hlen | intros H1; lia | |].
  - by apply json_prompt_rejected.
  - intros fuel. rewrite (json_prompt_rejected _ _ _ _ _ _ Hr) by lia.
    replace (Z.of_nat k - Z.of_nat k) with 0 by lia.
    apply json_prompt_exhausted.
Qed.

Lemma conversation_growth_witness :
  let self := Sample.llm [Reply "rock!"; Reply (Sample.answer "x" "jazz")] (Reply "") in
  let p := new_prompt ["rock"; "pop"] "shoegaze" in
  ∃ p' served',
    rejected (fmt := Sample.format) self 2 p [] p' served'
    ∧ length (msgs p') = (1 + 2 * 2)%nat.
Proof.
  intros self p. eexists _, _.
  assert (Hr : rejected (fmt := Sample.format) self 2 p []
    (add_msg (add_msg (add_msg (add_msg p
       (reply_msg "rock!")) (correction "No JSON found in response."))
       (reply_msg (Sample.answer "x" "jazz")))
       (correction (invalid_genre Sample.cfg "jazz")))
    ([request (fmt := Sample.format) self p] ++
     [request (fmt := Sample.format) self
        (add_msg (add_msg p (reply_msg "rock!"))
                 (correction "No JSON found in response."))])).
  { eapply rejected_more; [reflexivity | reflexivity |].
    eapply rejected_more; [reflexivity | reflexivity |].
    apply rejected_none. }
  split; [exact Hr |].
  apply (proj1 (proj2 (proj2 (conversation_growth (fmt := Sample.format)
                                self 2 p _ [] _ Hr)))).
  reflexivity.
Defined.

(** ** Rendering *)

Section Render.

Context {T : Type} `{fmt : JsonOutputFormat T}.

(** A run of [json_prompt] only appends assistant and user messages to the
    stored conversation, and every request it sends is the system message
    followed by the conversation stored at that moment. *)
Lemma json_prompt_appends (fuel : nat) :
  ∀ self (p : JsonPrompt T) n served o p' served',
    json_prompt fuel self p n served = (o, p', served') →
    ∃ added sent,
      msgs p' = msgs p ++ added
      ∧ Forall (λ m, role m = assistant ∨ role m = user) added
      ∧ served' = served ++ sent
      ∧ Forall (λ r, ∃ shown, shown `prefix_of` added
                     ∧ req_messages r
                       = {| role := system; content := system_msg |} :: msgs p ++ shown)
               sent
      ∧ output_format p' = output_format p.
Proof.
  induction fuel as [|fuel IH]; intros self p n served o p' served' H.
  - injection H as <- <- <-. exists [], []. by rewrite !app_nil_r.
  - cbn [json_prompt] in H. destruct (Z.eqb_spec n 0) as [->|Hn].
    { injection H as <- <- <-. exists [], []. by rewrite !app_nil_r. }
    fold (request self p) in H.
    assert (Hreq : ∃ shown, shown `prefix_of` ([] : list Message)
                   ∧ req_messages (request self p)
                     = {| role := system; content := system_msg |} :: msgs p ++ shown).
    { exists []. by rewrite app_nil_r. }
    destruct (cli self served (request self p)) as [resp | err].
    + destruct (parse_response resp) as [out | e].
      * injection H as <- <- <-. exists [reply_msg resp], [request self p].
        split_and!; try done.
        -- apply Forall_singleton. by left.
        -- apply Forall_singleton. destruct Hreq as (shown & Hpre & Hshown).
           exists shown. split; [|done].
           etrans; [exact Hpre | apply prefix_nil].
      * apply IH in H as (added & sent & Hm & Hroles & Hs & Hsent & Ho).
        exists (reply_msg resp :: correction e :: added), (request self p :: sent).
        split_and!.
        -- rewrite Hm. cbn [add_msg msgs]. by rewrite <- !app_assoc.
        -- apply Forall_cons; split; [by left |].
           apply Forall_cons; split; [by right | done].
        -- rewrite Hs. by rewrite <- app_assoc.
        -- apply Forall_cons; split.
           ++ exists []. split; [apply prefix_nil | by rewrite app_nil_r].
           ++ eapply Forall_impl; [exact Hsent |].
              intros r (shown & Hpre & Hshown).
              exists (reply_msg resp :: correction e :: shown). split.
              ** by do 2 apply prefix_cons.
              ** rewrite Hshown. cbn [add_msg msgs]. by rewrite <- !app_assoc.
        -- by rewrite Ho.
    + injection H as <- <- <-. exists [], [request self p].
      split_and!; try done.
      * by rewrite app_nil_r.
      * by apply Forall_singleton.
Qed.

End Render.

(** C9. [build_prompt] returns the system message followed by the stored
    conversation.  It reads the conversation and nothing else of the prompt,
    so two renders of the same conversation are equal, and a render after an
    append is the earlier render with the new message at its end.  The system
    message is not stored: what [json_prompt] leaves in the conversation is
    what was there plus assistant and user messages, and each request shows
    the system message once, in front of the conversation stored so far. *)
Theorem build_prompt_frame {T : Type} `{fmt : JsonOutputFormat T} :
  (∀ (p : JsonPrompt T) o,
     build_prompt p o = {| role := system; content := system_msg |} :: msgs p)
  ∧ (∀ (p q : JsonPrompt T) o o', msgs p = msgs q → build_prompt p o = build_prompt q o')
  ∧ (∀ (p : JsonPrompt T) o m, build_prompt (add_msg p m) o = build_prompt p o ++ [m])
  ∧ (∀ fuel self (p : JsonPrompt T) n served o p' served',
       json_prompt fuel self p n served = (o, p', served') →
       ∃ added sent,
         msgs p' = msgs p ++ added
         ∧ Forall (λ m, role m ≠ system) added
         ∧ served' = served ++ sent
         ∧ Forall (λ r, ∃ shown, shown `prefix_of` added
                        ∧ req_messages r
                          = {| role := system; content := system_msg |} :: msgs p ++ shown)
                  sent).
Proof.
  split_and!.
  - done.
  - intros p q o o' H. unfold build_prompt. by rewrite H.
  - done.
  - intros fuel self p n served o p' served' H.
    apply json_prompt_appends in H as (added & sent & Hm & Hroles & Hs & Hsent & _).
    exists added, sent. split_and!; try done.
    eapply Forall_impl; [exact Hroles |]. intros m [-> | ->]; done.
Qed.

Lemma build_prompt_frame_witness :
  let self := Sample.llm [Reply "rock!"; Reply (Sample.answer "x" "Pop")] (Reply "") in
  let p := new_prompt ["rock"; "pop"] "shoegaze" in
  let p' := add_msg (add_msg (add_msg p (reply_msg "rock!"))
                       (correction "No JSON found in response."))
                    (reply_msg (Sample.answer "x" "Pop")) in
  json_prompt (fmt := Sample.format) 21 self p 20 []
  = (Returned (Some {| reason := "x"; fundamental_genre := "pop" |}), p',
     [request (fmt := Sample.format) self p;
      request (fmt := Sample.format) self
        (add_msg (add_msg p (reply_msg "rock!")) (correction "No JSON found in response."))])
  ∧ ∃ added sent,
      msgs p' = msgs p ++ added
      ∧ Forall (λ m, role m ≠ system) added
      ∧ [request (fmt := Sample.format) self p;
         request (fmt := Sample.format) self
           (add_msg (add_msg p (reply_msg "rock!"))
                    (correction "No JSON found in response."))] = [] ++ sent
      ∧ Forall (λ r, ∃ shown, shown `prefix_of` added
                     ∧ req_messages r
                       = {| role := system; content := system_msg (fmt := Sample.format) |}
                         :: msgs p ++ shown)
               sent.
Proof.
  intros self p p'.
  assert (Hrun : json_prompt (fmt := Sample.format) 21 self p 20 []
    = (Returned (Some {| reason := "x"; fundamental_genre := "pop" |}), p',
       [request (fmt := Sample.format) self p;
        request (fmt := Sample.format) self
          (add_msg (add_msg p (reply_msg "rock!"))
                   (correction "No JSON found in response."))])) by reflexivity.
  split; [exact Hrun |].
  exact (proj2 (proj2 (proj2 (build_prompt_frame (fmt := Sample.format))))
           21%nat self p 20 [] _ _ _ Hrun).
Defined.

(** ** The batch loop *)

Section Termination.

Context {T : Type} `{fmt : JsonOutputFormat T}.

(** With a budget that is not negative, [depth_for] is depth enough. *)
Lemma json_prompt_fuel (fuel : nat) :
  ∀ self (p : JsonPrompt T) n served,
    0 ≤ n → (Z.to_nat n < fuel)%nat →
    (json_prompt fuel self p n served).1.1 ≠ OutOfFuel.
Proof.
  induction fuel as [|fuel IH]; intros self p n served Hn Hfuel; [lia |].
  cbn [json_prompt]. destruct (Z.eqb_spec n 0) as [->|Hn0]; [done |].
  destruct (cli self served _) as [resp | err]; [|done].
  destruct (parse_response resp) as [out | e]; [done |].
  apply IH; lia.
Qed.

Lemma json_prompt_returns (fuel : nat) :
  ∀ self (p : JsonPrompt T) n served,
    replying self → 0 ≤ n → (Z.to_nat n < fuel)%nat →
    ∃ o p' served', json_prompt fuel self p n served = (Returned o, p', served').
Proof.
  induction fuel as [|fuel IH]; intros self p n served Hrep Hn Hfuel; [lia |].
  cbn [json_prompt]. destruct (Z.eqb_spec n 0) as [->|Hn0]; [by eauto |].
  destruct (Hrep served {| req_model := model self;
                           req_messages := build_prompt p (output_format p) |})
    as [resp ->].
  destruct (parse_response resp) as [out | e]; [by eauto |].
  apply IH; [done | lia | lia].
Qed.

(** A value that [json_prompt] returns was accepted by the [try] block. *)
Lemma json_prompt_accepted (fuel : nat) :
  ∀ self (p : JsonPrompt T) n served out p' served',
    json_prompt fuel self p n served = (Returned (Some out), p', served') →
    ∃ resp, parse_response resp = Valid out.
Proof.
  induction fuel as [|fuel IH]; intros self p n served out p' served' H; [done |].
  cbn [json_prompt] in H. destruct (Z.eqb_spec n 0) as [->|Hn0]; [done |].
  destruct (cli self served _) as [resp | err]; [|done].
  destruct (parse_response resp) as [out' | e] eqn:E.
  - injection H as -> _ _. eauto.
  - by apply IH in H.
Qed.

End Termination.

Section Batch.

Variable cfg : Config.
Variable base_validate_json : string → Parsed ClassifyGenreOutput.

Local Abbreviation fmt := (classify_format cfg base_validate_json).
Local Abbreviation loop := (classify_loop cfg base_validate_json).
Local Abbreviation extract llm fgs genre served :=
  (json_prompt (fmt := fmt) (depth_for default_max_tries) llm
     (new_prompt fgs genre) default_max_tries served).

Lemma accepted_genre_permitted (resp : string) (out : ClassifyGenreOutput) :
  parse_response (fmt := fmt) resp = Valid out →
  fundamental_genre out ∈ fundamental_genres cfg.
Proof.
  unfold parse_response. destruct (Re.search (normalize resp)) as [span|]; [|done].
  cbn [model_validate_json classify_format]. unfold classify_validate_json.
  destruct (base_validate_json span) as [s | e]; [|done].
  destruct (check_genre_cases cfg s) as [[Hin ->] | [_ ->]]; [|done].
  by intros [= <-].
Qed.

Lemma loop_cons llm fgs g rest acc served :
  loop llm fgs (g :: rest) acc served
  = match extract llm fgs g served with
    | (Returned None, _, served') => loop llm fgs rest (<[g := None]> acc) served'
    | (Returned (Some output), _, served') =>
        loop llm fgs rest (<[g := Some (fundamental_genre output)]> acc) served'
    | (Raised e, _, served') => (Raised e, served')
    | (OutOfFuel, _, served') => (OutOfFuel, served')
    end.
Proof. reflexivity. Qed.

Lemma loop_none llm fgs g rest acc served p' served' :
  extract llm fgs g served = (Returned None, p', served') →
  loop llm fgs (g :: rest) acc served = loop llm fgs rest (<[g := None]> acc) served'.
Proof. intros H. rewrite loop_cons, H. reflexivity. Qed.

Lemma loop_some llm fgs g rest acc served out p' served' :
  extract llm fgs g served = (Returned (Some out), p', served') →
  loop llm fgs (g :: rest) acc served
  = loop llm fgs rest (<[g := Some (fundamental_genre out)]> acc) served'.
Proof. intros H. rewrite loop_cons, H. reflexivity. Qed.

Lemma loop_raised llm fgs g rest acc served e p' served' :
  extract llm fgs g served = (Raised e, p', served') →
  loop llm fgs (g :: rest) acc served = (Raised e, served').
Proof. intros H. rewrite loop_cons, H. reflexivity. Qed.

Lemma loop_app llm fgs pre post acc served :
  loop llm fgs (pre ++ post) acc served
  = match loop llm fgs pre acc served with
    | (Returned acc', served1) => loop llm fgs post acc' served1
    | other => other
    end.
Proof.
  revert acc served. induction pre as [|g pre IH]; intros acc served.
  - reflexivity.
  - rewrite <- app_comm_cons, !loop_cons.
    destruct (extract llm fgs g served) as [[[[out|]|e|] p'] served1];
      [apply IH | apply IH | reflexivity | reflexivity].
Qed.

(** The dict the loop returns has the keys it started with and the items,
    and every label it adds is a permitted one. *)
Lemma loop_returned llm fgs items :
  ∀ acc served m served',
    loop llm fgs items acc served = (Returned m, served') →
    dom m = dom acc ∪ list_to_set items
    ∧ ∀ g l, m !! g = Some (Some l) →
             acc !! g = Some (Some l) ∨ l ∈ fundamental_genres cfg.
Proof.
  induction items as [|g items IH]; intros acc served m served' H.
  - injection H as <- _. split; [|by eauto].
    cbn [list_to_set]. by rewrite (right_id_L ∅ (∪)).
  - rewrite loop_cons in H.
    destruct (extract llm fgs g served) as [[[[out|]|e|] p'] served1] eqn:E;
      [| |discriminate H|discriminate H].
    + apply IH in H as [Hdom Hval]. split.
      * rewrite Hdom, dom_insert_L. cbn [list_to_set].
        by rewrite (comm_L (∪) {[g]} (dom acc)), (assoc_L (∪)).
      * intros g' l Hl. destruct (Hval g' l Hl) as [Hacc | ?]; [|by right].
        destruct (decide (g = g')) as [->|Hne].
        -- rewrite lookup_insert_eq in Hacc. injection Hacc as <-. right.
           apply json_prompt_accepted in E as [resp E].
           eapply accepted_genre_permitted, E.
        -- rewrite lookup_insert_ne in Hacc by exact Hne. by left.
    + apply IH in H as [Hdom Hval]. split.
      * rewrite Hdom, dom_insert_L. cbn [list_to_set].
        by rewrite (comm_L (∪) {[g]} (dom acc)), (assoc_L (∪)).
      * intros g' l Hl. destruct (Hval g' l Hl) as [Hacc | ?]; [|by right].
        destruct (decide (g = g')) as [->|Hne].
        -- rewrite lookup_insert_eq in Hacc. discriminate Hacc.
        -- rewrite lookup_insert_ne in Hacc by exact Hne. by left.
Qed.

Lemma loop_returns llm fgs items :
  replying llm →
  ∀ acc served, ∃ m served', loop llm fgs items acc served = (Returned m, served').
Proof.
  intros Hrep. induction items as [|g items IH]; intros acc served.
  - eexists _, _. reflexivity.
  - destruct (json_prompt_returns (fmt := fmt) (depth_for default_max_tries) llm
                (new_prompt fgs g) default_max_tries served Hrep)
      as ([out|] & p' & served1 & E);
      [unfold default_max_tries; lia | unfold depth_for, default_max_tries; lia | |].
    + rewrite (loop_some _ _ _ _ _ _ _ _ _ E). apply IH.
    + rewrite (loop_none _ _ _ _ _ _ _ _ E). apply IH.
Qed.

(** A key that is not among the items keeps its value. *)
Lemma loop_keeps llm fgs items :
  ∀ acc served m served' g,
    loop llm fgs items acc served = (Returned m, served') →
    g ∉ items → m !! g = acc !! g.
Proof.
  induction items as [|x items IH]; intros acc served m served' g H Hg.
  - by injection H as <- _.
  - apply not_elem_of_cons in Hg as [Hne Hg]. rewrite loop_cons in H.
    destruct (extract llm fgs x served) as [[[[out|]|e|] p'] served1];
      [| |discriminate H|discriminate H].
    + rewrite (IH _ _ _ _ _ H Hg). by rewrite lookup_insert_ne.
    + rewrite (IH _ _ _ _ _ H Hg). by rewrite lookup_insert_ne.
Qed.

(** The loop returns exactly when every extraction does, with the dict of
    their results. *)
Lemma loop_extractions llm fgs items :
  ∀ acc served m served',
    loop llm fgs items acc served = (Returned m, served')
    ↔ ∃ entries,
        extractions cfg base_validate_json llm fgs items served entries served'
        ∧ m = assign_all acc entries.
Proof.
  induction items as [|g items IH]; intros acc served m served'.
  - split.
    + intros [= <- <-]. exists []. split; [constructor | done].
    + intros (entries & He & ->). by inversion He.
  - rewrite loop_cons. split.
    + intros H.
      destruct (extract llm fgs g served) as [[[[out|]|e|] p'] served1] eqn:E;
        [| |discriminate H|discriminate H];
        apply IH in H as (entries & He & ->).
      * exists ((g, fundamental_genre <$> Some out) :: entries).
        split; [by econstructor | done].
      * exists ((g, fundamental_genre <$> None) :: entries).
        split; [by econstructor | done].
    + intros (entries & He & ->).
      inversion He as [|? ? ? o p' served1 entries' ? E He']; subst.
      unfold extract_genre in E. rewrite E.
      destruct o as [out|]; apply IH; by exists entries'.
Qed.

End Batch.

(** C2. Whenever [classify_genres] returns, the dict has one key for every
    input item and no other key (as many entries as items when the items are
    distinct), and every value is the failure marker [None] or a permitted
    label.  Each entry is the result of the item's own extraction: the run
    returns [m] exactly when the extractions of the items, made one after
    the other, all return and [m] is the dict of their results assigned in
    order; so the value stored for an item is [None] when the extraction of
    its last occurrence ran out of retries and the label of the record that
    extraction returned otherwise.  An item whose extraction runs out of
    retries is recorded as [None], one whose extraction returns a record is
    recorded with the record's label, and in both cases the loop goes on
    with the items after it; with a backend that answers every request,
    [classify_genres] does return. *)
Theorem classify_genres_entries (cfg : Config)
    (base_validate_json : string → Parsed ClassifyGenreOutput)
    (all_genres fgs : list string) (llm : LLMConnector) (served : list Request) :
  (∀ m served',
     classify_genres cfg base_validate_json all_genres fgs llm served
     = (Returned m, served') →
     dom m = list_to_set all_genres
     ∧ (∀ g, g ∈ all_genres ↔ is_Some (m !! g))
     ∧ (NoDup all_genres → size m = length all_genres)
     ∧ (∀ g l, m !! g = Some (Some l) → l ∈ fundamental_genres cfg))
  ∧ (∀ g rest acc served0 p' served1,
       json_prompt (fmt := classify_format cfg base_validate_json)
         (depth_for default_max_tries) llm (new_prompt fgs g) default_max_tries served0
       = (Returned None, p', served1) →
       classify_loop cfg base_validate_json llm fgs (g :: rest) acc served0
       = classify_loop cfg base_validate_json llm fgs rest (<[g := None]> acc) served1)
  ∧ (replying llm →
     ∃ m served',
       classify_genres cfg base_validate_json all_genres fgs llm served
       = (Returned m, served'))
  ∧ (∀ m served',
       classify_genres cfg base_validate_json all_genres fgs llm served
       = (Returned m, served')
       ↔ ∃ entries,
           extractions cfg base_validate_json llm fgs all_genres served entries served'
           ∧ m = assign_all ∅ entries)
  ∧ (∀ m served' pre g post,
       classify_genres cfg base_validate_json all_genres fgs llm served
       = (Returned m, served') →
       all_genres = pre ++ g :: post → g ∉ post →
       ∃ acc served1 o p' served2,
         classify_genres cfg base_validate_json pre fgs llm served
         = (Returned acc, served1)
         ∧ json_prompt (fmt := classify_format cfg base_validate_json)
             (depth_for default_max_tries) llm (new_prompt fgs g)
             default_max_tries served1
           = (Returned o, p', served2)
         ∧ m !! g = Some (fundamental_genre <$> o))
  ∧ (∀ g rest acc served0 out p' served1,
       json_prompt (fmt := classify_format cfg base_validate_json)
         (depth_for default_max_tries) llm (new_prompt fgs g) default_max_tries served0
       = (Returned (Some out), p', served1) →
       classify_loop cfg base_validate_json llm fgs (g :: rest) acc served0
       = classify_loop cfg base_validate_json llm fgs rest
           (<[g := Some (fundamental_genre out)]> acc) served1).
Proof.
  split_and!.
  - intros m served' H. unfold classify_genres in H.
    apply loop_returned in H as [Hdom Hval].
    rewrite dom_empty_L, (left_id_L ∅ (∪)) in Hdom.
    split_and!.
    + exact Hdom.
    + intros g. rewrite <- elem_of_dom, Hdom. by rewrite elem_of_list_to_set.
    + intros Hnd. rewrite <- size_dom, Hdom. by apply size_list_to_set.
    + intros g l Hl. destruct (Hval g l Hl) as [Hacc | ?]; [|done].
      by rewrite lookup_empty in Hacc.
  - intros g rest acc served0 p' served1 H. by eapply loop_none.
  - intros Hrep. by apply loop_returns.
  - intros m served'. apply loop_extractions.
  - intros m served' pre g post H -> Hg. unfold classify_genres in H |- *.
    rewrite loop_app in H.
    destruct (classify_loop cfg base_validate_json llm fgs pre ∅ served)
      as [[acc| |] served1]; [|discriminate H|discriminate H].
    rewrite loop_cons in H.
    destruct (json_prompt _ llm (new_prompt fgs g) default_max_tries served1)
      as [[[[out|]|e|] p'] served2] eqn:E; [| |discriminate H|discriminate H].
    + exists acc, served1, (Some out), p', served2. split_and!; [done | done |].
      rewrite (loop_keeps _ _ _ _ _ _ _ _ _ _ H Hg). by rewrite lookup_insert_eq.
    + exists acc, served1, None, p', served2. split_and!; [done | done |].
      rewrite (loop_keeps _ _ _ _ _ _ _ _ _ _ H Hg). by rewrite lookup_insert_eq.
  - intros g rest acc served0 out p' served1 H. by eapply loop_some.
Qed.

Lemma classify_genres_entries_witness :
  let self := Sample.llm [Reply (Sample.answer "guitars" "Rock")] (Reply "no idea") in
  replying self
  ∧ ∃ m served',
      classify_genres Sample.cfg Sample.validate_json
        ["shoegaze"; "k-pop"] ["rock"; "pop"] self [] = (Returned m, served')
      ∧ ["shoegaze"; "k-pop"] = [] ++ "shoegaze" :: ["k-pop"]
      ∧ ("shoegaze" ∉ ["k-pop"])
      ∧ ∃ acc served1 o p' served2,
          classify_genres Sample.cfg Sample.validate_json [] ["rock"; "pop"] self []
          = (Returned acc, served1)
          ∧ json_prompt (fmt := Sample.format) (depth_for default_max_tries) self
              (new_prompt ["rock"; "pop"] "shoegaze") default_max_tries served1
            = (Returned o, p', served2)
          ∧ m !! "shoegaze" = Some (fundamental_genre <$> o).
Proof.
  intros self.
  assert (Hrep : replying self).
  { intros served req. unfold self, Sample.llm, Sample.scripted. cbn [cli].
    destruct (length served) as [|n]; cbn; eauto. }
  split; [exact Hrep |].
  destruct (proj1 (proj2 (proj2 (classify_genres_entries Sample.cfg Sample.validate_json
              ["shoegaze"; "k-pop"] ["rock"; "pop"] self []))) Hrep)
    as (m & served' & Hrun).
  assert (Hnotin : "shoegaze" ∉ ["k-pop"]).
  { rewrite list_elem_of_singleton. discriminate. }
  exists m, served'. split_and!; [exact Hrun | reflexivity | exact Hnotin |].
  exact (proj1 (proj2 (proj2 (proj2 (proj2
           (classify_genres_entries Sample.cfg Sample.validate_json
              ["shoegaze"; "k-pop"] ["rock"; "pop"] self [])))))
           m served' [] "shoegaze" ["k-pop"] Hrun eq_refl Hnotin).
Defined.

(** The same run, evaluated: the first item is classified on the first
    reply, the second uses up its twenty attempts and is recorded as failed. *)
Example classify_genres_run :
  let self := Sample.llm [Reply (Sample.answer "guitars" "Rock")] (Reply "no idea") in
  match classify_genres Sample.cfg Sample.validate_json
          ["shoegaze"; "k-pop"] ["rock"; "pop"] self [] with
  | (Returned m, served') =>
      (m !! "shoegaze", m !! "k-pop", m !! "rock", length served')
      = (Some (Some "rock"), Some None, None, 21%nat)
  | _ => False
  end.
Proof. vm_compute. reflexivity. Qed.

(** C3 (as the code has it). When the backend call fails, [json_prompt]
    sends nothing more and raises: the outcome is an exception, not the
    [None] of a used-up budget, whatever budget is left and however many
    attempts were rejected before.  Nothing in [classify_genres] catches it:
    the batch raises the same exception at that item, returns no dict, and
    sends no request for the items after it. *)
Theorem transport_failure_propagates (cfg : Config)
    (base_validate_json : string → Parsed ClassifyGenreOutput) :
  (∀ (T : Type) (fmt : JsonOutputFormat T) fuel self (p : JsonPrompt T) n served err,
     n ≠ 0 →
     cli self served (request self p) = Unreachable err →
     json_prompt (S fuel) self p n served
     = (Raised (TransportError err), p, served ++ [request self p]))
  ∧ (∀ (T : Type) (fmt : JsonOutputFormat T) fuel self k (p p1 : JsonPrompt T)
       n served served1 err,
       rejected self k p served p1 served1 →
       Z.of_nat k < n →
       cli self served1 (request self p1) = Unreachable err →
       json_prompt (k + S fuel) self p n served
       = (Raised (TransportError err), p1, served1 ++ [request self p1]))
  ∧ (∀ llm fgs pre g post acc served1 e p' served',
       classify_genres cfg base_validate_json pre fgs llm [] = (Returned acc, served1) →
       json_prompt (fmt := classify_format cfg base_validate_json)
         (depth_for default_max_tries) llm (new_prompt fgs g) default_max_tries served1
       = (Raised e, p', served') →
       classify_genres cfg base_validate_json (pre ++ g :: post) fgs llm []
       = (Raised e, served'))
  ∧ (∀ llm fgs g rest served err,
       (∀ served0 req, cli llm served0 req = Unreachable err) →
       ∃ req,
         classify_genres cfg base_validate_json (g :: rest) fgs llm served
         = (Raised (TransportError err), served ++ [req])).
Proof.
  split_and!.
  - intros T fmt fuel self p n served err Hn Hc. by apply json_prompt_down.
  - intros T fmt fuel self k p p1 n served served1 err Hr Hk Hc.
    rewrite (json_prompt_rejected _ _ _ _ _ _ Hr) by lia.
    apply json_prompt_down; [lia | done].
  - intros llm fgs pre g post acc served1 e p' served' Hpre Hg.
    unfold classify_genres in *. rewrite loop_app, Hpre.
    by eapply loop_raised.
  - intros llm fgs g rest served err Hdown.
    eexists. unfold classify_genres. eapply loop_raised.
    unfold depth_for. apply json_prompt_down; [done | apply Hdown].
Qed.

Lemma transport_failure_propagates_witness :
  let self := Sample.llm [Reply "rock!"; Unreachable "connection refused"]
                (Reply (Sample.answer "x" "rock")) in
  let p := new_prompt ["rock"; "pop"] "shoegaze" in
  let p1 := add_msg (add_msg p (reply_msg "rock!"))
              (correction "No JSON found in response.") in
  let served1 := [] ++ [request (fmt := Sample.format) self p] in
  rejected (fmt := Sample.format) self 1 p [] p1 served1
  ∧ 1 < 20
  ∧ json_prompt (fmt := Sample.format) (1 + 20) self p 20 []
    = (Raised (TransportError "connection refused"), p1,
       served1 ++ [request (fmt := Sample.format) self p1]).
Proof.
  intros self p p1 served1.
  assert (Hr : rejected (fmt := Sample.format) self 1 p [] p1 served1).
  { eapply rejected_more; [reflexivity | reflexivity | apply rejected_none]. }
  split_and!; [exact Hr | lia |].
  apply (proj1 (proj2 (transport_failure_propagates Sample.cfg Sample.validate_json))
           _ Sample.format 19%nat self 1%nat p p1 20 [] served1 "connection refused");
    [exact Hr | lia | reflexivity].
Defined.

(** C3 as stated fails: when the backend is down at the first of two items,
    the batch raises after that one request; no dict is returned, so the item
    is not recorded as failed and the second item is never tried. *)
Lemma transport_failure_counterexample :
  let self := Sample.llm [Unreachable "connection refused"]
                (Reply (Sample.answer "x" "rock")) in
  ∃ req,
    classify_genres Sample.cfg Sample.validate_json
      ["shoegaze"; "k-pop"] ["rock"; "pop"] self []
    = (Raised (TransportError "connection refused"), [req])
    ∧ ¬ ∃ m served',
          classify_genres Sample.cfg Sample.validate_json
            ["shoegaze"; "k-pop"] ["rock"; "pop"] self [] = (Returned m, served').
Proof.
  intros self.
  assert (H : ∃ req,
    classify_genres Sample.cfg Sample.validate_json
      ["shoegaze"; "k-pop"] ["rock"; "pop"] self []
    = (Raised (TransportError "connection refused"), [req])).
  { exists (request (fmt := Sample.format) self (new_prompt ["rock"; "pop"] "shoegaze")).
    unfold classify_genres. eapply loop_raised. unfold depth_for.
    apply (json_prompt_down (fmt := Sample.format) _ self _ default_max_tries []
             "connection refused"); [done | reflexivity]. }
  destruct H as [req H]. exists req. split; [exact H |].
  intros (m & served' & H'). rewrite H in H'. discriminate H'.
Qed.

(** ** Loading the history *)

Module PersistenceFacts.
Import Persistence.

Section SortFacts.

Context {A : Type} (key : A → Z).

Local Abbreviation le_key := (λ a b : A, key a ≤ key b).

Lemma insert_by_perm (x : A) (l : list A) : insert_by key x l ≡ₚ x :: l.
Proof.
  induction l as [|y l IH]; [done |].
  cbn [insert_by]. destruct (key x <=? key y); [done |].
  rewrite IH. apply Permutation_swap.
Qed.

Lemma sort_by_perm (l : list A) : sort_by key l ≡ₚ l.
Proof.
  induction l as [|x l IH]; [done |].
  cbn [sort_by]. by rewrite insert_by_perm, IH.
Qed.

Lemma insert_by_sorted (x : A) (l : list A) :
  StronglySorted le_key l → StronglySorted le_key (insert_by key x l).
Proof.
  induction l as [|y l IH]; intros Hl.
  - repeat constructor.
  - cbn [insert_by]. apply StronglySorted_inv in Hl as [Hl Hy].
    destruct (Z.leb_spec (key x) (key y)) as [Hxy | Hyx].
    + constructor; [by constructor |].
      constructor; [done |].
      eapply Forall_impl; [exact Hy |]. intros z Hz. cbn in *. lia.
    + constructor; [by apply IH |].
      rewrite insert_by_perm. constructor; [cbn; lia | done].
Qed.

Lemma sort_by_sorted (l : list A) : StronglySorted le_key (sort_by key l).
Proof.
  induction l as [|x l IH]; [constructor |].
  cbn [sort_by]. by apply insert_by_sorted.
Qed.

(** The sort is stable: records with the same key keep their order. *)
Lemma insert_by_stable (k : Z) (x : A) (l : list A) :
  StronglySorted le_key l →
  filter (λ a, key a = k) (insert_by key x l)
  = filter (λ a, key a = k) (x :: l).
Proof.
  induction l as [|y l IH]; intros Hl; [done |].
  cbn [insert_by]. apply StronglySorted_inv in Hl as [Hl Hy].
  destruct (Z.leb_spec (key x) (key y)) as [Hxy | Hyx]; [done |].
  rewrite filter_cons, IH by done. rewrite !filter_cons.
  destruct (decide (key y = k)) as [Hk | Hk];
    destruct (decide (key x = k)) as [Hk' | Hk']; try done.
  lia.
Qed.

Lemma sort_by_stable (k : Z) (l : list A) :
  filter (λ a, key a = k) (sort_by key l) = filter (λ a, key a = k) l.
Proof.
  induction l as [|x l IH]; [done |].
  cbn [sort_by]. rewrite insert_by_stable by apply sort_by_sorted.
  by rewrite !filter_cons, IH.
Qed.

End SortFacts.

Lemma load_files_returned (files : list DirEntry) :
  ∀ acc songs, load_files files acc = Returned songs →
    songs = acc ++ concat (records <$> files) ∧ Forall readable files.
Proof.
  induction files as [|f files IH]; intros acc songs H.
  - injection H as <-. by rewrite app_nil_r.
  - cbn [load_files] in H. destruct (data f) as [d | err] eqn:E; [|done].
    apply IH in H as [-> Hall]. split.
    + cbn [fmap list_fmap concat]. unfold records at 2. rewrite E.
      by rewrite <- app_assoc.
    + constructor; [by exists d | done].
Qed.

Lemma load_files_readable (files : list DirEntry) :
  Forall readable files →
  ∀ acc, load_files files acc = Returned (acc ++ concat (records <$> files)).
Proof.
  induction 1 as [|f files [d Hd] _ IH]; intros acc.
  - by rewrite app_nil_r.
  - cbn [load_files fmap list_fmap concat]. unfold records at 1. rewrite Hd.
    by rewrite IH, <- app_assoc.
Qed.

(** With timestamps of one kind, inserting by [<] is inserting by instant. *)
Lemma insert_ts_same (x : SpotifySongSpan) (l : list SpotifySongSpan) :
  Forall (λ y, aware (ts y) = aware (ts x)) l →
  insert_ts x l = Some (insert_by ts_instant x l).
Proof.
  induction 1 as [|y l Hy _ IH]; [done |].
  cbn [insert_ts insert_by]. unfold datetime_lt. rewrite Hy, Bool.eqb_reflx.
  unfold ts_instant at 1 2. rewrite Z.ltb_antisym.
  destruct (instant (ts x) <=? instant (ts y)); cbn [negb]; [done |].
  by rewrite IH.
Qed.

Lemma insert_ts_differs (x y : SpotifySongSpan) (l : list SpotifySongSpan) :
  aware (ts y) ≠ aware (ts x) → insert_ts x (y :: l) = None.
Proof.
  intros H. cbn [insert_ts]. unfold datetime_lt.
  by destruct (Bool.eqb_spec (aware (ts y)) (aware (ts x))).
Qed.

(** The sort of [load_history] is the stable sort by instant when the
    timestamps are all of one kind, and raises otherwise. *)
Lemma sort_ts_spec (l : list SpotifySongSpan) :
  (comparable l ∧ sort_ts l = Some (sort_by ts_instant l))
  ∨ (¬ comparable l ∧ sort_ts l = None).
Proof.
  induction l as [|x l IH].
  - left. split; [|done]. intros a b Ha. by apply not_elem_of_nil in Ha.
  - cbn [sort_ts sort_by]. destruct IH as [[Hc ->] | [Hn ->]]; cbn [mbind option_bind].
    + destruct (decide (Forall (λ y, aware (ts y) = aware (ts x)) l)) as [Hall | Hnot].
      * left. split.
        -- rewrite Forall_forall in Hall.
           intros a b [-> | Ha]%elem_of_cons [-> | Hb]%elem_of_cons;
             [done | symmetry; by apply Hall | by apply Hall | by apply Hc].
        -- apply insert_ts_same. by rewrite sort_by_perm.
      * right. split.
        -- intros Hc'. apply Hnot, Forall_forall. intros y Hy.
           apply Hc'; [by right | by left].
        -- apply not_Forall_Exists in Hnot; [|apply _].
           apply Exists_exists in Hnot as (y & Hy & Hne).
           destruct (sort_by ts_instant l) as [|z l'] eqn:E.
           { rewrite <- (sort_by_perm ts_instant), E in Hy.
             by apply not_elem_of_nil in Hy. }
           apply insert_ts_differs.
           assert (Hz : z ∈ l) by (rewrite <- (sort_by_perm ts_instant), E; by left).
           by rewrite (Hc z y Hz Hy).
    + right. split; [|done]. intros Hc'. apply Hn.
      intros a b Ha Hb. apply Hc'; by right.
Qed.

Lemma load_history_returned (dir : list DirEntry) (songs : list SpotifySongSpan) :
  load_history dir = Returned songs →
  songs = sort_by ts_instant (concat (records <$> json_files dir))
  ∧ Forall readable (json_files dir)
  ∧ comparable (concat (records <$> json_files dir)).
Proof.
  unfold load_history. fold (json_files dir).
  destruct (load_files (json_files dir) []) as [loaded | e |] eqn:E; [|done|done].
  apply load_files_returned in E as [-> Hall]. cbn [app].
  destruct (sort_ts_spec (concat (records <$> json_files dir))) as [[Hc ->] | [_ ->]];
    [|done].
  by intros [= <-].
Qed.

Lemma load_history_readable (dir : list DirEntry) :
  Forall readable (json_files dir) →
  load_history dir
  = match sort_ts (concat (records <$> json_files dir)) with
    | Some songs => Returned songs
    | None => Raised (TypeError cannot_compare)
    end.
Proof.
  intros Hall. unfold load_history. fold (json_files dir).
  by rewrite (load_files_readable _ Hall).
Qed.

(** A stable sort keeps the order of the records that a predicate selects,
    when the selected records share a key. *)
Lemma sort_by_keeps {A : Type} (key : A → Z) (P : A → Prop) `{∀ x, Decision (P x)}
    (k : Z) (l : list A) :
  (∀ x, P x → key x = k) →
  filter P (sort_by key l) = filter P l.
Proof.
  intros HP.
  assert (Hiff : ∀ x, P x ↔ P x ∧ key x = k) by (intros x; specialize (HP x); tauto).
  rewrite (list_filter_iff _ _ (sort_by key l) Hiff), (list_filter_iff _ _ l Hiff).
  by rewrite <- !list_filter_filter, sort_by_stable.
Qed.

End PersistenceFacts.

(** C10. Whatever the order of the directory entries and of the records in
    the files, the list [load_history] returns is in non-decreasing order of
    [ts]; it holds exactly the records of the [.json] files, records with the
    same [ts] in the order they were read, and the sequence of timestamps does
    not depend on the order of the entries.  It returns exactly when every
    [.json] file can be read and the timestamps read are all offset-aware or
    all offset-naive; when the files can be read and the two kinds are mixed,
    the sort raises [TypeError] and nothing is returned. *)
Theorem load_history_sorted (dir : list Persistence.DirEntry) :
  (∀ songs, Persistence.load_history dir = Returned songs →
     StronglySorted Persistence.ts_le songs
     ∧ Sorted Persistence.ts_le songs
     ∧ songs ≡ₚ concat (Persistence.records <$> Persistence.json_files dir)
     ∧ (∀ t, filter (λ a, Persistence.ts a = t) songs
             = filter (λ a, Persistence.ts a = t)
                 (concat (Persistence.records <$> Persistence.json_files dir)))
     ∧ Persistence.comparable songs)
  ∧ (∀ dir' songs songs',
       dir ≡ₚ dir' →
       Persistence.load_history dir = Returned songs →
       Persistence.load_history dir' = Returned songs' →
       Persistence.ts <$> songs = Persistence.ts <$> songs')
  ∧ (Forall Persistence.readable (Persistence.json_files dir) →
     Persistence.comparable
       (concat (Persistence.records <$> Persistence.json_files dir)) →
     ∃ songs, Persistence.load_history dir = Returned songs)
  ∧ (Forall Persistence.readable (Persistence.json_files dir) →
     ¬ Persistence.comparable
         (concat (Persistence.records <$> Persistence.json_files dir)) →
     Persistence.load_history dir
     = Raised (TypeError Persistence.cannot_compare))
  ∧ (∀ songs, Persistence.load_history dir = Returned songs →
       Forall Persistence.readable (Persistence.json_files dir)
       ∧ Persistence.comparable
           (concat (Persistence.records <$> Persistence.json_files dir))).
Proof.
  split_and!.
  - intros songs (-> & _ & Hc)%PersistenceFacts.load_history_returned.
    split_and!.
    + apply (PersistenceFacts.sort_by_sorted Persistence.ts_instant).
    + apply StronglySorted_Sorted.
      apply (PersistenceFacts.sort_by_sorted Persistence.ts_instant).
    + apply PersistenceFacts.sort_by_perm.
    + intros t.
      apply (PersistenceFacts.sort_by_keeps _ _ (Persistence.instant t)).
      by intros x <-.
    + intros a b. rewrite !(PersistenceFacts.sort_by_perm Persistence.ts_instant).
      apply Hc.
  - intros dir' songs songs' Hperm
      (-> & _ & Hc)%PersistenceFacts.load_history_returned
      (-> & _ & _)%PersistenceFacts.load_history_returned.
    assert (Hfiles : concat (Persistence.records <$> Persistence.json_files dir')
                     ≡ₚ concat (Persistence.records <$> Persistence.json_files dir)).
    { unfold Persistence.json_files. by rewrite Hperm. }
    apply (StronglySorted_unique_strong Persistence.datetime_le).
    + intros x1 x2 (a & -> & Ha)%list_elem_of_fmap (b & -> & Hb)%list_elem_of_fmap H12 H21.
      rewrite PersistenceFacts.sort_by_perm in Ha.
      rewrite PersistenceFacts.sort_by_perm, Hfiles in Hb.
      specialize (Hc a b Ha Hb). unfold Persistence.datetime_le in H12, H21.
      destruct (Persistence.ts a) as [ia wa], (Persistence.ts b) as [ib wb].
      cbn in *. f_equal; [lia | done].
    + apply (StronglySorted_fmap _ Persistence.ts_le Persistence.datetime_le);
        [done | apply (PersistenceFacts.sort_by_sorted Persistence.ts_instant)].
    + apply (StronglySorted_fmap _ Persistence.ts_le Persistence.datetime_le);
        [done | apply (PersistenceFacts.sort_by_sorted Persistence.ts_instant)].
    + apply fmap_Permutation.
      by rewrite !PersistenceFacts.sort_by_perm, Hfiles.
  - intros Hall Hc. rewrite (PersistenceFacts.load_history_readable _ Hall).
    destruct (PersistenceFacts.sort_ts_spec
                (concat (Persistence.records <$> Persistence.json_files dir)))
      as [[_ ->] | [Hn _]]; [eauto | done].
  - intros Hall Hn. rewrite (PersistenceFacts.load_history_readable _ Hall).
    destruct (PersistenceFacts.sort_ts_spec
                (concat (Persistence.records <$> Persistence.json_files dir)))
      as [[Hc _] | [_ ->]]; [done | done].
  - intros songs (_ & Hall & Hc)%PersistenceFacts.load_history_returned. done.
Qed.

Lemma load_history_sorted_witness :
  (Persistence.load_history Sample.dir
   = Returned [Sample.span 10 "a"; Sample.span 10 "d";
               Sample.span 20 "b"; Sample.span 30 "c"]
   ∧ Sorted Persistence.ts_le
       [Sample.span 10 "a"; Sample.span 10 "d"; Sample.span 20 "b"; Sample.span 30 "c"])
  ∧ (Forall Persistence.readable (Persistence.json_files Sample.mixed_dir)
     ∧ ¬ Persistence.comparable
           (concat (Persistence.records <$> Persistence.json_files Sample.mixed_dir))
     ∧ Persistence.load_history Sample.mixed_dir
       = Raised (TypeError Persistence.cannot_compare)).
Proof.
  assert (H : Persistence.load_history Sample.dir
    = Returned [Sample.span 10 "a"; Sample.span 10 "d";
                Sample.span 20 "b"; Sample.span 30 "c"]) by reflexivity.
  assert (Hall : Forall Persistence.readable (Persistence.json_files Sample.mixed_dir)).
  { repeat constructor; eexists; reflexivity. }
  assert (Hn : ¬ Persistence.comparable
                 (concat (Persistence.records <$> Persistence.json_files Sample.mixed_dir))).
  { intros Hc.
    specialize (Hc (Sample.span 30 "c") (Sample.span_naive 20 "b")
                  ltac:(by left) ltac:(by do 2 right; left)).
    discriminate Hc. }
  split; [split; [exact H |] | split_and!; [exact Hall | exact Hn |]].
  - exact (proj1 (proj2 (proj1 (load_history_sorted Sample.dir) _ H))).
  - exact (proj1 (proj2 (proj2 (proj2 (load_history_sorted Sample.mixed_dir)))) Hall Hn).
Defined.

(** * Further properties of the code *)

(** ** The retry loop, beyond the budget *)

Section RetryMore.

Context {T : Type} `{fmt : JsonOutputFormat T}.
Implicit Types (self : LLMConnector) (p : JsonPrompt T) (served : list Request).

(** What any run sends and stores, counted against the budget. *)
Lemma json_prompt_counts (fuel : nat) :
  ∀ self p n served o p' served',
    0 ≤ n →
    json_prompt fuel self p n served = (o, p', served') →
    ∃ sent added,
      served' = served ++ sent ∧ msgs p' = msgs p ++ added
      ∧ (length sent ≤ Z.to_nat n)%nat
      ∧ (length added ≤ 2 * length sent)%nat
      ∧ Forall (λ r, req_model r = model self) sent
      ∧ (o = Returned None →
         length sent = Z.to_nat n ∧ length added = (2 * Z.to_nat n)%nat)
      ∧ (n ≠ 0 → o ≠ OutOfFuel → (1 ≤ length sent)%nat).
Proof.
  induction fuel as [|fuel IH]; intros self p n served o p' served' Hn H.
  - injection H as <- <- <-. exists [], []. rewrite !app_nil_r.
    split_and!; try done; cbn; lia.
  - cbn [json_prompt] in H. destruct (Z.eqb_spec n 0) as [->|Hn0].
    { injection H as <- <- <-. exists [], []. rewrite !app_nil_r.
      split_and!; try done; cbn; lia. }
    fold (request self p) in H.
    destruct (cli self served (request self p)) as [resp | err].
    + destruct (parse_response resp) as [out | e].
      * injection H as <- <- <-. exists [request self p], [reply_msg resp].
        split_and!; try done; cbn; try lia.
        by apply Forall_singleton.
      * apply IH in H as (sent & added & Hs & Hm & Hls & Hla & Hmod & Hnone & _);
          [|lia].
        exists (request self p :: sent), (reply_msg resp :: correction e :: added).
        split_and!.
        -- rewrite Hs. by rewrite <- app_assoc.
        -- rewrite Hm. cbn [add_msg msgs]. by rewrite <- !app_assoc.
        -- cbn [length]. lia.
        -- cbn [length]. lia.
        -- by apply Forall_cons.
        -- intros Ho. destruct (Hnone Ho) as [H1 H2]. cbn [length]. lia.
        -- intros _ _. cbn [length]. lia.
    + injection H as <- <- <-. exists [request self p], [].
      rewrite app_nil_r. split_and!; try done; cbn; try lia.
      by apply Forall_singleton.
Qed.

(** One more rejected attempt at the end of a run of them. *)
Lemma rejected_snoc self k p0 served0 p served resp e :
  rejected self k p0 served0 p served →
  cli self served (request self p) = Reply resp →
  parse_response resp = ValueError e →
  rejected self (S k) p0 served0
    (add_msg (add_msg p (reply_msg resp)) (correction e))
    (served ++ [request self p]).
Proof.
  induction 1 as [p served | k p0 served0 resp0 e0 p served Hc0 He0 _ IH];
    intros Hc He.
  - eapply rejected_more; [exact Hc | exact He | constructor].
  - eapply rejected_more; [exact Hc0 | exact He0 | by apply IH].
Qed.

(** Every request of a run shows a prompt that rejected attempts of the same
    run have left. *)
Lemma json_prompt_own (fuel : nat) :
  ∀ self p0 served0 k p n served o p' served',
    rejected self k p0 served0 p served →
    json_prompt fuel self p n served = (o, p', served') →
    ∃ sent,
      served' = served ++ sent
      ∧ Forall (λ r, ∃ k' q s, rejected self k' p0 served0 q s
                               ∧ r = request self q) sent.
Proof.
  induction fuel as [|fuel IH]; intros self p0 served0 k p n served o p' served' Hr H.
  - injection H as <- <- <-. exists []. by rewrite app_nil_r.
  - cbn [json_prompt] in H. destruct (Z.eqb_spec n 0) as [->|Hn0].
    { injection H as <- <- <-. exists []. by rewrite app_nil_r. }
    fold (request self p) in H.
    assert (Hhere : ∃ k' q s, rejected self k' p0 served0 q s
                              ∧ request self p = request self q)
      by (by exists k, p, served).
    destruct (cli self served (request self p)) as [resp | err] eqn:Hc.
    + destruct (parse_response resp) as [out | e] eqn:He.
      * injection H as <- <- <-. exists [request self p].
        split; [done | by apply Forall_singleton].
      * apply (IH _ p0 served0 (S k)) in H as (sent & -> & Hsent);
          [|by apply rejected_snoc].
        exists (request self p :: sent). split; [by rewrite <- app_assoc |].
        by apply Forall_cons.
    + injection H as <- <- <-. exists [request self p].
      split; [done | by apply Forall_singleton].
Qed.

(** The replies shown by a prompt that rejected attempts have left were all
    rejected, with the errors quoted after them. *)
Lemma rejected_rounds k self p served p' served' :
  rejected self k p served p' served' →
  ∃ rounds,
    msgs p' = msgs p ++ concat (exchange <$> rounds) ∧ length rounds = k
    ∧ Forall (λ r, parse_response r.1 = ValueError r.2) rounds.
Proof.
  induction 1 as [p served | k p served resp e p' served' Hc He _ IH].
  - exists []. by rewrite app_nil_r.
  - destruct IH as (rounds & Hm & Hl & Hall).
    exists ((resp, e) :: rounds). split_and!.
    + rewrite Hm. cbn [add_msg msgs fmap list_fmap concat exchange fst snd].
      by rewrite <- !app_assoc.
    + cbn [length]. lia.
    + by constructor.
Qed.

End RetryMore.

(** X1. The first reply that validates ends the extraction: after [k]
    rejected attempts ([k] below the budget) a valid reply is returned at
    once, with [k + 1] requests sent in all and the reply stored as the last
    message. *)
Theorem json_prompt_first_valid {T : Type} `{fmt : JsonOutputFormat T}
    (self : LLMConnector) (k : nat) (p p1 : JsonPrompt T)
    (served served1 : list Request) (n : Z) (resp : string) (out : T) (fuel : nat) :
  rejected self k p served p1 served1 →
  Z.of_nat k < n →
  cli self served1 (request self p1) = Reply resp →
  parse_response resp = Valid out →
  json_prompt (k + S fuel) self p n served
  = (Returned (Some out), add_msg p1 (reply_msg resp), served1 ++ [request self p1])
  ∧ length (served1 ++ [request self p1]) = (length served + k + 1)%nat
  ∧ length (msgs (add_msg p1 (reply_msg resp))) = (length (msgs p) + 2 * k + 1)%nat.
Proof.
  intros Hr Hk Hc Hv.
  destruct (rejected_appends _ _ _ _ _ _ Hr) as (rounds & sent & Hm & Hl & -> & Hs & _).
  split_and!.
  - rewrite (json_prompt_rejected _ _ _ _ _ _ Hr) by lia.
    apply json_prompt_accept; [lia | done | done].
  - rewrite !length_app. cbn [length]. lia.
  - cbn [add_msg msgs]. rewrite Hm, !length_app, exchanges_length. cbn [length]. lia.
Qed.

Lemma json_prompt_first_valid_witness :
  let self := Sample.llm [Reply "rock!"; Reply (Sample.answer "x" "Pop")] (Reply "") in
  let p := new_prompt ["rock"; "pop"] "shoegaze" in
  let p1 := add_msg (add_msg p (reply_msg "rock!"))
              (correction "No JSON found in response.") in
  let served1 := [] ++ [request (fmt := Sample.format) self p] in
  json_prompt (fmt := Sample.format) (1 + 20) self p 20 []
  = (Returned (Some {| reason := "x"; fundamental_genre := "pop" |}),
     add_msg p1 (reply_msg (Sample.answer "x" "Pop")),
     served1 ++ [request (fmt := Sample.format) self p1]).
Proof.
  intros self p p1 served1.
  assert (Hr : rejected (fmt := Sample.format) self 1 p [] p1 served1).
  { eapply rejected_more; [reflexivity | reflexivity | apply rejected_none]. }
  apply (json_prompt_first_valid (fmt := Sample.format) self 1 p p1 [] served1 20
           (Sample.answer "x" "Pop") {| reason := "x"; fundamental_genre := "pop" |}
           19 Hr); [lia | reflexivity | reflexivity].
Defined.

(** X2. Whatever the backend answers, a run with budget [n ≥ 0] sends at
    most [n] requests and stores at most two messages per request; it returns
    [None] only after exactly [n] requests, and with [n ≠ 0] it does not end
    without having sent one. *)
Theorem json_prompt_request_bound {T : Type} `{fmt : JsonOutputFormat T}
    (fuel : nat) (self : LLMConnector) (p p' : JsonPrompt T) (n : Z)
    (served served' : list Request) (o : Outcome (option T)) :
  0 ≤ n →
  json_prompt fuel self p n served = (o, p', served') →
  ∃ sent added,
    served' = served ++ sent ∧ msgs p' = msgs p ++ added
    ∧ (length sent ≤ Z.to_nat n)%nat
    ∧ (length added ≤ 2 * length sent)%nat
    ∧ (o = Returned None →
       length sent = Z.to_nat n ∧ length added = (2 * Z.to_nat n)%nat)
    ∧ (n ≠ 0 → o ≠ OutOfFuel → (1 ≤ length sent)%nat).
Proof.
  intros Hn H.
  destruct (json_prompt_counts fuel self p n served o p' served' Hn H)
    as (sent & added & ? & ? & ? & ? & _ & ? & ?).
  by exists sent, added.
Qed.

Lemma json_prompt_request_bound_witness :
  let self := Sample.llm [Reply "rock!"; Reply (Sample.answer "x" "Pop")] (Reply "") in
  let p := new_prompt ["rock"; "pop"] "shoegaze" in
  ∃ o p' served',
    json_prompt (fmt := Sample.format) 21 self p 20 [] = (o, p', served')
    ∧ ∃ sent added,
        served' = [] ++ sent ∧ msgs p' = msgs p ++ added
        ∧ (length sent ≤ Z.to_nat 20)%nat
        ∧ (length added ≤ 2 * length sent)%nat
        ∧ (o = Returned None →
           length sent = Z.to_nat 20 ∧ length added = (2 * Z.to_nat 20)%nat)
        ∧ (20 ≠ 0 → o ≠ OutOfFuel → (1 ≤ length sent)%nat).
Proof.
  intros self p.
  destruct (json_prompt (fmt := Sample.format) 21 self p 20 []) as [[o p'] served'] eqn:E.
  exists o, p', served'. split; [reflexivity |].
  apply (json_prompt_request_bound (fmt := Sample.format) 21 self p p' 20 [] served' o);
    [lia | exact E].
Defined.

(** X3. A negative budget is never used up: such a run never returns
    [None], and against a backend none of whose replies validates it sends
    one request at every level of the recursion, however deep. *)
Theorem json_prompt_negative_budget {T : Type} `{fmt : JsonOutputFormat T}
    (self : LLMConnector) (n : Z) :
  n < 0 →
  (∀ fuel (p p' : JsonPrompt T) served served' o,
     json_prompt fuel self p n served = (o, p', served') → o ≠ Returned None)
  ∧ (never_valid self →
     ∀ fuel (p : JsonPrompt T) served,
       ∃ p' sent,
         json_prompt fuel self p n served = (OutOfFuel, p', served ++ sent)
         ∧ length sent = fuel).
Proof.
  intros Hn. split.
  - intros fuel. revert n Hn.
    induction fuel as [|fuel IH]; intros n Hn p p' served served' o H.
    + by injection H as <- _ _.
    + cbn [json_prompt] in H. destruct (Z.eqb_spec n 0) as [->|_]; [lia |].
      destruct (cli self served _) as [resp | err]; [|by injection H as <- _ _].
      destruct (parse_response resp) as [out | e]; [by injection H as <- _ _ |].
      apply IH in H; [done | lia].
  - intros Hnv fuel. revert n Hn.
    induction fuel as [|fuel IH]; intros n Hn p served.
    + exists p, []. by rewrite app_nil_r.
    + destruct (Hnv served (request self p)) as (resp & e & Hc & He).
      rewrite (json_prompt_reject _ _ _ _ _ resp e) by (done || lia).
      destruct (IH (n - 1) ltac:(lia)
                  (add_msg (add_msg p (reply_msg resp)) (correction e))
                  (served ++ [request self p])) as (p' & sent & -> & Hl).
      exists p', (request self p :: sent). split.
      * by rewrite <- app_assoc.
      * cbn [length]. by rewrite Hl.
Qed.

Lemma json_prompt_negative_budget_witness :
  let self := Sample.llm [] (Reply "I think this is rock.") in
  let p := new_prompt ["rock"; "pop"] "shoegaze" in
  -1 < 0 ∧ never_valid (fmt := Sample.format) self
  ∧ ∃ p' sent,
      json_prompt (fmt := Sample.format) 5 self p (-1) [] = (OutOfFuel, p', [] ++ sent)
      ∧ length sent = 5%nat.
Proof.
  intros self p.
  assert (Hnv : never_valid (fmt := Sample.format) self).
  { intros served req. eexists _, _. split; reflexivity. }
  split_and!; [lia | exact Hnv |].
  apply (proj2 (json_prompt_negative_budget (fmt := Sample.format) self (-1)
                  ltac:(lia)) Hnv 5%nat p []).
Defined.

(** ** The batch, request by request *)

Section BatchMore.

Variable cfg : Config.
Variable base_validate_json : string → Parsed ClassifyGenreOutput.

Local Abbreviation fmt := (classify_format cfg base_validate_json).
Local Abbreviation loop := (classify_loop cfg base_validate_json).
Local Abbreviation extract llm fgs genre served :=
  (json_prompt (fmt := fmt) (depth_for default_max_tries) llm
     (new_prompt fgs genre) default_max_tries served).

Lemma extract_requests llm fgs g served o p' served' :
  extract llm fgs g served = (o, p', served') →
  ∃ sent,
    served' = served ++ sent
    ∧ (length sent ≤ 20)%nat
    ∧ (o ≠ OutOfFuel → (1 ≤ length sent)%nat)
    ∧ Forall (request_for (fmt := fmt) llm (task_text fgs g)) sent.
Proof.
  intros H.
  assert (H20 : 0 ≤ default_max_tries) by (unfold default_max_tries; lia).
  destruct (json_prompt_counts _ _ _ _ _ _ _ _ H20 H)
    as (sent & added & Hs & _ & Hle & _ & Hmod & _ & Hone).
  destruct (json_prompt_appends _ _ _ _ _ _ _ _ H)
    as (added' & sent' & Hm' & Hroles & Hs' & Hshape & _).
  assert (sent' = sent) as -> by (apply (app_inv_head served); congruence).
  exists sent. split_and!; [done | exact Hle | |].
  - intros Ho. apply Hone; [unfold default_max_tries; lia | done].
  - apply Forall_forall. intros r Hr.
    rewrite Forall_forall in Hmod, Hshape.
    split; [by apply Hmod |].
    destruct (Hshape r Hr) as (shown & [rest ->] & Hshown).
    exists shown. split; [exact Hshown |].
    by apply Forall_app in Hroles as [? _].
Qed.

Lemma loop_requests llm fgs items :
  ∀ acc served o served',
    loop llm fgs items acc served = (o, served') →
    ∃ sent,
      served' = served ++ sent
      ∧ (length sent ≤ 20 * length items)%nat
      ∧ (∀ m, o = Returned m → (length items ≤ length sent)%nat)
      ∧ Forall (λ r, ∃ g, g ∈ items
                     ∧ request_for (fmt := fmt) llm (task_text fgs g) r) sent.
Proof.
  induction items as [|g items IH]; intros acc served o served' H.
  - injection H as <- <-. exists []. rewrite app_nil_r.
    split_and!; [done | cbn; lia | intros; cbn; lia | constructor].
  - rewrite loop_cons in H.
    destruct (extract llm fgs g served) as [[o1 p1] served1] eqn:E.
    destruct (extract_requests _ _ _ _ _ _ _ E) as (sent1 & -> & Hle1 & Hone1 & Hshape1).
    assert (Hhere : Forall (λ r, ∃ g', g' ∈ g :: items
              ∧ request_for (fmt := fmt) llm (task_text fgs g') r) sent1).
    { eapply Forall_impl; [exact Hshape1 |]. intros r Hr. exists g. split; [left | done]. }
    assert (Hstep : (1 ≤ length sent1)%nat →
      ∀ acc', loop llm fgs items acc' (served ++ sent1) = (o, served') →
      ∃ sent,
        served' = served ++ sent
        ∧ (length sent ≤ 20 * length (g :: items))%nat
        ∧ (∀ m, o = Returned m → (length (g :: items) ≤ length sent)%nat)
        ∧ Forall (λ r, ∃ g', g' ∈ g :: items
                       ∧ request_for (fmt := fmt) llm (task_text fgs g') r) sent).
    { intros H1 acc' H'. apply IH in H' as (sent2 & -> & Hle2 & Hret2 & Hshape2).
      exists (sent1 ++ sent2). split_and!.
      - by rewrite app_assoc.
      - rewrite length_app. cbn [length]. lia.
      - intros m Hm. specialize (Hret2 m Hm). rewrite length_app. cbn [length]. lia.
      - apply Forall_app. split; [done |].
        eapply Forall_impl; [exact Hshape2 |].
        intros r (g' & Hg' & Hr). exists g'. split; [by right | done]. }
    destruct o1 as [[out|]|e|].
    + apply Hstep in H; [done | by apply Hone1].
    + apply Hstep in H; [done | by apply Hone1].
    + injection H as <- <-. exists sent1.
      split_and!; [done | cbn [length]; lia | done | done].
    + injection H as <- <-. exists sent1.
      split_and!; [done | cbn [length]; lia | done | done].
Qed.

Lemma conversations_empty llm fgs items :
  ∀ served, conversations cfg base_validate_json llm fgs items served [].
Proof.
  induction items as [|g items IH]; intros served; [constructor |].
  apply (conversations_cons cfg base_validate_json llm fgs g items served [] []);
    [constructor | apply IH].
Qed.

Lemma extract_own llm fgs g served o p' served' :
  extract llm fgs g served = (o, p', served') →
  ∃ run, served' = served ++ run
         ∧ Forall (own_request cfg base_validate_json llm fgs g served) run.
Proof.
  intros H.
  apply (json_prompt_own _ _ (new_prompt fgs g) served 0%nat) in H; [done | constructor].
Qed.

Lemma loop_conversations llm fgs items :
  ∀ acc served o served',
    loop llm fgs items acc served = (o, served') →
    ∃ sent, served' = served ++ sent
            ∧ conversations cfg base_validate_json llm fgs items served sent.
Proof.
  induction items as [|g items IH]; intros acc served o served' H.
  - injection H as <- <-. exists []. rewrite app_nil_r. split; [done | constructor].
  - rewrite loop_cons in H.
    destruct (extract llm fgs g served) as [[o1 p1] served1] eqn:E.
    destruct (extract_own _ _ _ _ _ _ _ E) as (run & -> & Hrun).
    assert (Hstep : ∀ acc', loop llm fgs items acc' (served ++ run) = (o, served') →
      ∃ sent, served' = served ++ sent
              ∧ conversations cfg base_validate_json llm fgs (g :: items) served sent).
    { intros acc' H'. apply IH in H' as (sent2 & -> & Hc2).
      exists (run ++ sent2). split; [by rewrite app_assoc | by constructor]. }
    assert (Hstop : ∃ sent, served ++ run = served ++ sent
              ∧ conversations cfg base_validate_json llm fgs (g :: items) served sent).
    { exists run. split; [done |]. rewrite <- (app_nil_r run).
      constructor; [done | apply conversations_empty]. }
    destruct o1 as [[out|]|e|].
    + by apply Hstep in H.
    + by apply Hstep in H.
    + by injection H as <- <-.
    + by injection H as <- <-.
Qed.

(** What a request of an item's own conversation shows. *)
Lemma own_request_shows llm fgs g served0 r :
  own_request cfg base_validate_json llm fgs g served0 r →
  req_model r = model llm
  ∧ ∃ rounds,
      req_messages r
      = {| role := system; content := system_msg (fmt := fmt) |}
        :: {| role := user; content := task_text fgs g |}
        :: concat (exchange <$> rounds)
      ∧ Forall (λ round, parse_response (fmt := fmt) round.1 = ValueError round.2) rounds.
Proof.
  intros (k & p & served & Hr & ->). split; [done |].
  destruct (rejected_rounds _ _ _ _ _ _ Hr) as (rounds & Hm & _ & Hall).
  exists rounds. split; [|done].
  cbn [request req_messages]. unfold build_prompt. by rewrite Hm.
Qed.

End BatchMore.

(** X4. A batch over [n] items sends at most [20 n] requests, whatever the
    backend does, and at least [n] when it returns a dict. *)
Theorem classify_genres_request_bound (cfg : Config)
    (base_validate_json : string → Parsed ClassifyGenreOutput)
    (all_genres fgs : list string) (llm : LLMConnector) (served served' : list Request)
    (o : Outcome (gmap string (option string))) :
  classify_genres cfg base_validate_json all_genres fgs llm served = (o, served') →
  ∃ sent,
    served' = served ++ sent
    ∧ (length sent ≤ 20 * length all_genres)%nat
    ∧ (∀ m, o = Returned m → (length all_genres ≤ length sent)%nat).
Proof.
  intros H. unfold classify_genres in H.
  apply loop_requests in H as (sent & ? & ? & ? & _). by exists sent.
Qed.

Lemma classify_genres_request_bound_witness :
  let self := Sample.llm [Reply (Sample.answer "guitars" "Rock")] (Reply "no idea") in
  ∃ o served',
    classify_genres Sample.cfg Sample.validate_json
      ["shoegaze"; "k-pop"] ["rock"; "pop"] self [] = (o, served')
    ∧ ∃ sent,
        served' = [] ++ sent
        ∧ (length sent ≤ 20 * length ["shoegaze"; "k-pop"])%nat
        ∧ (∀ m, o = Returned m → (length ["shoegaze"; "k-pop"] ≤ length sent)%nat).
Proof.
  intros self.
  destruct (classify_genres Sample.cfg Sample.validate_json
              ["shoegaze"; "k-pop"] ["rock"; "pop"] self []) as [o served'] eqn:E.
  exists o, served'. split; [reflexivity |].
  exact (classify_genres_request_bound Sample.cfg Sample.validate_json
           ["shoegaze"; "k-pop"] ["rock"; "pop"] self [] served' o E).
Defined.

(** X5. No conversation crosses items.  The requests of a batch split
    into one run per item, in the order of the items, and every request of a
    run belongs to that item's own conversation: it goes to the connector's
    model and shows the system message, then the task message of that item,
    then nothing but the replies the backend gave to the earlier requests of
    the same run, each followed by the correction for the error that reply
    raised.  No message of another item's conversation is ever shown. *)
Theorem classify_genres_fresh_conversations (cfg : Config)
    (base_validate_json : string → Parsed ClassifyGenreOutput)
    (all_genres fgs : list string) (llm : LLMConnector) (served served' : list Request)
    (o : Outcome (gmap string (option string))) :
  classify_genres cfg base_validate_json all_genres fgs llm served = (o, served') →
  ∃ sent,
    served' = served ++ sent
    ∧ Forall (λ r, ∃ g, g ∈ all_genres
                   ∧ request_for (fmt := classify_format cfg base_validate_json)
                       llm (task_text fgs g) r) sent
    ∧ conversations cfg base_validate_json llm fgs all_genres served sent
    ∧ (∀ g served0 r,
         own_request cfg base_validate_json llm fgs g served0 r →
         req_model r = model llm
         ∧ ∃ rounds,
             req_messages r
             = {| role := system;
                  content := system_msg (fmt := classify_format cfg base_validate_json) |}
               :: {| role := user; content := task_text fgs g |}
               :: concat (exchange <$> rounds)
             ∧ Forall (λ round,
                 parse_response (fmt := classify_format cfg base_validate_json) round.1
                 = ValueError round.2) rounds).
Proof.
  intros H. unfold classify_genres in H.
  destruct (loop_requests _ _ _ _ _ _ _ _ _ H) as (sent & Hs & _ & _ & Hshape).
  destruct (loop_conversations _ _ _ _ _ _ _ _ _ H) as (sent' & Hs' & Hconv).
  assert (sent' = sent) as -> by (apply (app_inv_head served); congruence).
  exists sent. split_and!; [done | done | done |].
  intros g served0 r. apply own_request_shows.
Qed.

Lemma classify_genres_fresh_conversations_witness :
  let self := Sample.llm [Reply (Sample.answer "guitars" "Rock")] (Reply "no idea") in
  ∃ o served',
    classify_genres Sample.cfg Sample.validate_json
      ["shoegaze"; "k-pop"] ["rock"; "pop"] self [] = (o, served')
    ∧ ∃ sent,
        served' = [] ++ sent
        ∧ conversations Sample.cfg Sample.validate_json self ["rock"; "pop"]
            ["shoegaze"; "k-pop"] [] sent.
Proof.
  intros self.
  destruct (classify_genres Sample.cfg Sample.validate_json
              ["shoegaze"; "k-pop"] ["rock"; "pop"] self []) as [o served'] eqn:E.
  exists o, served'. split; [reflexivity |].
  destruct (classify_genres_fresh_conversations Sample.cfg Sample.validate_json
              ["shoegaze"; "k-pop"] ["rock"; "pop"] self [] served' o E)
    as (sent & Hs & _ & Hconv & _).
  by exists sent.
Defined.

(** X6. Items are handled in input order and a later occurrence of an item
    overwrites its entry: when the items before [g] gave the dict [acc], the
    batch extended by [g] gives [acc] with [g] set to the outcome of this
    extraction, whatever [acc] held for [g]. *)
Theorem classify_genres_last_wins (cfg : Config)
    (base_validate_json : string → Parsed ClassifyGenreOutput)
    (pre fgs : list string) (g : string) (llm : LLMConnector)
    (served served1 served2 : list Request) (acc : gmap string (option string))
    (o : option ClassifyGenreOutput) (p' : JsonPrompt ClassifyGenreOutput) :
  classify_genres cfg base_validate_json pre fgs llm served = (Returned acc, served1) →
  json_prompt (fmt := classify_format cfg base_validate_json)
    (depth_for default_max_tries) llm (new_prompt fgs g) default_max_tries served1
  = (Returned o, p', served2) →
  classify_genres cfg base_validate_json (pre ++ [g]) fgs llm served
  = (Returned (<[g := fundamental_genre <$> o]> acc), served2)
  ∧ (<[g := fundamental_genre <$> o]> acc) !! g = Some (fundamental_genre <$> o)
  ∧ ∀ g', g' ≠ g → (<[g := fundamental_genre <$> o]> acc) !! g' = acc !! g'.
Proof.
  intros Hpre Hg. split_and!.
  - unfold classify_genres in *. rewrite loop_app, Hpre.
    destruct o as [out|].
    + rewrite (loop_some _ _ _ _ _ _ _ _ _ _ _ Hg). reflexivity.
    + rewrite (loop_none _ _ _ _ _ _ _ _ _ _ Hg). reflexivity.
  - apply lookup_insert_eq.
  - intros g' Hne. by apply lookup_insert_ne.
Qed.

Lemma classify_genres_last_wins_witness :
  let self := Sample.llm [Reply (Sample.answer "guitars" "Rock");
                          Reply (Sample.answer "hooks" "POP")] (Reply "no idea") in
  let p := new_prompt ["rock"; "pop"] "indie" in
  let first := request (fmt := Sample.format) self p in
  classify_genres Sample.cfg Sample.validate_json (["indie"] ++ ["indie"])
    ["rock"; "pop"] self []
  = (Returned (<["indie" := Some "pop"]> (<["indie" := Some "rock"]> ∅)),
     [first] ++ [first]).
Proof.
  intros self p first.
  assert (H1 : classify_genres Sample.cfg Sample.validate_json ["indie"]
                 ["rock"; "pop"] self []
               = (Returned (<["indie" := Some "rock"]> ∅), [first])).
  { unfold classify_genres.
    rewrite (loop_some Sample.cfg Sample.validate_json self ["rock"; "pop"] "indie" []
               ∅ [] {| reason := "guitars"; fundamental_genre := "rock" |}
               (add_msg p (reply_msg (Sample.answer "guitars" "Rock"))) [first]);
      [reflexivity |].
    apply (json_prompt_accept (fmt := Sample.format) _ self p default_max_tries []
             (Sample.answer "guitars" "Rock"));
      [done | reflexivity | reflexivity]. }
  assert (H2 : json_prompt (fmt := Sample.format) (depth_for default_max_tries) self p
                 default_max_tries [first]
               = (Returned (Some {| reason := "hooks"; fundamental_genre := "pop" |}),
                  add_msg p (reply_msg (Sample.answer "hooks" "POP")),
                  [first] ++ [first])).
  { apply (json_prompt_accept (fmt := Sample.format) _ self p default_max_tries [first]
             (Sample.answer "hooks" "POP"));
      [done | reflexivity | reflexivity]. }
  exact (proj1 (classify_genres_last_wins Sample.cfg Sample.validate_json
           ["indie"] ["rock"; "pop"] "indie" self [] [first] ([first] ++ [first])
           (<["indie" := Some "rock"]> ∅)
           (Some {| reason := "hooks"; fundamental_genre := "pop" |})
           (add_msg p (reply_msg (Sample.answer "hooks" "POP"))) H1 H2)).
Defined.

(** ** Editing the stored conversation *)

Section PromptEditing.

Context {T : Type}.
Implicit Types (p : JsonPrompt T) (m : Message).

Lemma prompt_eta p :
  {| output_format := output_format p; system_prompt := system_prompt p;
     msgs := msgs p |} = p.
Proof. by destruct p. Qed.

Lemma snoc_cases {A : Type} (l : list A) : l = [] ∨ ∃ l' x, l = l' ++ [x].
Proof.
  induction l as [|a l IH] using rev_ind; [by left | right; eauto].
Qed.

Lemma pop_last_snoc p l m :
  msgs p = l ++ [m] →
  pop_last p = Some {| output_format := output_format p;
                       system_prompt := system_prompt p; msgs := l |}.
Proof.
  intros H. unfold pop_last. rewrite H, removelast_last.
  by destruct l.
Qed.

Lemma add_to_last_snoc p l m text :
  msgs p = l ++ [m] →
  add_to_last p text
  = Some {| output_format := output_format p; system_prompt := system_prompt p;
            msgs := l ++ [ {| role := role m; content := content m +:+ text |} ] |}.
Proof.
  intros H. unfold add_to_last. by rewrite H, last_snoc, removelast_last.
Qed.

End PromptEditing.

(** X7. [pop_last] undoes [add_msg], and [pop_add] replaces the last message
    and nothing else: the conversation keeps its length and its earlier
    messages.  On an empty conversation both raise ([IndexError]). *)
Theorem pop_add_replaces_last {T : Type} (p : JsonPrompt T) (m : Message) :
  (msgs p = [] → pop_last p = None ∧ pop_add p m = None)
  ∧ (∀ m0, pop_last (add_msg p m0) = Some p
           ∧ pop_add (add_msg p m0) m = Some (add_msg p m))
  ∧ (∀ p', pop_add p m = Some p' →
       length (msgs p') = length (msgs p)
       ∧ last (msgs p') = Some m
       ∧ removelast (msgs p') = removelast (msgs p)
       ∧ output_format p' = output_format p
       ∧ system_prompt p' = system_prompt p).
Proof.
  split_and!.
  - intros H. unfold pop_add, pop_last. by rewrite H.
  - intros m0.
    assert (H : pop_last (add_msg p m0) = Some p).
    { rewrite (pop_last_snoc _ (msgs p) m0) by done. cbn. by rewrite prompt_eta. }
    split; [exact H |]. unfold pop_add. by rewrite H.
  - intros p' H. unfold pop_add in H.
    destruct (snoc_cases (msgs p)) as [Hnil | (l & x & Hl)].
    + unfold pop_last in H. by rewrite Hnil in H.
    + rewrite (pop_last_snoc _ l x Hl) in H. injection H as <-.
      cbn [add_msg msgs output_format system_prompt].
      rewrite Hl, !length_app, last_snoc, !removelast_last. done.
Qed.

Lemma pop_add_replaces_last_witness :
  let p := add_msg (new_prompt ["rock"; "pop"] "shoegaze") (reply_msg "rock?") in
  let m := reply_msg (Sample.answer "x" "rock") in
  pop_add p m = Some (add_msg (new_prompt ["rock"; "pop"] "shoegaze") m)
  ∧ length (msgs (add_msg (new_prompt ["rock"; "pop"] "shoegaze") m)) = length (msgs p).
Proof.
  intros p m. split; [reflexivity |].
  apply (proj2 (proj2 (pop_add_replaces_last p m))). reflexivity.
Defined.

(** X8. [add_to_last] extends the text of the last message and changes
    nothing else: same length, same roles, same earlier messages.  Two calls
    in a row amount to one call with the two texts joined, and the call
    raises exactly on an empty conversation. *)
Theorem add_to_last_extends_text {T : Type} (p : JsonPrompt T) (text : string) :
  (add_to_last p text = None ↔ msgs p = [])
  ∧ (∀ m, add_to_last (add_msg p m) text
          = Some (add_msg p {| role := role m; content := content m +:+ text |}))
  ∧ (∀ p', add_to_last p text = Some p' →
       length (msgs p') = length (msgs p)
       ∧ role <$> msgs p' = role <$> msgs p
       ∧ removelast (msgs p') = removelast (msgs p)
       ∧ (content <$> last (msgs p')) = ((λ m, content m +:+ text) <$> last (msgs p))
       ∧ ∀ more, add_to_last p' more = add_to_last p (text +:+ more)).
Proof.
  split_and!.
  - destruct (snoc_cases (msgs p)) as [Hnil | (l & x & Hl)].
    + unfold add_to_last. by rewrite Hnil.
    + rewrite (add_to_last_snoc _ l x text Hl). rewrite Hl.
      split; [done | by destruct l].
  - intros m. by rewrite (add_to_last_snoc _ (msgs p) m).
  - intros p' H.
    destruct (snoc_cases (msgs p)) as [Hnil | (l & x & Hl)].
    + unfold add_to_last in H. by rewrite Hnil in H.
    + rewrite (add_to_last_snoc _ l x text Hl) in H. injection H as <-.
      cbn [msgs]. rewrite Hl, !length_app, !fmap_app, !last_snoc, !removelast_last.
      split_and!; try done.
      intros more.
      erewrite (add_to_last_snoc _ l {| role := role x; content := content x +:+ text |}
                  more); [|reflexivity].
      rewrite (add_to_last_snoc _ l x (text +:+ more) Hl).
      cbn [role content output_format system_prompt]. by rewrite app_assoc_s.
Qed.

Lemma add_to_last_extends_text_witness :
  let p := add_msg (new_prompt ["rock"; "pop"] "shoegaze") (reply_msg "rock") in
  add_to_last p "?" = Some (add_msg (new_prompt ["rock"; "pop"] "shoegaze")
                              (reply_msg "rock?"))
  ∧ ∀ more, add_to_last (add_msg (new_prompt ["rock"; "pop"] "shoegaze")
                           (reply_msg "rock?")) more
            = add_to_last p ("?" +:+ more).
Proof.
  intros p. split; [reflexivity |].
  apply (proj2 (proj2 (add_to_last_extends_text p "?"))). reflexivity.
Defined.

(** ** Splitting and joining *)

Section SplitJoin.

Variable sep : ascii.

Local Abbreviation nosep := (λ x : string, PyStr.has_char sep x = false).

Lemma split_cons_sep (s : string) :
  PyText.split sep (String sep s) = "" :: PyText.split sep s.
Proof. cbn [PyText.split]. by rewrite Ascii.eqb_refl. Qed.

Lemma split_nonempty (s : string) : ∃ piece pieces, PyText.split sep s = piece :: pieces.
Proof.
  induction s as [|c s (piece & pieces & IH)]; [by eexists _, _ |].
  cbn [PyText.split]. destruct (Ascii.eqb c sep); [by eexists _, _ |].
  rewrite IH. by eexists _, _.
Qed.

Lemma split_cons_other (c : ascii) (s piece : string) (pieces : list string) :
  c ≠ sep → PyText.split sep s = piece :: pieces →
  PyText.split sep (String c s) = String c piece :: pieces.
Proof.
  intros Hc H. cbn [PyText.split]. rewrite H.
  by destruct (Ascii.eqb_spec c sep).
Qed.

Lemma split_nosep (s : string) : nosep s → PyText.split sep s = [s].
Proof.
  induction s as [|c s IH]; [done |].
  intros [Hc Hs]%has_char_cons_false.
  by rewrite (split_cons_other c s s []); [| | apply IH].
Qed.

Lemma split_app (a b : string) :
  PyText.split sep (a +:+ String sep b) = PyText.split sep a ++ PyText.split sep b.
Proof.
  induction a as [|c a IH].
  - rewrite app_nil_s. apply split_cons_sep.
  - rewrite app_cons_s. destruct (Ascii.eqb_spec c sep) as [->|Hc].
    + by rewrite !split_cons_sep, IH.
    + destruct (split_nonempty a) as (piece & pieces & Ha).
      rewrite (split_cons_other c a piece pieces Hc Ha).
      rewrite (split_cons_other c _ piece (pieces ++ PyText.split sep b) Hc); [done |].
      by rewrite IH, Ha.
Qed.

Lemma join_cons2 (x y : string) (l : list string) :
  PyText.join (String sep "") (x :: y :: l)
  = x +:+ String sep (PyText.join (String sep "") (y :: l)).
Proof. reflexivity. Qed.

Lemma join_split (s : string) : PyText.join (String sep "") (PyText.split sep s) = s.
Proof.
  induction s as [|c s IH]; [done |].
  destruct (split_nonempty s) as (piece & pieces & Hs). rewrite Hs in IH.
  destruct (Ascii.eqb_spec c sep) as [->|Hc].
  - rewrite split_cons_sep, Hs, join_cons2, IH. done.
  - rewrite (split_cons_other c s piece pieces Hc Hs).
    destruct pieces as [|y pieces].
    + cbn in IH |- *. by rewrite IH.
    + rewrite join_cons2 in IH |- *. by rewrite app_cons_s, IH.
Qed.

Lemma split_join (l : list string) :
  l ≠ [] → Forall nosep l → PyText.split sep (PyText.join (String sep "") l) = l.
Proof.
  induction l as [|x l IH]; [done |]. intros _ [Hx Hl]%Forall_cons.
  destruct l as [|y l]; [by apply split_nosep |].
  rewrite join_cons2, split_app, (split_nosep x Hx), IH by done. done.
Qed.

Lemma split_pieces_nosep (s : string) : Forall nosep (PyText.split sep s).
Proof.
  induction s as [|c s IH]; [by repeat constructor |].
  destruct (split_nonempty s) as (piece & pieces & Hs). rewrite Hs in IH.
  apply Forall_cons in IH as [Hp Hps].
  destruct (Ascii.eqb_spec c sep) as [->|Hc].
  - rewrite split_cons_sep, Hs. by repeat constructor.
  - rewrite (split_cons_other c s piece pieces Hc Hs).
    constructor; [|done]. apply has_char_cons_false. split; [congruence | done].
Qed.

(** The text after the last separator. *)
Lemma last_sep (s : string) :
  PyStr.has_char sep s = true →
  ∃ pre seg, s = pre +:+ String sep seg ∧ nosep seg.
Proof.
  induction s as [|c s IH]; [done |]. intros H.
  destruct (PyStr.has_char sep s) eqn:Hs.
  - destruct (IH eq_refl) as (pre & seg & -> & Hseg).
    by exists (String c pre), seg.
  - cbn [PyStr.has_char] in H. rewrite Hs, orb_false_r in H.
    apply Ascii.eqb_eq in H as <-. by exists "", s.
Qed.

Lemma index_last_split (s : string) :
  ∃ seg, PyList.index_last (PyText.split sep s) = Ok seg
         ∧ nosep seg
         ∧ (s = seg ∨ ∃ pre, s = pre +:+ String sep seg).
Proof.
  destruct (PyStr.has_char sep s) eqn:Hs.
  - destruct (last_sep s Hs) as (pre & seg & -> & Hseg).
    exists seg. split_and!; [| done | right; by exists pre].
    unfold PyList.index_last.
    by rewrite split_app, (split_nosep seg Hseg), last_snoc.
  - exists s. split_and!; [| done | by left].
    unfold PyList.index_last. by rewrite (split_nosep s Hs).
Qed.

End SplitJoin.

(** ** From history records to database rows *)

Section Conversions.
Import Persistence Store.

Lemma valid_span_fields (s : SpotifySongSpan) :
  valid_span s = true ↔
  ∃ uri name artist album,
    spotify_track_uri s = Some uri
    ∧ master_metadata_track_name s = Some name
    ∧ master_metadata_album_artist_name s = Some artist
    ∧ master_metadata_album_album_name s = Some album.
Proof.
  unfold valid_span.
  destruct (spotify_track_uri s), (master_metadata_track_name s),
    (master_metadata_album_artist_name s), (master_metadata_album_album_name s);
    cbn; split; try done; try (intros (? & ? & ? & ? & ? & ? & ? & ?); done).
  intros _. by eexists _, _, _, _.
Qed.

End Conversions.

(** X9. [valid_span] is exactly the condition under which
    [DBSong.from_spotify_song_span] passes its assertion, and then
    [DBPlay.from_spotify_song_span] passes too, with the same track id, the
    span's [ts] and [ms_played], and no [play_id].  The track id is the text
    after the last colon of the URI (the whole URI when it has none) and has
    no colon in it; neither conversion can fail on the index. *)
Theorem span_conversions (s : Persistence.SpotifySongSpan) :
  (Store.valid_span s = true ↔ ∃ song, Store.DBSong_from_spotify_song_span s = Ok song)
  ∧ (is_Some (Persistence.spotify_track_uri s)
     ↔ ∃ play, Store.DBPlay_from_spotify_song_span s = Ok play)
  ∧ (∀ song, Store.DBSong_from_spotify_song_span s = Ok song →
       ∃ uri play,
         Persistence.spotify_track_uri s = Some uri
         ∧ Store.DBPlay_from_spotify_song_span s = Ok play
         ∧ Store.play_track_id play = Store.track_id song
         ∧ Store.play_ts play = Persistence.ts s
         ∧ Store.play_ms_played play = Persistence.ms_played s
         ∧ Store.play_id play = None
         ∧ PyStr.has_char ":" (Store.track_id song) = false
         ∧ (uri = Store.track_id song
            ∨ ∃ pre, uri = pre +:+ String ":" (Store.track_id song)))
  ∧ Store.DBSong_from_spotify_song_span s ≠ Err IndexError
  ∧ Store.DBPlay_from_spotify_song_span s ≠ Err IndexError.
Proof.
  unfold Store.DBSong_from_spotify_song_span, Store.DBPlay_from_spotify_song_span.
  rewrite valid_span_fields.
  destruct (Persistence.spotify_track_uri s) as [uri|];
    [|split_and!; try done;
      [split; [by intros (? & ? & ? & ? & ? & _) | by intros [? ?]]
      | split; [by intros [? ?] | by intros [? ?]]]].
  destruct (index_last_split ":" uri) as (seg & Hseg & Hno & Hshape).
  rewrite Hseg. cbn [try_bind].
  destruct (Persistence.master_metadata_track_name s) as [name|],
    (Persistence.master_metadata_album_artist_name s) as [artist|],
    (Persistence.master_metadata_album_album_name s) as [album|];
    (split_and!; [| by (split; eauto) | | done | done]);
    try (split; [by intros (? & ? & ? & ? & ? & ? & ? & ?) | by intros [? ?]]);
    try done.
  - split; [eauto | intros _; by eexists _, _, _, _].
  - intros song [= <-]. eexists _, _. split_and!; try done.
Qed.

Lemma span_conversions_witness :
  let s := Fixtures.played 10 "spotify:track:a1" "a" in
  let song := {| Store.track_id := "a1"; Store.track_name := "a";
                 Store.album_artist_name := "artist"; Store.album_name := "album" |} in
  Store.DBSong_from_spotify_song_span s = Ok song
  ∧ ∃ uri play,
      Persistence.spotify_track_uri s = Some uri
      ∧ Store.DBPlay_from_spotify_song_span s = Ok play
      ∧ Store.play_track_id play = Store.track_id song
      ∧ Store.play_ts play = Persistence.ts s
      ∧ Store.play_ms_played play = Persistence.ms_played s
      ∧ Store.play_id play = None
      ∧ PyStr.has_char ":" (Store.track_id song) = false
      ∧ (uri = Store.track_id song
         ∨ ∃ pre, uri = pre +:+ String ":" (Store.track_id song)).
Proof.
  intros s song. split; [reflexivity |].
  apply (proj1 (proj2 (proj2 (span_conversions s))) song). reflexivity.
Defined.

(** X10. The artist ids read back from [spotipy_songs] are distinct, and
    when no artist id has a comma in it they are exactly the artist ids of
    the stored tracks, plus the empty text when some track has no artist
    (its empty [artist_ids_csv] splits into one empty id). *)
Theorem artist_ids_of_tracks (tracks : list LoadData.Track) :
  Forall (λ t, Forall (λ a, PyStr.has_char "," a = false) (LoadData.artists t)) tracks →
  NoDup (Store.get_all_artist_ids (LoadData.song_of_track <$> tracks))
  ∧ ∀ x, x ∈ Store.get_all_artist_ids (LoadData.song_of_track <$> tracks)
         ↔ (∃ t, t ∈ tracks ∧ x ∈ LoadData.artists t)
           ∨ (x = "" ∧ ∃ t, t ∈ tracks ∧ LoadData.artists t = []).
Proof.
  intros Hok. unfold Store.get_all_artist_ids. split; [apply NoDup_elements |].
  intros x. rewrite elem_of_elements, elem_of_list_to_set, list_elem_of_bind.
  rewrite Forall_forall in Hok.
  assert (Hcsv : ∀ t, t ∈ tracks →
    PyText.split "," (PyText.join "," (LoadData.artists t))
    = match LoadData.artists t with [] => [""] | l => l end).
  { intros t Ht. destruct (LoadData.artists t) as [|a l] eqn:E; [done |].
    apply (split_join "," (a :: l)); [done |]. rewrite <- E. by apply Hok. }
  split.
  - intros (csv & Hx & Hcsv').
    apply list_elem_of_fmap in Hcsv' as (row & -> & Hrow).
    apply list_elem_of_fmap in Hrow as (t & -> & Ht).
    cbn [LoadData.song_of_track Store.artist_ids_csv] in Hx.
    rewrite (Hcsv t Ht) in Hx.
    destruct (LoadData.artists t) as [|a l] eqn:E.
    + right. apply list_elem_of_singleton in Hx. split; [exact Hx |].
      exists t. split; [exact Ht | exact E].
    + left. exists t. split; [exact Ht | by rewrite E].
  - intros [(t & Ht & Hx) | (-> & t & Ht & Hnil)].
    + exists (PyText.join "," (LoadData.artists t)). split.
      * rewrite (Hcsv t Ht). destruct (LoadData.artists t) as [|a l]; [|exact Hx].
        by apply not_elem_of_nil in Hx.
      * apply list_elem_of_fmap. exists (LoadData.song_of_track t). split; [done |].
        apply list_elem_of_fmap. eauto.
    + exists (PyText.join "," (LoadData.artists t)). split.
      * rewrite (Hcsv t Ht), Hnil. by apply list_elem_of_singleton.
      * apply list_elem_of_fmap. exists (LoadData.song_of_track t). split; [done |].
        apply list_elem_of_fmap. eauto.
Qed.

Lemma artist_ids_of_tracks_witness :
  let tracks := [Fixtures.track "t1" ["ar1"; "ar2"]; Fixtures.track "t2" [];
                 Fixtures.track "t3" ["ar2"]] in
  Forall (λ t, Forall (λ a, PyStr.has_char "," a = false) (LoadData.artists t)) tracks
  ∧ "" ∈ Store.get_all_artist_ids (LoadData.song_of_track <$> tracks)
  ∧ NoDup (Store.get_all_artist_ids (LoadData.song_of_track <$> tracks)).
Proof.
  intros tracks.
  assert (Hok : Forall (λ t, Forall (λ a, PyStr.has_char "," a = false)
                                (LoadData.artists t)) tracks).
  { repeat constructor. }
  split; [exact Hok |]. split.
  - apply (proj2 (artist_ids_of_tracks tracks Hok)). right. split; [done |].
    exists (Fixtures.track "t2" []). split; [|done].
    apply list_elem_of_In. simpl. tauto.
  - apply (proj1 (artist_ids_of_tracks tracks Hok)).
Defined.

(** ** Batches *)

Section Batches.

Context {A : Type}.
Implicit Types (l : list A).

(** the batch that starts at position [k * s] *)
Local Abbreviation chunk l s k := (take s (drop (k * s) l)).

Lemma slice_chunk l (size : Z) (k : nat) :
  0 < size → (k * Z.to_nat size < length l)%nat →
  PyList.slice l (0 + Z.of_nat k * size) (0 + Z.of_nat k * size + size)
  = chunk l (Z.to_nat size) k.
Proof.
  intros Hsize Hk. unfold PyList.slice, PyList.clamp.
  destruct (Z.ltb_spec (0 + Z.of_nat k * size) 0) as [|_]; [nia |].
  destruct (Z.ltb_spec (0 + Z.of_nat k * size + size) 0) as [|_]; [nia |].
  replace (Z.to_nat (Z.min (0 + Z.of_nat k * size) (Z.of_nat (length l))))
    with (k * Z.to_nat size)%nat by nia.
  destruct (Z.le_gt_cases (0 + Z.of_nat k * size + size) (Z.of_nat (length l))).
  - f_equal. nia.
  - rewrite !take_ge; [done | rewrite length_drop; nia | rewrite length_drop; nia].
Qed.

Lemma chunks_concat l (s c : nat) :
  concat ((λ k, chunk l s k) <$> seq 0 c) = take (c * s) l.
Proof.
  induction c as [|c IH]; [done |].
  rewrite seq_S, fmap_app, concat_app, IH. cbn [fmap list_fmap concat].
  rewrite app_nil_r, take_take_drop. f_equal. lia.
Qed.

Lemma range_batches (len size : Z) :
  0 ≤ len → 0 < size →
  let c := Z.to_nat ((len - 0 + size - 1) `div` size) in
  PyList.range 0 len size = Ok ((λ k, 0 + Z.of_nat k * size) <$> seq 0 c)
  ∧ len ≤ Z.of_nat c * size
  ∧ (c = 0%nat ∨ (Z.of_nat c - 1) * size < len).
Proof.
  intros Hlen Hsize c. unfold PyList.range.
  destruct (Z.eqb_spec size 0) as [|_]; [lia |].
  destruct (Z.ltb_spec 0 size) as [_|]; [|lia].
  split; [done |].
  pose proof (Z.div_mod (len - 0 + size - 1) size ltac:(lia)) as Hdm.
  pose proof (Z.mod_pos_bound (len - 0 + size - 1) size Hsize) as Hmod.
  assert (0 ≤ (len - 0 + size - 1) `div` size) by (apply Z.div_pos; lia).
  unfold c. rewrite Z2Nat.id by done. split; [nia |].
  destruct (decide ((len - 0 + size - 1) `div` size = 0)) as [->|]; [by left |].
  right. nia.
Qed.

End Batches.

Lemma batch_iter_positive {A : Type} (iterable : list A) (batch_size : Z) :
  0 < batch_size →
  ∃ batches,
    LoadData.batch_iter iterable batch_size = Ok batches
    ∧ concat batches = iterable
    ∧ Forall (λ b, (1 ≤ length b ≤ Z.to_nat batch_size)%nat) batches
    ∧ (∀ i b, (S i < length batches)%nat → batches !! i = Some b →
              length b = Z.to_nat batch_size)
    ∧ Z.of_nat (length batches)
      = (Z.of_nat (length iterable) + batch_size - 1) `div` batch_size.
Proof.
  intros Hsize.
  destruct (range_batches (Z.of_nat (length iterable)) batch_size ltac:(lia) Hsize)
    as (Hrange & Hup & Hlow).
  set (c := Z.to_nat ((Z.of_nat (length iterable) - 0 + batch_size - 1) `div` batch_size))
    in *.
  set (s := Z.to_nat batch_size).
  assert (Hlt : ∀ k, (k < c)%nat → (k * s < length iterable)%nat).
  { intros k Hk. unfold s. destruct Hlow as [Hc | Hlow]; [lia | nia]. }
  assert (Hbatches : LoadData.batch_iter iterable batch_size
                     = Ok ((λ k, take s (drop (k * s) iterable)) <$> seq 0 c)).
  { unfold LoadData.batch_iter. rewrite Hrange. cbn [try_bind]. f_equal.
    rewrite <- list_fmap_compose. apply list_fmap_ext.
    intros i k [-> Hi]%lookup_seq. unfold compose. rewrite Nat.add_0_l.
    apply slice_chunk; [exact Hsize | exact (Hlt i Hi)]. }
  eexists. split; [exact Hbatches |]. split_and!.
  + rewrite chunks_concat. apply take_ge. unfold s. nia.
  + apply Forall_fmap, Forall_seq. intros k [_ Hk]. cbn [compose].
    rewrite length_take, length_drop. specialize (Hlt k ltac:(lia)). unfold s in *. lia.
  + intros i b Hi Hb. rewrite length_fmap, length_seq in Hi.
    rewrite list_lookup_fmap, lookup_seq_lt in Hb by lia.
    injection Hb as <-. rewrite ?Nat.add_0_l, length_take, length_drop.
    specialize (Hlt (S i) Hi). lia.
  + rewrite length_fmap, length_seq. unfold c.
    rewrite Z2Nat.id; [f_equal; lia |].
    apply Z.div_pos; lia.
Qed.

(** X11. With a positive batch size, [batch_iter] cuts the list into
    consecutive batches: joined again they are the list, none is empty, none
    is longer than the batch size, all but the last have exactly that size,
    and there are [ceil(len / batch_size)] of them.  A batch size of zero
    raises; a negative one yields no batch at all. *)
Theorem batch_iter_partitions {A : Type} (iterable : list A) (batch_size : Z) :
  (batch_size = 0 → LoadData.batch_iter iterable batch_size = Err StepZero)
  ∧ (batch_size < 0 → LoadData.batch_iter iterable batch_size = Ok [])
  ∧ (0 < batch_size →
     ∃ batches,
       LoadData.batch_iter iterable batch_size = Ok batches
       ∧ concat batches = iterable
       ∧ Forall (λ b, (1 ≤ length b ≤ Z.to_nat batch_size)%nat) batches
       ∧ (∀ i b, (S i < length batches)%nat → batches !! i = Some b →
                 length b = Z.to_nat batch_size)
       ∧ Z.of_nat (length batches)
         = (Z.of_nat (length iterable) + batch_size - 1) `div` batch_size).
Proof.
  split_and!.
  - intros ->. reflexivity.
  - intros Hneg. unfold LoadData.batch_iter, PyList.range.
    destruct (Z.eqb_spec batch_size 0) as [|_]; [lia |].
    destruct (Z.ltb_spec 0 batch_size) as [|_]; [lia |].
    assert (Hq : (0 - Z.of_nat (length iterable) - batch_size - 1) `div` (- batch_size) ≤ 0).
    { destruct (Z.le_gt_cases 0 (0 - Z.of_nat (length iterable) - batch_size - 1)).
      - rewrite Z.div_small by lia. lia.
      - apply Z.lt_le_incl, Z.div_lt_upper_bound; lia. }
    rewrite Z2Nat.nonpos by exact Hq. done.
  - apply batch_iter_positive.
Qed.

Lemma batch_iter_partitions_witness :
  0 < 3
  ∧ LoadData.batch_iter ["a"; "b"; "c"; "d"; "e"; "f"; "g"] 3
    = Ok [["a"; "b"; "c"]; ["d"; "e"; "f"]; ["g"]]
  ∧ ∃ batches,
      LoadData.batch_iter ["a"; "b"; "c"; "d"; "e"; "f"; "g"] 3 = Ok batches
      ∧ concat batches = ["a"; "b"; "c"; "d"; "e"; "f"; "g"].
Proof.
  split; [lia |]. split; [reflexivity |].
  destruct (proj2 (proj2 (batch_iter_partitions
              ["a"; "b"; "c"; "d"; "e"; "f"; "g"] 3)) ltac:(lia))
    as (batches & H & Hc & _).
  by exists batches.
Defined.

(** ** The history sync *)

Module SyncFacts.
Import Persistence Store LoadData.

Section Dict.

Context {K V : Type} `{EqDecision K}.
Implicit Types (d : list (K * V)).

Lemma dict_set_elem k v d k' v' :
  NoDup d.*1 →
  (k', v') ∈ PyList.dict_set k v d ↔ (k' = k ∧ v' = v) ∨ (k' ≠ k ∧ (k', v') ∈ d).
Proof.
  induction d as [|[k0 v0] d IH]; intros Hnd; cbn [PyList.dict_set].
  - rewrite list_elem_of_singleton. split.
    + intros [= -> ->]. by left.
    + intros [[-> ->] | [_ H]]; [done | by apply not_elem_of_nil in H].
  - apply NoDup_cons in Hnd as [Hk0 Hnd]. destruct (decide (k = k0)) as [<-|Hne].
    + rewrite !elem_of_cons. split.
      * intros [[= -> ->] | H]; [by left |]. right. split; [|by right].
        intros ->. apply Hk0. by apply (list_elem_of_fmap_2 fst) in H.
      * intros [[-> ->] | [Hne [[= -> ->] | H]]]; [by left | done | by right].
    + rewrite !elem_of_cons, IH by done. split.
      * intros [[= -> ->] | [[-> ->] | [? ?]]]; [right | by left | right]; split;
          try done; [by left | by right].
      * intros [[-> ->] | [? [[= -> ->] | ?]]]; [right; by left | by left | right; by right].
Qed.

Lemma dict_set_keys k v d :
  (PyList.dict_set k v d).*1 = if decide (k ∈ d.*1) then d.*1 else d.*1 ++ [k].
Proof.
  induction d as [|[k0 v0] d IH]; cbn [PyList.dict_set fmap list_fmap fst].
  - rewrite decide_False; [done | apply not_elem_of_nil].
  - destruct (decide (k = k0)) as [<-|Hne].
    + rewrite decide_True; [done | by left].
    + cbn [fmap list_fmap fst]. rewrite IH.
      destruct (decide (k ∈ d.*1)) as [Hin | Hout].
      * rewrite decide_True; [done | by right].
      * rewrite decide_False; [done |]. by intros [?|?]%elem_of_cons.
Qed.

Lemma dict_set_nodup k v d : NoDup d.*1 → NoDup (PyList.dict_set k v d).*1.
Proof.
  intros Hnd. rewrite dict_set_keys. destruct (decide (k ∈ d.*1)); [done |].
  apply NoDup_app. split_and!; [done | | apply NoDup_singleton].
  intros x Hx ->%list_elem_of_singleton. done.
Qed.

End Dict.

Section TableFacts.

Context {O : Type}.
Implicit Types (db : DB O).

Lemma insert_song_rows_ok (rows : list DBSong) :
  ∀ table, NoDup (track_id <$> (table ++ rows)) →
    insert_song_rows rows table = Ok (table ++ rows).
Proof.
  induction rows as [|r rows IH]; intros table Hnd; cbn [insert_song_rows].
  - by rewrite app_nil_r.
  - rewrite decide_False.
    + rewrite IH; rewrite <- app_assoc; done.
    + rewrite fmap_app in Hnd. apply NoDup_app in Hnd as (_ & Hdis & _).
      intros Hin. apply (Hdis _ Hin). cbn. by left.
Qed.

Lemma insert_song_rows_returned (rows : list DBSong) :
  ∀ table table', insert_song_rows rows table = Ok table' →
    table' = table ++ rows
    ∧ (NoDup (track_id <$> table) → NoDup (track_id <$> table')).
Proof.
  induction rows as [|r rows IH]; intros table table' H; cbn [insert_song_rows] in H.
  - injection H as <-. by rewrite app_nil_r.
  - destruct (decide (track_id r ∈ track_id <$> table)) as [|Hout]; [done |].
    apply IH in H as [-> Hnd]. split; [by rewrite <- app_assoc |].
    intros Ht. apply Hnd. rewrite fmap_app. apply NoDup_app.
    split_and!; [done | | apply NoDup_singleton].
    intros x Hx ->%list_elem_of_singleton. done.
Qed.

Lemma insert_song_rows_error (rows : list DBSong) :
  ∀ table e, insert_song_rows rows table = Err e →
    e = IntegrityError ∧ ¬ NoDup (track_id <$> (table ++ rows)).
Proof.
  induction rows as [|r rows IH]; intros table e H; cbn [insert_song_rows] in H; [done |].
  destruct (decide (track_id r ∈ track_id <$> table)) as [Hin|Hout].
  - injection H as <-. split; [done |]. rewrite fmap_app.
    intros (_ & Hdis & _)%NoDup_app. apply (Hdis _ Hin). cbn. by left.
  - apply IH in H as [-> Hnd]. by rewrite <- app_assoc in Hnd.
Qed.

Lemma insert_play_rows_ok (rows : list DBPlay) :
  ∀ table ctr,
    Forall (λ r, fits_int64 (play_ms_played r) = true) rows →
    ids_left ctr (length rows) →
    insert_play_rows rows table ctr
    = Ok (table ++ numbered rows ctr, ctr + Z.of_nat (length rows)).
Proof.
  induction rows as [|r rows IH]; intros table ctr Hfit Hids;
    cbn [insert_play_rows numbered].
  - rewrite app_nil_r. do 2 f_equal. cbn. lia.
  - apply Forall_cons in Hfit as [Hr Hfit]. rewrite Hr. cbn [negb].
    unfold ids_left in Hids. cbn [length] in Hids.
    destruct (Z.leb_spec int64_max ctr) as [Hfull|_]; [lia |].
    rewrite IH; [| done | intros Hn; lia].
    rewrite <- app_assoc. do 2 f_equal. cbn [length]. lia.
Qed.

Lemma insert_play_rows_returned (rows : list DBPlay) :
  ∀ table ctr res,
    insert_play_rows rows table ctr = Ok res →
    res = (table ++ numbered rows ctr, ctr + Z.of_nat (length rows))
    ∧ Forall (λ r, fits_int64 (play_ms_played r) = true) rows
    ∧ ids_left ctr (length rows).
Proof.
  induction rows as [|r rows IH]; intros table ctr res H;
    cbn [insert_play_rows numbered] in H |- *.
  - injection H as <-. rewrite app_nil_r.
    split_and!; [| constructor | by intros Hn].
    f_equal. cbn. lia.
  - destruct (fits_int64 (play_ms_played r)) eqn:Hr; [|done]. cbn [negb] in H.
    destruct (Z.leb_spec int64_max ctr) as [|Hctr]; [done |].
    apply IH in H as (-> & Hfit & Hids). split_and!.
    + rewrite <- app_assoc. f_equal. cbn [length]. lia.
    + by constructor.
    + unfold ids_left in *. cbn [length]. intros _.
      destruct rows as [|r' rows]; [cbn; lia |].
      specialize (Hids ltac:(done)). cbn [length] in *. lia.
Qed.

Lemma insert_play_rows_error (rows : list DBPlay) :
  ∀ table ctr e,
    insert_play_rows rows table ctr = Err e →
    (e = OverflowError ∧ ¬ Forall (λ r, fits_int64 (play_ms_played r) = true) rows)
    ∨ (e = OperationalError ∧ ¬ ids_left ctr (length rows)).
Proof.
  induction rows as [|r rows IH]; intros table ctr e H;
    cbn [insert_play_rows] in H; [done |].
  destruct (fits_int64 (play_ms_played r)) eqn:Hr; cbn [negb] in H.
  - destruct (Z.leb_spec int64_max ctr) as [Hfull|Hctr].
    + injection H as <-. right. split; [done |]. unfold ids_left. cbn [length].
      intros Hids. specialize (Hids ltac:(done)). lia.
    + apply IH in H as [[-> Hfit] | [-> Hids]]; [left | right]; split; try done.
      * by intros [_ ?]%Forall_cons.
      * unfold ids_left in *. cbn [length]. intros H. apply Hids. intros _.
        specialize (H ltac:(done)). lia.
  - injection H as <-. left. split; [done |]. intros [? _]%Forall_cons. congruence.
Qed.

Lemma numbered_fields (rows : list DBPlay) (ctr : Z) :
  play_ts <$> numbered rows ctr = play_ts <$> rows
  ∧ play_track_id <$> numbered rows ctr = play_track_id <$> rows
  ∧ play_ms_played <$> numbered rows ctr = play_ms_played <$> rows
  ∧ play_id <$> numbered rows ctr
    = (λ k, Some (ctr + 1 + Z.of_nat k)) <$> seq 0 (length rows).
Proof.
  revert ctr. induction rows as [|r rows IH]; intros ctr; [done |].
  cbn [numbered fmap list_fmap length].
  destruct (IH (ctr + 1)) as (-> & -> & -> & ->).
  split_and!; try done.
  cbn [seq fmap list_fmap]. apply (f_equal2 cons).
  - apply (f_equal Some). lia.
  - rewrite <- fmap_S_seq, <- list_fmap_compose. apply list_fmap_ext.
    intros i k _. unfold compose. apply (f_equal Some). lia.
Qed.

Lemma latest_info_snoc (table : list DBInfo) (r : DBInfo) :
  Forall (λ x, hash_id x < hash_id r) table →
  latest_info (table ++ [r]) = Some r.
Proof.
  induction 1 as [|x table Hx _ IH]; [done |].
  cbn [app latest_info]. rewrite IH.
  by destruct (Z.ltb_spec (hash_id r) (hash_id x)); [lia |].
Qed.

End TableFacts.

Lemma try_map_ok {A B : Type} (f : A → Try B) (l : list A) (ys : list B) :
  try_map f l = Ok ys ↔ Forall2 (λ x y, f x = Ok y) l ys.
Proof.
  revert ys. induction l as [|x l IH]; intros ys; cbn [try_map].
  - split; [intros [= <-]; constructor | by intros ->%Forall2_nil_inv_l].
  - destruct (f x) as [y|e] eqn:Hx; cbn [try_bind].
    + destruct (try_map f l) as [ys'|e] eqn:Hl; cbn [try_bind].
      * split.
        -- intros [= <-]. constructor; [done | by apply IH].
        -- intros (y' & ys'' & Hy & Hys & ->)%Forall2_cons_inv_l.
           apply IH in Hys. congruence.
      * split; [done |].
        intros (y' & ys'' & Hy & Hys & ->)%Forall2_cons_inv_l.
        apply IH in Hys. congruence.
    + split; [done |].
      intros (y' & ys'' & Hy & Hys & ->)%Forall2_cons_inv_l. congruence.
Qed.

Lemma try_map_total {A B : Type} (f : A → Try B) (l : list A) :
  Forall (λ x, ∃ y, f x = Ok y) l → ∃ ys, try_map f l = Ok ys.
Proof.
  induction 1 as [|x l [y Hy] _ [ys IH]]; [by exists [] |].
  exists (y :: ys). cbn [try_map]. by rewrite Hy, IH.
Qed.

(** The track id a conversion gives is the last segment of the URI. *)
Lemma song_segment (s : SpotifySongSpan) (song : DBSong) :
  DBSong_from_spotify_song_span s = Ok song →
  valid_span s = true
  ∧ ∃ uri, spotify_track_uri s = Some uri
           ∧ PyList.index_last (PyText.split ":" uri) = Ok (track_id song).
Proof.
  intros H. split.
  - apply valid_span_fields. unfold DBSong_from_spotify_song_span in H.
    destruct (spotify_track_uri s), (master_metadata_track_name s),
      (master_metadata_album_artist_name s), (master_metadata_album_album_name s);
      try done. by eexists _, _, _, _.
  - unfold DBSong_from_spotify_song_span in H.
    destruct (spotify_track_uri s) as [uri|]; [|done]. exists uri. split; [done |].
    destruct (master_metadata_track_name s), (master_metadata_album_artist_name s),
      (master_metadata_album_album_name s); try done.
    destruct (PyList.index_last (PyText.split ":" uri)) as [seg|]; [|done].
    by injection H as <-.
Qed.

Lemma play_segment (s : SpotifySongSpan) (play : DBPlay) :
  DBPlay_from_spotify_song_span s = Ok play →
  play_ts play = ts s ∧ play_ms_played play = ms_played s ∧ play_id play = None
  ∧ ∃ uri, spotify_track_uri s = Some uri
           ∧ PyList.index_last (PyText.split ":" uri) = Ok (play_track_id play).
Proof.
  unfold DBPlay_from_spotify_song_span.
  destruct (spotify_track_uri s) as [uri|]; [|done].
  destruct (PyList.index_last (PyText.split ":" uri)) as [seg|] eqn:E; [|done].
  intros [= <-]. split_and!; try done. exists uri. by rewrite E.
Qed.

Lemma valid_converts (s : SpotifySongSpan) :
  valid_span s = true →
  (∃ song, DBSong_from_spotify_song_span s = Ok song)
  ∧ (∃ play, DBPlay_from_spotify_song_span s = Ok play).
Proof.
  intros (uri & name & artist & album & Hu & Hn & Ha & Hb)%valid_span_fields.
  unfold DBSong_from_spotify_song_span, DBPlay_from_spotify_song_span.
  rewrite Hu, Hn, Ha, Hb.
  destruct (index_last_split ":" uri) as (seg & -> & _). cbn [try_bind]. eauto.
Qed.

Lemma songs_dict_spec (spans : list SpotifySongSpan) :
  ∀ seen d, dict_of seen d → Forall (λ s, valid_span s = true) spans →
    ∃ d', songs_dict spans d = Ok d' ∧ dict_of (seen ++ spans) d'.
Proof.
  induction spans as [|s spans IH]; intros seen d Hd Hv.
  - exists d. by rewrite app_nil_r.
  - apply Forall_cons in Hv as [Hs Hv].
    destruct (valid_converts s Hs) as [[song Hsong] _].
    cbn [songs_dict]. rewrite Hsong. cbn [try_bind].
    destruct Hd as (Hnd & Hval & Hkeys).
    destruct (IH (seen ++ [s]) (PyList.dict_set (spotify_track_uri s) song d))
      as (d' & Hd' & Hdict); [|done|].
    + split_and!.
      * by apply dict_set_nodup.
      * intros k song' [[-> ->] | [Hne Hin]]%dict_set_elem; [| |done].
        -- exists s. split_and!; [apply elem_of_app; right; by left | done | done].
        -- destruct (Hval k song' Hin) as (s' & ? & ? & ?).
           exists s'. split_and!; [apply elem_of_app; by left | done | done].
      * intros s' [Hs' | ->%list_elem_of_singleton]%elem_of_app;
          rewrite dict_set_keys; destruct (decide (_ ∈ d.*1)) as [Hin | Hout]; try done.
        -- by apply Hkeys.
        -- apply elem_of_app. left. by apply Hkeys.
        -- apply elem_of_app. right. by left.
    + exists d'. split; [done |]. by rewrite <- app_assoc in Hdict.
Qed.

Lemma load_history_no_fuel (dir : list DirEntry) : load_history dir ≠ OutOfFuel.
Proof.
  unfold load_history.
  assert (H : ∀ files acc, load_files files acc ≠ OutOfFuel).
  { induction files as [|f files IH]; intros acc; cbn [load_files]; [done |].
    destruct (data f); [apply IH | done]. }
  destruct (load_files _ []) as [songs | e |] eqn:E; [| done |].
  - by destruct (sort_ts songs).
  - by apply H in E.
Qed.

Lemma nodup_fmap_inj_on {A B : Type} (f : A → B) (l : list A) (x y : A) :
  NoDup (f <$> l) → x ∈ l → y ∈ l → f x = f y → x = y.
Proof.
  induction l as [|a l IH]; intros Hnd Hx Hy Hf; [by apply not_elem_of_nil in Hx |].
  cbn [fmap list_fmap] in Hnd. apply NoDup_cons in Hnd as [Ha Hnd].
  apply elem_of_cons in Hx as [-> | Hx]; apply elem_of_cons in Hy as [-> | Hy].
  - done.
  - exfalso. apply Ha. rewrite Hf. by apply list_elem_of_fmap_2.
  - exfalso. apply Ha. rewrite <- Hf. by apply list_elem_of_fmap_2.
  - by apply IH.
Qed.

Lemma nodup_keys_functional {K V : Type} (d : list (K * V)) (k : K) (a b : V) :
  NoDup d.*1 → (k, a) ∈ d → (k, b) ∈ d → a = b.
Proof.
  intros Hnd Ha Hb.
  assert (H : (k, a) = (k, b)) by (by apply (nodup_fmap_inj_on fst d)).
  by injection H.
Qed.

Lemma strongly_sorted_filter {A : Type} (R : relation A) (P : A → Prop)
    `{∀ x, Decision (P x)} (l : list A) :
  StronglySorted R l → StronglySorted R (filter P l).
Proof.
  induction 1 as [|x l Hl IH Hx]; [constructor |].
  rewrite filter_cons. destruct (decide (P x)); [|done].
  constructor; [done |]. apply Forall_forall.
  intros y [_ Hy]%list_elem_of_filter. rewrite Forall_forall in Hx. by apply Hx.
Qed.

Section Resync.

Context {O : Type}.
Implicit Types (db : DB O).

Local Abbreviation valid := (λ s : SpotifySongSpan, valid_span s = true).

Lemma dict_ids_distinct (v : list SpotifySongSpan) (d : list (option string * DBSong)) :
  dict_of v d → (NoDup (track_id <$> d.*2) ↔ ids_distinct v).
Proof.
  intros (Hnd & Hval & Hkeys). rewrite <- list_fmap_compose. split.
  - intros Hids s1 s2 u1 u2 Hs1 Hs2 Hu1 Hu2 Hseg.
    assert (Hentry : ∀ s u, s ∈ v → spotify_track_uri s = Some u →
      ∃ song, (Some u, song) ∈ d
              ∧ PyList.index_last (PyText.split ":" u) = Ok (track_id song)).
    { intros s u Hs Hu. specialize (Hkeys s Hs). rewrite Hu in Hkeys.
      apply list_elem_of_fmap in Hkeys as ([k song] & Hk & Hin). cbn in Hk. subst k.
      exists song. split; [done |].
      destruct (Hval _ _ Hin) as (s' & _ & Hu' & Hsong).
      apply song_segment in Hsong as (_ & u' & Hu'' & Hseg'). congruence. }
    destruct (Hentry s1 u1 Hs1 Hu1) as (song1 & Hin1 & Hseg1).
    destruct (Hentry s2 u2 Hs2 Hu2) as (song2 & Hin2 & Hseg2).
    assert (H : (Some u1, song1) = (Some u2, song2)).
    { apply (nodup_fmap_inj_on (track_id ∘ snd) d); [done | done | done |].
      cbn. congruence. }
    by injection H.
  - intros Hinj. apply NoDup_fmap_2_strong; [|by apply NoDup_fmap_1 in Hnd].
    intros [k1 song1] [k2 song2] Hin1 Hin2 Hid. cbn in Hid.
    destruct (Hval _ _ Hin1) as (s1 & Hs1 & Hk1 & Hsong1).
    destruct (Hval _ _ Hin2) as (s2 & Hs2 & Hk2 & Hsong2).
    apply song_segment in Hsong1 as (_ & u1 & Hu1 & Hseg1).
    apply song_segment in Hsong2 as (_ & u2 & Hu2 & Hseg2).
    assert (u1 = u2) as -> by (apply (Hinj s1 s2); try done; congruence).
    assert (k1 = k2) as -> by congruence.
    f_equal. by apply (nodup_keys_functional d k2).
Qed.

(** The plays built from the spans carry their values. *)
Lemma plays_of_spans (v : list SpotifySongSpan) (plays0 : list DBPlay) :
  Forall2 (λ s p, DBPlay_from_spotify_song_span s = Ok p) v plays0 →
  length plays0 = length v
  ∧ play_ts <$> plays0 = ts <$> v
  ∧ play_ms_played <$> plays0 = ms_played <$> v
  ∧ (Forall (λ r, fits_int64 (play_ms_played r) = true) plays0 ↔ plays_fit v).
Proof.
  unfold plays_fit.
  induction 1 as [|s p v plays0 Hp _ (IHl & IHt & IHm & IHf)]; [done |].
  apply play_segment in Hp as (Hpts & Hpms & _).
  cbn [fmap list_fmap length]. rewrite IHl, IHt, IHm, Hpts, Hpms.
  split_and!; try done. rewrite !Forall_cons, IHf, Hpms. done.
Qed.

(** The ways a resync ends, with the database each of them leaves. *)
Lemma resync_cases db (h : string) (dir : list DirEntry) :
  (∃ e, load_history dir = Raised e
        ∧ resync db h dir = (Some (Failed e), db_clear_user_data db))
  ∨ (∃ spans d plays0,
       load_history dir = Returned spans
       ∧ dict_of (filter valid spans) d
       ∧ Forall2 (λ s p, DBPlay_from_spotify_song_span s = Ok p)
           (filter valid spans) plays0
       ∧ ((¬ NoDup (track_id <$> d.*2)
           ∧ resync db h dir = (Some IntegrityError, db_clear_user_data db))
          ∨ (NoDup (track_id <$> d.*2)
             ∧ ((∃ e, ((e = OverflowError ∧ ¬ plays_fit (filter valid spans))
                       ∨ (e = OperationalError
                          ∧ ¬ ids_left (plays_seq db) (length (filter valid spans))))
                      ∧ resync db h dir = (Some e, with_songs db d.*2))
                ∨ (plays_fit (filter valid spans)
                   ∧ ids_left (plays_seq db) (length (filter valid spans))
                   ∧ ((int64_max ≤ info_seq db
                       ∧ resync db h dir
                         = (Some OperationalError, with_plays db d.*2 plays0))
                      ∨ (info_seq db < int64_max
                         ∧ resync db h dir = (None, synced db h d.*2 plays0)))))))).
Proof.
  unfold resync.
  destruct (load_history dir) as [spans | e |] eqn:Hload;
    [| left; by exists e | by apply load_history_no_fuel in Hload].
  right.
  assert (Hv : Forall valid (filter valid spans)).
  { apply Forall_forall. by intros s [? _]%list_elem_of_filter. }
  destruct (songs_dict_spec (filter valid spans) [] [])
    as (d & Hd & Hdict); [| exact Hv |].
  { split_and!; [constructor | | ]; intros; by apply not_elem_of_nil in H. }
  destruct (try_map_total DBPlay_from_spotify_song_span (filter valid spans))
    as (plays0 & Hplays).
  { eapply Forall_impl; [exact Hv |]. intros s Hs. by apply valid_converts. }
  exists spans, d, plays0. rewrite Hd, Hplays.
  apply try_map_ok in Hplays.
  destruct (plays_of_spans _ _ Hplays) as (Hlen & _ & _ & Hfit).
  split_and!; [done | exact Hdict | exact Hplays |].
  unfold DBSong_insert_many. cbn [db_clear_user_data songs].
  destruct (insert_song_rows d.*2 []) as [table | e] eqn:Hins; cbn [try_bind].
  - right. apply insert_song_rows_returned in Hins as [-> Hnd].
    split; [apply Hnd; constructor |].
    unfold DBPlay_insert_many, db_clear_user_data.
    cbn [plays plays_seq songs info info_seq other app].
    destruct (insert_play_rows plays0 [] (plays_seq db)) as [res | e] eqn:Hpl;
      cbn [try_bind].
    + right. apply insert_play_rows_returned in Hpl as (-> & Hfit0 & Hids).
      rewrite Hlen in Hids. split_and!; [by apply Hfit | done |].
      unfold DBInfo_insert. cbn [plays plays_seq songs info info_seq other fst snd app].
      destruct (Z.leb_spec int64_max (info_seq db)) as [Hfull | Hfree].
      * left. split; [done |]. reflexivity.
      * right. split; [done |]. reflexivity.
    + left. exists e. split; [|reflexivity].
      apply insert_play_rows_error in Hpl as [[-> Hn] | [-> Hn]]; [left | right];
        (split; [done |]).
      * by rewrite <- Hfit.
      * by rewrite <- Hlen.
  - left. apply insert_song_rows_error in Hins as [-> Hnd]. done.
Qed.

End Resync.

End SyncFacts.

(** X12. A sync that completes records the directory hash, so syncing again
    with the same hash changes nothing and does not even read the directory;
    the [AUTOINCREMENT] invariant of [info] is kept. *)
Theorem sync_is_idempotent {O : Type} (db db' : Store.DB O) (curr_hash : string)
    (data_dir : list Persistence.DirEntry) :
  Store.counters_ok db →
  LoadData.sync_spotify_data_to_db db (Ok curr_hash) data_dir = (None, db') →
  Store.counters_ok db'
  ∧ (∃ row, Store.DBInfo_get db' = Some row ∧ Store.last_dir_hash row = curr_hash)
  ∧ ∀ dir', LoadData.sync_spotify_data_to_db db' (Ok curr_hash) dir' = (None, db').
Proof.
  intros Hok H.
  assert (Hrow : ∃ row, Store.DBInfo_get db' = Some row
                        ∧ Store.last_dir_hash row = curr_hash
                        ∧ Store.counters_ok db').
  { unfold LoadData.sync_spotify_data_to_db in H.
    destruct (LoadData.unchanged (Store.DBInfo_get db) curr_hash) eqn:Hun.
    - injection H as <-. unfold LoadData.unchanged in Hun.
      destruct (Store.DBInfo_get db) as [row|]; [|done].
      exists row. by apply bool_decide_eq_true in Hun.
    - destruct (SyncFacts.resync_cases db curr_hash data_dir)
        as [(e & _ & He)
           | (spans & d & plays0 & _ & _ & _ &
              [[_ Hs] | [_ [(e & _ & Hs) | (_ & _ & [[_ Hs] | [_ Hs]])]]])];
        rewrite H in *; try done.
      injection Hs as ->. eexists. unfold Store.DBInfo_get, LoadData.synced.
      cbn [Store.info]. split_and!.
      + apply SyncFacts.latest_info_snoc.
        eapply Forall_impl; [exact Hok |]. intros x Hx. cbn in *. lia.
      + done.
      + unfold Store.counters_ok. cbn [Store.info Store.info_seq].
        apply Forall_app. split.
        * eapply Forall_impl; [exact Hok |]. intros x Hx. cbn in *. lia.
        * apply Forall_singleton. cbn. lia. }
  destruct Hrow as (row & Hget & Hhash & Hok').
  split_and!; [done | by exists row |].
  intros dir'. unfold LoadData.sync_spotify_data_to_db, LoadData.unchanged.
  rewrite Hget, bool_decide_eq_true_2; done.
Qed.

Lemma sync_is_idempotent_witness :
  ∃ db',
    Store.counters_ok Fixtures.empty_db
    ∧ LoadData.sync_spotify_data_to_db Fixtures.empty_db (Ok "9f3c") Fixtures.history
      = (None, db')
    ∧ LoadData.sync_spotify_data_to_db db' (Ok "9f3c") [] = (None, db').
Proof.
  eexists.
  assert (Hok : Store.counters_ok Fixtures.empty_db) by constructor.
  assert (H : LoadData.sync_spotify_data_to_db Fixtures.empty_db (Ok "9f3c") Fixtures.history
              = (None, (LoadData.sync_spotify_data_to_db Fixtures.empty_db (Ok "9f3c")
                          Fixtures.history).2)) by reflexivity.
  split_and!; [exact Hok | exact H |].
  apply (proj2 (proj2 (sync_is_idempotent _ _ _ _ Hok H))).
Defined.

(** X13. What a resync stores: one play per valid span, in time order, with
    the span's [ts] and [ms_played] and ids that continue the counter; one
    song per distinct track URI of the valid spans, built from a span with
    that URI, with distinct track ids; every play's track id is the id of a
    stored song; one more [info] row holds the hash; the other tables are
    untouched. *)
Theorem sync_result {O : Type} (db db' : Store.DB O) (curr_hash : string)
    (data_dir : list Persistence.DirEntry) :
  LoadData.unchanged (Store.DBInfo_get db) curr_hash = false →
  LoadData.sync_spotify_data_to_db db (Ok curr_hash) data_dir = (None, db') →
  ∃ spans,
    Persistence.load_history data_dir = Returned spans
    ∧ let v := filter (λ s, Store.valid_span s = true) spans in
      Store.play_ts <$> Store.plays db' = Persistence.ts <$> v
      ∧ Store.play_ms_played <$> Store.plays db' = Persistence.ms_played <$> v
      ∧ Store.play_id <$> Store.plays db'
        = (λ k, Some (Store.plays_seq db + 1 + Z.of_nat k)) <$> seq 0 (length v)
      ∧ Sorted Persistence.datetime_le (Store.play_ts <$> Store.plays db')
      ∧ NoDup (Store.track_id <$> Store.songs db')
      ∧ (∀ p, p ∈ Store.plays db' →
              Store.play_track_id p ∈ Store.track_id <$> Store.songs db')
      ∧ (∀ song, song ∈ Store.songs db' →
           ∃ s, s ∈ v ∧ Store.DBSong_from_spotify_song_span s = Ok song)
      ∧ length (Store.songs db')
        = length (remove_dups (Persistence.spotify_track_uri <$> v))
      ∧ Store.info db'
        = Store.info db ++ [ {| Store.hash_id := Store.info_seq db + 1;
                                Store.last_dir_hash := curr_hash |} ]
      ∧ Store.other db' = Store.other db
      ∧ (∀ p q, p ∈ Store.plays db' → q ∈ Store.plays db' →
           Persistence.aware (Store.play_ts p) = Persistence.aware (Store.play_ts q))
      ∧ Forall (λ p, Store.fits_int64 (Store.play_ms_played p) = true) (Store.plays db').
Proof.
  intros Hun H. unfold LoadData.sync_spotify_data_to_db in H. rewrite Hun in H.
  destruct (SyncFacts.resync_cases db curr_hash data_dir)
    as [(e & _ & He)
       | (spans & d & plays0 & Hload & Hdict & Hplays &
          [[_ Hs] | [Hnd [(e & _ & Hs) | (Hfit & _ & [[_ Hs] | [_ Hs]])]]])];
    rewrite H in *; try done.
  injection Hs as ->. exists spans. split; [done |]. intros v.
  fold v in Hdict, Hplays, Hfit. destruct Hdict as (Hkeys_nd & Hval & Hkeys).
  unfold LoadData.synced. cbn [Store.plays Store.songs Store.info Store.other].
  destruct (SyncFacts.numbered_fields plays0 (Store.plays_seq db))
    as (Hts & Hids & Hms & Hnum).
  destruct (SyncFacts.plays_of_spans _ _ Hplays) as (Hlen & Hts0 & Hms0 & _).
  apply PersistenceFacts.load_history_returned in Hload as (Hsorted & _ & Hcomp).
  split_and!.
  - by rewrite Hts.
  - by rewrite Hms.
  - rewrite Hnum. by rewrite Hlen.
  - rewrite Hts, Hts0. apply StronglySorted_Sorted.
    apply (StronglySorted_fmap _ Persistence.ts_le Persistence.datetime_le); [done |].
    apply SyncFacts.strongly_sorted_filter. rewrite Hsorted.
    apply (PersistenceFacts.sort_by_sorted Persistence.ts_instant).
  - exact Hnd.
  - intros p Hp.
    apply (list_elem_of_fmap_2 Store.play_track_id) in Hp. rewrite Hids in Hp.
    apply list_elem_of_fmap in Hp as (p0 & -> & Hp0).
    destruct (proj1 (list_elem_of_lookup _ _) Hp0) as [i Hi].
    destruct (Forall2_lookup_r _ _ _ _ _ Hplays Hi) as (s & Hsi & Hs).
    apply SyncFacts.play_segment in Hs as (_ & _ & _ & u & Hu & Hseg).
    assert (Hsv : s ∈ v) by (by eapply list_elem_of_lookup_2).
    specialize (Hkeys s Hsv). rewrite Hu in Hkeys.
    apply list_elem_of_fmap in Hkeys as ([k song] & Hk & Hin). cbn in Hk. subst k.
    destruct (Hval _ _ Hin) as (s' & _ & Hu' & Hsong).
    apply SyncFacts.song_segment in Hsong as (_ & u' & Hu'' & Hseg').
    assert (u' = u) as -> by congruence.
    assert (Store.track_id song = Store.play_track_id p0) as <- by congruence.
    rewrite <- list_fmap_compose. by apply (list_elem_of_fmap_2 (Store.track_id ∘ snd)) in Hin.
  - intros song Hsong. apply list_elem_of_fmap in Hsong as ([k song'] & -> & Hin).
    destruct (Hval _ _ Hin) as (s & ? & _ & ?). by exists s.
  - rewrite length_fmap, <- (length_fmap fst). apply Permutation_length.
    apply NoDup_Permutation; [done | apply NoDup_remove_dups |].
    intros k. rewrite elem_of_remove_dups. split.
    + intros ([k' song] & -> & Hin)%list_elem_of_fmap.
      destruct (Hval _ _ Hin) as (s & Hs & <- & _). cbn [fst].
      by apply (list_elem_of_fmap_2 Persistence.spotify_track_uri).
    + intros (s & -> & Hs)%list_elem_of_fmap. by apply Hkeys.
  - done.
  - done.
  - assert (Hkind : ∀ p, p ∈ Store.numbered plays0 (Store.plays_seq db) →
                         ∃ s, s ∈ spans ∧ Store.play_ts p = Persistence.ts s).
    { intros p Hp. apply (list_elem_of_fmap_2 Store.play_ts) in Hp.
      rewrite Hts, Hts0 in Hp. apply list_elem_of_fmap in Hp as (s & -> & Hs).
      apply list_elem_of_filter in Hs as [_ Hs]. by exists s. }
    intros p q (s & Hs & ->)%Hkind (t & Ht & ->)%Hkind.
    rewrite Hsorted in Hs, Ht.
    rewrite (PersistenceFacts.sort_by_perm Persistence.ts_instant) in Hs, Ht.
    by apply Hcomp.
  - apply (proj1 (Forall_fmap Store.play_ms_played (λ z, Store.fits_int64 z = true) _)).
    rewrite Hms, Hms0.
    apply (proj2 (Forall_fmap Persistence.ms_played (λ z, Store.fits_int64 z = true) _)).
    exact Hfit.
Qed.

Lemma sync_result_witness :
  let db' := (LoadData.sync_spotify_data_to_db Fixtures.empty_db (Ok "9f3c")
                Fixtures.history).2 in
  LoadData.unchanged (Store.DBInfo_get Fixtures.empty_db) "9f3c" = false
  ∧ LoadData.sync_spotify_data_to_db Fixtures.empty_db (Ok "9f3c") Fixtures.history
    = (None, db')
  ∧ Store.play_ts <$> Store.plays db' = Persistence.utc <$> [10; 20; 30]
  ∧ Store.track_id <$> Store.songs db' = ["a1"; "c3"]
  ∧ Store.track_name <$> Store.songs db' = ["a again"; "c"]
  ∧ ∀ p, p ∈ Store.plays db' →
         Store.play_track_id p ∈ Store.track_id <$> Store.songs db'.
Proof.
  intros db'.
  assert (Hun : LoadData.unchanged (Store.DBInfo_get Fixtures.empty_db) "9f3c" = false)
    by reflexivity.
  assert (H : LoadData.sync_spotify_data_to_db Fixtures.empty_db (Ok "9f3c") Fixtures.history
              = (None, db')) by reflexivity.
  split_and!; [exact Hun | exact H | reflexivity | reflexivity | reflexivity |].
  destruct (sync_result Fixtures.empty_db db' "9f3c" Fixtures.history Hun H)
    as (spans & _ & Hres).
  apply Hres.
Defined.

(** X14. A sync that raises never records the hash and leaves [info] and
    the other tables as they were.  Either the hashing of the directory
    raised, and nothing was changed; or [songs] and [plays] were cleared and
    committed first, and then: the history could not be loaded (a file that
    cannot be read, or timestamps that cannot be compared), or the song rows
    raised [IntegrityError], both with the two tables left empty; or the
    song rows were committed and the play rows raised ([OverflowError] for
    an [ms_played] beyond 64 bits, [OperationalError] when no play id is
    left), leaving the songs without plays; or songs and plays were
    committed and no [info] id is left.  The assertions of the row
    conversions never fail there, since only valid spans are converted.
    After such a failure a call with the same hash does not take the early
    return, but a call with the hash recorded last does, and keeps the
    tables as the failure left them. *)
Theorem sync_failure {O : Type} (db db' : Store.DB O) (hashed : Try string)
    (data_dir : list Persistence.DirEntry) (e : PyError) :
  LoadData.sync_spotify_data_to_db db hashed data_dir = (Some e, db') →
  Store.info db' = Store.info db
  ∧ Store.info_seq db' = Store.info_seq db
  ∧ Store.other db' = Store.other db
  ∧ (∀ row dir', Store.DBInfo_get db = Some row →
       LoadData.sync_spotify_data_to_db db' (Ok (Store.last_dir_hash row)) dir'
       = (None, db'))
  ∧ ((hashed = Err e ∧ db' = db)
     ∨ ∃ curr_hash,
         hashed = Ok curr_hash
         ∧ LoadData.unchanged (Store.DBInfo_get db) curr_hash = false
         ∧ LoadData.unchanged (Store.DBInfo_get db') curr_hash = false
         ∧ e ≠ AssertionError ∧ e ≠ IndexError
         ∧ ((∃ x, e = Failed x ∧ Persistence.load_history data_dir = Raised x
                  ∧ db' = Store.db_clear_user_data db)
            ∨ ∃ spans,
                Persistence.load_history data_dir = Returned spans
                ∧ let v := filter (λ s, Store.valid_span s = true) spans in
                  (e = IntegrityError ∧ ¬ LoadData.ids_distinct v
                   ∧ db' = Store.db_clear_user_data db)
                  ∨ (LoadData.ids_distinct v
                     ∧ ((e = OverflowError ∧ ¬ LoadData.plays_fit v)
                        ∨ (e = OperationalError
                           ∧ ¬ LoadData.ids_left (Store.plays_seq db) (length v)))
                     ∧ ∃ d, LoadData.dict_of v d
                            ∧ db' = LoadData.with_songs db d.*2)
                  ∨ (LoadData.ids_distinct v ∧ LoadData.plays_fit v
                     ∧ LoadData.ids_left (Store.plays_seq db) (length v)
                     ∧ e = OperationalError
                     ∧ Store.int64_max ≤ Store.info_seq db
                     ∧ ∃ d plays0,
                         LoadData.dict_of v d
                         ∧ Forall2 (λ s p, Store.DBPlay_from_spotify_song_span s = Ok p)
                             v plays0
                         ∧ db' = LoadData.with_plays db d.*2 plays0))).
Proof.
  intros H.
  assert (Hcases :
    (hashed = Err e ∧ db' = db)
    ∨ ∃ curr_hash,
        hashed = Ok curr_hash
        ∧ LoadData.unchanged (Store.DBInfo_get db) curr_hash = false
        ∧ LoadData.resync db curr_hash data_dir = (Some e, db')).
  { unfold LoadData.sync_spotify_data_to_db in H.
    destruct hashed as [curr_hash | e'].
    - right. exists curr_hash.
      by destruct (LoadData.unchanged (Store.DBInfo_get db) curr_hash) eqn:Hun.
    - left. by injection H as -> ->. }
  assert (Hframe : Store.info db' = Store.info db
                   ∧ Store.info_seq db' = Store.info_seq db
                   ∧ Store.other db' = Store.other db).
  { destruct Hcases as [[_ ->] | (curr_hash & _ & _ & Hs)]; [done |].
    destruct (SyncFacts.resync_cases db curr_hash data_dir)
      as [(x & _ & Hs')
         | (spans & d & plays0 & _ & _ & _ &
            [[_ Hs'] | [_ [(e' & _ & Hs') | (_ & Hids & [[Hfull Hs'] | [_ Hs']])]]])];
      rewrite Hs in Hs'; try done; injection Hs' as ? ->; try done. }
  destruct Hframe as (Hinfo & Hiseq & Hother).
  assert (Hget : Store.DBInfo_get db' = Store.DBInfo_get db)
    by (unfold Store.DBInfo_get; by rewrite Hinfo).
  split_and!; try done.
  - intros row dir' Hrow.
    unfold LoadData.sync_spotify_data_to_db, LoadData.unchanged.
    rewrite Hget, Hrow, bool_decide_eq_true_2; done.
  - destruct Hcases as [? | (curr_hash & -> & Hun & Hs)]; [by left |].
    right. exists curr_hash. rewrite Hget.
    destruct (SyncFacts.resync_cases db curr_hash data_dir)
      as [(x & Hload & Hs')
         | (spans & d & plays0 & Hload & Hdict & Hplays &
            [[Hnd Hs'] | [Hnd [(e' & He' & Hs') | (Hfit & Hids & [[Hfull Hs'] | [_ Hs']])]]])];
      rewrite Hs in Hs'; try done; injection Hs' as -> ->.
    + split_and!; try done. left. by exists x.
    + split_and!; try done. right. exists spans. split; [done |]. intros v.
      left. split_and!; try done.
      intros Hd. apply Hnd. by apply (SyncFacts.dict_ids_distinct _ d Hdict).
    + assert (e' ≠ AssertionError ∧ e' ≠ IndexError) as [? ?]
        by (destruct He' as [[-> _] | [-> _]]; done).
      split_and!; try done. right. exists spans. split; [done |]. intros v.
      right. left. split_and!.
      * by apply (SyncFacts.dict_ids_distinct _ d Hdict).
      * exact He'.
      * by exists d.
    + split_and!; try done. right. exists spans. split; [done |]. intros v.
      right. right. split_and!; try done.
      * by apply (SyncFacts.dict_ids_distinct _ d Hdict).
      * by exists d, plays0.
Qed.

Lemma sync_failure_witness :
  (LoadData.sync_spotify_data_to_db Fixtures.empty_db (Ok "9f3c") Fixtures.clashing
   = (Some IntegrityError, Store.db_clear_user_data Fixtures.empty_db)
   ∧ Store.info (Store.db_clear_user_data Fixtures.empty_db)
     = Store.info Fixtures.empty_db)
  ∧ (∃ db',
       LoadData.sync_spotify_data_to_db Fixtures.synced_db (Ok "77aa") Fixtures.oversized
       = (Some OverflowError, db')
       ∧ Store.track_id <$> Store.songs db' = ["a1"]
       ∧ Store.plays db' = []
       ∧ LoadData.sync_spotify_data_to_db db' (Ok "9f3c") [] = (None, db')).
Proof.
  assert (H : LoadData.sync_spotify_data_to_db Fixtures.empty_db (Ok "9f3c") Fixtures.clashing
              = (Some IntegrityError, Store.db_clear_user_data Fixtures.empty_db))
    by reflexivity.
  split; [split; [exact H |] |].
  - apply (sync_failure _ _ _ _ _ H).
  - eexists.
    assert (H' : LoadData.sync_spotify_data_to_db Fixtures.synced_db (Ok "77aa")
                   Fixtures.oversized
                 = (Some OverflowError,
                    (LoadData.sync_spotify_data_to_db Fixtures.synced_db (Ok "77aa")
                       Fixtures.oversized).2)) by reflexivity.
    split_and!; [exact H' | reflexivity | reflexivity |].
    apply (proj1 (proj2 (proj2 (proj2 (sync_failure _ _ _ _ _ H'))))
             {| Store.hash_id := 1; Store.last_dir_hash := "9f3c" |} []).
    reflexivity.
Defined.

(** X15. When the hash has changed and the history loads, the sync
    completes exactly when no two different track URIs of valid spans end in
    the same segment after the last colon, every [ms_played] of a valid span
    fits in 64 bits, and the counters of [plays] and [info] have ids left.
    Otherwise: with clashing segments the insert of the song rows raises
    [IntegrityError] and the tables stay cleared; with an [ms_played] beyond
    64 bits the insert of the play rows raises [OverflowError] after the
    songs were committed, and the plays stay empty. *)
Theorem sync_completes_iff {O : Type} (db : Store.DB O) (curr_hash : string)
    (data_dir : list Persistence.DirEntry) (spans : list Persistence.SpotifySongSpan) :
  LoadData.unchanged (Store.DBInfo_get db) curr_hash = false →
  Persistence.load_history data_dir = Returned spans →
  let v := filter (λ s, Store.valid_span s = true) spans in
  ((∃ db', LoadData.sync_spotify_data_to_db db (Ok curr_hash) data_dir = (None, db'))
   ↔ LoadData.ids_distinct v ∧ LoadData.plays_fit v
     ∧ LoadData.ids_left (Store.plays_seq db) (length v)
     ∧ Store.info_seq db < Store.int64_max)
  ∧ (¬ LoadData.ids_distinct v →
     LoadData.sync_spotify_data_to_db db (Ok curr_hash) data_dir
     = (Some IntegrityError, Store.db_clear_user_data db))
  ∧ (LoadData.ids_distinct v → ¬ LoadData.plays_fit v →
     LoadData.ids_left (Store.plays_seq db) (length v) →
     ∃ d, LoadData.dict_of v d
          ∧ LoadData.sync_spotify_data_to_db db (Ok curr_hash) data_dir
            = (Some OverflowError, LoadData.with_songs db d.*2))
  ∧ (LoadData.ids_distinct v → LoadData.plays_fit v →
     ¬ LoadData.ids_left (Store.plays_seq db) (length v) →
     ∃ d, LoadData.dict_of v d
          ∧ LoadData.sync_spotify_data_to_db db (Ok curr_hash) data_dir
            = (Some OperationalError, LoadData.with_songs db d.*2))
  ∧ (LoadData.ids_distinct v → LoadData.plays_fit v →
     LoadData.ids_left (Store.plays_seq db) (length v) →
     Store.int64_max ≤ Store.info_seq db →
     ∃ d plays0,
       LoadData.dict_of v d
       ∧ Forall2 (λ s p, Store.DBPlay_from_spotify_song_span s = Ok p) v plays0
       ∧ LoadData.sync_spotify_data_to_db db (Ok curr_hash) data_dir
         = (Some OperationalError, LoadData.with_plays db d.*2 plays0)).
Proof.
  intros Hun Hload v. unfold LoadData.sync_spotify_data_to_db. rewrite Hun.
  destruct (SyncFacts.resync_cases db curr_hash data_dir)
    as [(x & Hload' & _) | (spans' & d & plays0 & Hload' & Hdict & Hplays & Hcases)];
    [congruence |].
  assert (spans' = spans) as -> by congruence. fold v in Hdict, Hplays, Hcases.
  pose proof (SyncFacts.dict_ids_distinct _ d Hdict) as Hiff.
  destruct Hcases
    as [[Hnd ->] | [Hnd [(e & He & ->) | (Hfit & Hids & [[Hfull ->] | [Hfree ->]])]]].
  - split_and!.
    + split; [by intros [db' ?] | by intros [?%Hiff _]].
    + done.
    + by intros ?%Hiff.
    + by intros ?%Hiff.
    + by intros ?%Hiff.
  - apply Hiff in Hnd. split_and!.
    + split; [by intros [db' ?] |]. intros (_ & ? & ? & _).
      by destruct He as [[_ ?] | [_ ?]].
    + done.
    + intros _ Hn Hl. destruct He as [[-> _] | [_ ?]]; [|done]. by exists d.
    + intros _ Hf Hn. destruct He as [[_ ?] | [-> _]]; [done |]. by exists d.
    + intros _ Hf Hl. by destruct He as [[_ ?] | [_ ?]].
  - apply Hiff in Hnd. split_and!.
    + split; [by intros [db' ?] |]. intros (_ & _ & _ & ?). lia.
    + done.
    + done.
    + done.
    + intros _ _ _ _. by exists d, plays0.
  - apply Hiff in Hnd. split_and!.
    + split; [done | eauto].
    + done.
    + done.
    + done.
    + intros _ _ _ ?. lia.
Qed.

Lemma sync_completes_iff_witness :
  (LoadData.unchanged (Store.DBInfo_get Fixtures.empty_db) "9f3c" = false
   ∧ LoadData.ids_distinct
       (filter (λ s, Store.valid_span s = true)
          [Fixtures.played 10 "spotify:track:a1" "a";
           Fixtures.played 20 "spotify:track:a1" "a again";
           Sample.span 25 "podcast";
           Fixtures.played 30 "spotify:track:c3" "c"]))
  ∧ LoadData.sync_spotify_data_to_db Fixtures.empty_db (Ok "9f3c") Fixtures.clashing
    = (Some IntegrityError, Store.db_clear_user_data Fixtures.empty_db).
Proof.
  assert (Hun : LoadData.unchanged (Store.DBInfo_get Fixtures.empty_db) "9f3c" = false)
    by reflexivity.
  assert (Hload : Persistence.load_history Fixtures.history
                  = Returned [Fixtures.played 10 "spotify:track:a1" "a";
                              Fixtures.played 20 "spotify:track:a1" "a again";
                              Sample.span 25 "podcast";
                              Fixtures.played 30 "spotify:track:c3" "c"])
    by reflexivity.
  split; [split; [exact Hun |] |].
  - apply (proj1 (proj1 (sync_completes_iff Fixtures.empty_db "9f3c" Fixtures.history
                           _ Hun Hload))).
    eexists. reflexivity.
  - assert (Hload' : Persistence.load_history Fixtures.clashing
                     = Returned [Fixtures.played 10 "spotify:track:a1" "a";
                                 Fixtures.played 20 "spotify:local:a1" "b"])
      by reflexivity.
    apply (proj1 (proj2 (sync_completes_iff Fixtures.empty_db "9f3c" Fixtures.clashing
                           _ Hun Hload'))).
    intros Hd.
    specialize (Hd (Fixtures.played 10 "spotify:track:a1" "a")
                  (Fixtures.played 20 "spotify:local:a1" "b")
                  "spotify:track:a1" "spotify:local:a1"
                  ltac:(by left) ltac:(by right; left) eq_refl eq_refl eq_refl).
    discriminate Hd.
Defined.

(** ** Hashing the data directory *)

Module Md5Facts.
Import Md5.

Lemma chunk_size_pos : (0 < chunk_size)%nat.
Proof. unfold chunk_size. lia. Qed.

Lemma read_chunks_all (fuel : nat) :
  ∀ rest hash, (length rest < fuel)%nat → read_chunks fuel rest hash = hash ++ rest.
Proof.
  pose proof chunk_size_pos as Hpos.
  induction fuel as [|fuel IH]; intros rest hash Hlen; [lia |].
  cbn [read_chunks]. destruct (take chunk_size rest) as [|a chunk] eqn:E.
  - destruct rest as [|b rest]; [by rewrite app_nil_r |].
    destruct chunk_size; [lia | done].
  - assert (rest ≠ []) by (intros ->; by rewrite take_nil in E).
    rewrite IH.
    + by rewrite <- E, <- app_assoc, take_drop.
    + rewrite length_drop. destruct rest; [done |]. cbn [length] in *. lia.
Qed.

Section SortedByKey.

Context {A : Type} (key : A → string).

Local Abbreviation le_key := (λ a b : A, String.le (key a) (key b)).






End SortedByKey.


Lemma encode_app (a b : string) : encode (a +:+ b) = encode a ++ encode b.
Proof.
  unfold encode. induction a as [|c a IH]; [done |].
  rewrite app_cons_s. cbn [list_ascii_of_string]. by rewrite IH.
Qed.

End Md5Facts.

(** X16. Reading a file in blocks of 4096 bytes feeds the hash exactly the
    bytes of the file, in order, whatever its length. *)
Theorem md5_update_from_file_feeds_content (content hash : list ascii) :
  Md5.md5_update_from_file content hash = hash ++ content.
Proof.
  unfold Md5.md5_update_from_file. apply Md5Facts.read_chunks_all. lia.
Qed.



(** X18. The hash input does not mark where a name ends and the content
    begins: a file named [a ++ b] with content [c] and a file named [a] with
    content [b ++ c] feed the same bytes, so the directory hash cannot tell
    them apart. *)
Theorem md5_dir_name_content_ambiguity (hexdigest : list ascii → string)
    (directory a b : string) (c : list ascii) :
  Md5.md5_dir hexdigest directory [Md5.File (a +:+ b) c]
  = Md5.md5_dir hexdigest directory [Md5.File a (Md5.encode b ++ c)].
Proof.
  unfold Md5.md5_dir, Md5.md5_update_from_dir. f_equal.
  cbn [fmap list_fmap Md5.sorted_by_key Md5.insert_by_key concat snd Md5.fed
       Md5.node_name app].
  unfold Md5.md5_update_from_file.
  rewrite !Md5Facts.read_chunks_all by lia.
  rewrite Md5Facts.encode_app. cbn [app]. by rewrite !app_nil_r, <- app_assoc.
Qed.

(** ** Catalogue rows *)

Section InsertOrIgnore.

Context {R : Type} (key : R → string).



End InsertOrIgnore.



(** X20. The fetch loops ask for every id that is known and not yet stored
    exactly once, for no other id, and in calls of at least one and at most
    50 ids. *)
Theorem request_batches_cover_new_ids (known existing : list string) :
  ∃ batches,
    LoadData.request_batches known existing = Ok batches
    ∧ NoDup (concat batches)
    ∧ (∀ x, x ∈ concat batches ↔ x ∈ known ∧ x ∉ existing)
    ∧ Forall (λ b, (1 ≤ length b ≤ 50)%nat) batches.
Proof.
  unfold LoadData.request_batches.
  destruct (batch_iter_positive (LoadData.new_ids known existing) LoadData.BATCH_SIZE
              ltac:(unfold LoadData.BATCH_SIZE; lia))
    as (batches & -> & Hconcat & Hlen & _).
  exists batches. rewrite Hconcat. split_and!; [done | | | exact Hlen].
  - apply NoDup_elements.
  - intros x. unfold LoadData.new_ids.
    rewrite elem_of_elements, elem_of_difference, !elem_of_list_to_set. done.
Qed.
